(** * SAMoS: the periodic Brownian integrator and the soft pair potential

    A shallow embedding of
    - [IntegratorMyPeriodicBrownian::integrate] (integrator_my_periodic_brownian.cpp),
    - the constructor of [PairSoftPotential] and
      [PairSoftPotential::set_pair_parameters] (pair_soft_potential.hpp),
    - the inline members of [Mesh] (mesh.hpp),
    followed by the properties proved about them.

    C++ [double] is IEEE-754 binary64, embedded as Rocq's primitive [float];
    C++ [int] is embedded as [Z] (no index computed here leaves the range of
    [int]).  Mutable objects are threaded through a state monad whose
    failures carry the state reached when the failure happens, so that "what
    was already written" can be stated.  Collaborators whose code is not part
    of these sources (the constraint operator, the random number generator,
    the potential and the alignment, [lexical_cast]) are parameters. *)

From Stdlib Require Import ZArith Ascii Uint63 Floats.PrimFloat Floats.FloatOps Floats.SpecFloat
  Floats.FloatAxioms.
From stdpp Require Import base option list strings pretty gmap.

#[local] Open Scope Z_scope.
#[local] Set Warnings "-inexact-float".

Abbreviation double := PrimFloat.float (only parsing).

(** ** Failures and the state monad *)

(** How a call can stop short of returning.  [RuntimeError] and
    [BadLexicalCast] are C++ exceptions ([std::runtime_error],
    [boost::bad_lexical_cast]); [NullPointer] and [IndexOutOfRange] stand for
    the undefined behaviour of dereferencing an unset [shared_ptr] and of an
    unchecked [operator[]] outside the container. *)
Inductive failure : Type :=
| RuntimeError (what : string)
| BadLexicalCast
| NullPointer
| IndexOutOfRange.

Definition is_exception (f : failure) : bool :=
  match f with
  | RuntimeError _ | BadLexicalCast => true
  | NullPointer | IndexOutOfRange => false
  end.

Inductive outcome (S A : Type) : Type :=
| Ret (a : A) (s : S)
| Fail (f : failure) (s : S).
Arguments Ret {S A} a s.
Arguments Fail {S A} f s.

Definition M (S A : Type) : Type := S -> outcome S A.

Definition ret {S A : Type} (a : A) : M S A := fun s => Ret a s.

Definition bind {S A B : Type} (m : M S A) (k : A -> M S B) : M S B :=
  fun s => match m s with
           | Ret a s' => k a s'
           | Fail f s' => Fail f s'
           end.

Definition raise {S A : Type} (f : failure) : M S A := fun s => Fail f s.

Definition get {S : Type} : M S S := fun s => Ret s s.

Definition modify {S : Type} (g : S -> S) : M S unit := fun s => Ret tt (g s).

Declare Scope monad_scope.
Delimit Scope monad_scope with monad.
Notation "'let*' x ':=' m 'in' k" := (bind m (fun x => k))
  (at level 10, x name, m at level 100, k at level 200) : monad_scope.
Notation "m ;; k" := (bind m (fun _ => k))
  (at level 100, k at level 200, right associativity) : monad_scope.
#[local] Open Scope monad_scope.

(** [for (a : l) body(a);] *)
Fixpoint for_each {S A : Type} (l : list A) (body : A -> M S unit) : M S unit :=
  match l with
  | [] => ret tt
  | a :: l' => body a ;; for_each l' body
  end.

(** [v[i]] for a [std::vector] or a plain array and an [int] index. *)
Definition lookupZ {A : Type} (l : list A) (i : Z) : option A :=
  if i <? 0 then None else l !! Z.to_nat i.

(** [f] applied in place to [v[i]]; nothing changes when [i] is not an index
    of [v]. *)
Definition alterZ {A : Type} (f : A -> A) (i : Z) (l : list A) : list A :=
  if i <? 0 then l else alter f (Z.to_nat i) l.

(** [int(d)] for a [double]: truncation toward zero. *)
Definition int_of_double (d : double) : Z :=
  match Prim2SF d with
  | S754_finite s m e =>
      let v := if 0 <=? e then Z.pos m * 2 ^ e else Z.pos m `div` 2 ^ (- e) in
      if s then - v else v
  | _ => 0
  end.

(** The conversion of an [int] operand to [double]. *)
Definition double_of_int (i : Z) : double :=
  if i <? 0 then (- of_uint63 (Uint63.of_Z (- i)))%float else of_uint63 (Uint63.of_Z i).

(** ** Particles *)

(** The fields of [Particle] that [integrate] and its collaborators touch. *)
Module Particle.

Record t : Type := mk {
  x : double; y : double; z : double;
  nx : double; ny : double; nz : double;
  vx : double; vy : double; vz : double;
  fx : double; fy : double; fz : double;
  tau_x : double; tau_y : double; tau_z : double;
  omega : double;
  age : double
}.

Definition set_x (v : double) (p : t) : t :=
  mk v (y p) (z p) (nx p) (ny p) (nz p) (vx p) (vy p) (vz p) (fx p) (fy p) (fz p)
     (tau_x p) (tau_y p) (tau_z p) (omega p) (age p).
Definition set_y (v : double) (p : t) : t :=
  mk (x p) v (z p) (nx p) (ny p) (nz p) (vx p) (vy p) (vz p) (fx p) (fy p) (fz p)
     (tau_x p) (tau_y p) (tau_z p) (omega p) (age p).
Definition set_z (v : double) (p : t) : t :=
  mk (x p) (y p) v (nx p) (ny p) (nz p) (vx p) (vy p) (vz p) (fx p) (fy p) (fz p)
     (tau_x p) (tau_y p) (tau_z p) (omega p) (age p).
Definition set_nx (v : double) (p : t) : t :=
  mk (x p) (y p) (z p) v (ny p) (nz p) (vx p) (vy p) (vz p) (fx p) (fy p) (fz p)
     (tau_x p) (tau_y p) (tau_z p) (omega p) (age p).
Definition set_ny (v : double) (p : t) : t :=
  mk (x p) (y p) (z p) (nx p) v (nz p) (vx p) (vy p) (vz p) (fx p) (fy p) (fz p)
     (tau_x p) (tau_y p) (tau_z p) (omega p) (age p).
Definition set_nz (v : double) (p : t) : t :=
  mk (x p) (y p) (z p) (nx p) (ny p) v (vx p) (vy p) (vz p) (fx p) (fy p) (fz p)
     (tau_x p) (tau_y p) (tau_z p) (omega p) (age p).
Definition set_vx (v : double) (p : t) : t :=
  mk (x p) (y p) (z p) (nx p) (ny p) (nz p) v (vy p) (vz p) (fx p) (fy p) (fz p)
     (tau_x p) (tau_y p) (tau_z p) (omega p) (age p).
Definition set_vy (v : double) (p : t) : t :=
  mk (x p) (y p) (z p) (nx p) (ny p) (nz p) (vx p) v (vz p) (fx p) (fy p) (fz p)
     (tau_x p) (tau_y p) (tau_z p) (omega p) (age p).
Definition set_vz (v : double) (p : t) : t :=
  mk (x p) (y p) (z p) (nx p) (ny p) (nz p) (vx p) (vy p) v (fx p) (fy p) (fz p)
     (tau_x p) (tau_y p) (tau_z p) (omega p) (age p).
Definition set_omega (v : double) (p : t) : t :=
  mk (x p) (y p) (z p) (nx p) (ny p) (nz p) (vx p) (vy p) (vz p) (fx p) (fy p) (fz p)
     (tau_x p) (tau_y p) (tau_z p) v (age p).
Definition set_age (v : double) (p : t) : t :=
  mk (x p) (y p) (z p) (nx p) (ny p) (nz p) (vx p) (vy p) (vz p) (fx p) (fy p) (fz p)
     (tau_x p) (tau_y p) (tau_z p) (omega p) v.
Definition set_force (v : double) (p : t) : t :=
  mk (x p) (y p) (z p) (nx p) (ny p) (nz p) (vx p) (vy p) (vz p) v v v
     (tau_x p) (tau_y p) (tau_z p) (omega p) (age p).
Definition set_torque (v : double) (p : t) : t :=
  mk (x p) (y p) (z p) (nx p) (ny p) (nz p) (vx p) (vy p) (vz p) (fx p) (fy p) (fz p)
     v v v (omega p) (age p).

(** The three vectors of a particle, for stating results. *)
Definition position (p : t) : double * double * double := (x p, y p, z p).
Definition director (p : t) : double * double * double := (nx p, ny p, nz p).
Definition velocity (p : t) : double * double * double := (vx p, vy p, vz p).

End Particle.

(** ** The constraint operator

    [Constrainer] is used through four calls, each acting on the particle it
    is handed. *)
Record Constrainer : Type := {
  enforce : Particle.t -> Particle.t;
  project_torque : Particle.t -> double;
  rotate_director : Particle.t -> double -> Particle.t;
  rotate_velocity : Particle.t -> double -> Particle.t
}.

(** ** Calls on collaborators

    Every call [integrate] makes on an object it does not own is recorded, in
    program order, with the particle index and the arguments it was made
    with. *)
Inductive Call : Type :=
| Call_reset_forces
| Call_reset_torques
| Call_drnd
| Call_gauss_rng (sigma : double)
| Call_potential_compute (dt : double)
| Call_align_compute
| Call_enforce (pi : Z)
| Call_project_torque (pi : Z)
| Call_rotate_director (pi : Z) (dtheta : double)
| Call_rotate_velocity (pi : Z) (dtheta : double)
| Call_update_mesh.

(** The calls that consume a sample of the generator. *)
Definition is_draw (c : Call) : bool :=
  match c with
  | Call_drnd | Call_gauss_rng _ => true
  | _ => false
  end.

(** The calls made on the constraint operator. *)
Definition is_constrainer_call (c : Call) : bool :=
  match c with
  | Call_enforce _ | Call_project_torque _
  | Call_rotate_director _ _ | Call_rotate_velocity _ _ => true
  | _ => false
  end.

(** ** The integrator and the state it acts on *)

Section Integrator.

(** The state of the random number generator behind [m_rng]. *)
Context {Rng : Type}.

(** What [integrate] can change: the particle store of [m_system], the state
    of the generator and the record of calls; and what it reads from
    [m_system] without changing it: the particle indices of the group named
    [m_group_name], in the group's order, and the run step. *)
Record World : Type := {
  sys_particles : list Particle.t;
  sys_group : list Z;
  sys_run_step : Z;
  rng_state : Rng;
  calls : list Call
}.

Definition set_particles (ps : list Particle.t) (w : World) : World :=
  {| sys_particles := ps; sys_group := sys_group w; sys_run_step := sys_run_step w;
     rng_state := rng_state w; calls := calls w |}.
Definition set_rng (g : Rng) (w : World) : World :=
  {| sys_particles := sys_particles w; sys_group := sys_group w;
     sys_run_step := sys_run_step w; rng_state := g; calls := calls w |}.
Definition add_call (c : Call) (w : World) : World :=
  {| sys_particles := sys_particles w; sys_group := sys_group w;
     sys_run_step := sys_run_step w; rng_state := rng_state w; calls := calls w ++ [c] |}.

(** The world [w] once the store has become [ps], the generator has reached
    [g] and the calls [cs] have been made. *)
Definition evolve (w : World) (ps : list Particle.t) (g : Rng) (cs : list Call) : World :=
  {| sys_particles := ps; sys_group := sys_group w; sys_run_step := sys_run_step w;
     rng_state := g; calls := calls w ++ cs |}.

(** The members of [IntegratorMyPeriodicBrownian] that [integrate] reads.
    The three collaborator pointers may be unset ([None]); [m_temp] is
    [m_temp->get_val]; [m_rng_drnd] and [m_rng_gauss_rng] are the two draws of
    [m_rng], as functions of the generator state. *)
Record Integrator : Type := {
  m_dt : double;
  m_mu : double;
  m_mur : double;
  m_v0 : double;
  m_tau : double;
  m_stoch_coeff : double;
  m_nematic : bool;
  m_velocity : bool;
  m_temp : Z -> double;
  m_potential : option (double -> list Particle.t -> list Particle.t);
  m_align : option (list Particle.t -> list Particle.t);
  m_constrainer : option Constrainer;
  m_rng_drnd : Rng -> double * Rng;
  m_rng_gauss_rng : double -> Rng -> double * Rng
}.

Variable self : Integrator.

(** *** Access to the system and the generator *)

(** A read of the system that leaves it as it is. *)
Definition read {A : Type} (f : World -> A) : M World A := fun w => Ret (f w) w.

(** [m_system->get_particle(pi)]: a reference into the store. *)
Definition get_particle (pi : Z) : M World Particle.t :=
  fun w => match lookupZ (sys_particles w) pi with
           | Some p => Ret p w
           | None => Fail IndexOutOfRange w
           end.

(** A write through the reference [p] obtained for index [pi]. *)
Definition update_particle (pi : Z) (f : Particle.t -> Particle.t) : M World unit :=
  modify (fun w => set_particles (alterZ f pi (sys_particles w)) w).

(** [particles[i]] *)
Definition particle_index (particles : list Z) (i : Z) : M World Z :=
  fun w => match lookupZ particles i with
           | Some pi => Ret pi w
           | None => Fail IndexOutOfRange w
           end.

(** The record of a call on a collaborator. *)
Definition call (c : Call) : M World unit := modify (add_call c).

(** [m_rng->drnd()] *)
Definition drnd : M World double :=
  fun w => let r := m_rng_drnd self (rng_state w) in
           Ret (fst r) (add_call Call_drnd (set_rng (snd r) w)).

(** [m_rng->gauss_rng(sigma)] *)
Definition gauss_rng (sigma : double) : M World double :=
  fun w => let r := m_rng_gauss_rng self sigma (rng_state w) in
           Ret (fst r) (add_call (Call_gauss_rng sigma) (set_rng (snd r) w)).

(** [m_constrainer->...]: the dereference of the pointer. *)
Definition constrainer : M World Constrainer :=
  match m_constrainer self with
  | Some c => ret c
  | None => raise NullPointer
  end.

(** Modelled from the spec: [System::reset_forces] and
    [System::reset_torques], which are not part of the sources at hand
    ("Reset global force and torque accumulators to zero"). *)
Definition reset_forces : M World unit :=
  modify (fun w => set_particles (Particle.set_force 0%float <$> sys_particles w) w)
  ;; call Call_reset_forces.
Definition reset_torques : M World unit :=
  modify (fun w => set_particles (Particle.set_torque 0%float <$> sys_particles w) w)
  ;; call Call_reset_torques.

(** [if (m_potential) m_potential->compute(m_dt);] *)
Definition compute_forces : M World unit :=
  match m_potential self with
  | Some compute =>
      modify (fun w => set_particles (compute (m_dt self) (sys_particles w)) w)
      ;; call (Call_potential_compute (m_dt self))
  | None => ret tt
  end.

(** [if (m_align) m_align->compute();] *)
Definition compute_torques : M World unit :=
  match m_align self with
  | Some compute =>
      modify (fun w => set_particles (compute (sys_particles w)) w)
      ;; call Call_align_compute
  | None => ret tt
  end.

(** *** The nematic flip (lines 56-70) *)

(** [p.nx = -p.nx; p.ny = -p.ny; p.nz = -p.nz;] *)
Definition negate_director (p : Particle.t) : Particle.t :=
  Particle.set_nz (- Particle.nz p)%float
    (Particle.set_ny (- Particle.ny p)%float
       (Particle.set_nx (- Particle.nx p)%float p)).

(** [p.vx = -p.vx; p.vy = -p.vy; p.vz = -p.vz;] *)
Definition negate_velocity (p : Particle.t) : Particle.t :=
  Particle.set_vz (- Particle.vz p)%float
    (Particle.set_vy (- Particle.vy p)%float
       (Particle.set_vx (- Particle.vx p)%float p)).

(** The body of the [if (m_rng->drnd() < m_tau)]. *)
Definition flip (p : Particle.t) : Particle.t :=
  let p := negate_director p in
  if m_velocity self then negate_velocity p else p.

(** One iteration of the flip loop. *)
Definition attempt_flip (pi : Z) : M World unit :=
  let* _ := get_particle pi in
  let* u := drnd in
  if (u <? m_tau self)%float then update_particle pi flip else ret tt.

(** *** The per-particle update (lines 79-121) *)

(** Lines 84-94: the deterministic part. *)
Definition drift_update (p : Particle.t) : Particle.t :=
  let fd_x := (m_v0 self * Particle.nx p + m_mu self * Particle.fx p)%float in
  let fd_y := (m_v0 self * Particle.ny p + m_mu self * Particle.fy p)%float in
  let fd_z := (m_v0 self * Particle.nz p + m_mu self * Particle.fz p)%float in
  let p := Particle.set_vx fd_x p in
  let p := Particle.set_vy fd_y p in
  let p := Particle.set_vz fd_z p in
  let p := Particle.set_x (Particle.x p + m_dt self * fd_x)%float p in
  let p := Particle.set_y (Particle.y p + m_dt self * fd_y)%float p in
  let p := Particle.set_z (Particle.z p + m_dt self * fd_z)%float p in
  p.

(** Lines 98-106, given the three samples just drawn. *)
Definition thermal_kick (B sqrt_dt gx gy gz : double) (p : Particle.t) : Particle.t :=
  let fr_x := (B * gx)%float in
  let fr_y := (B * gy)%float in
  let fr_z := (B * gz)%float in
  let p := Particle.set_vx (Particle.vx p + fr_x)%float p in
  let p := Particle.set_vy (Particle.vy p + fr_y)%float p in
  let p := Particle.set_vz (Particle.vz p + fr_z)%float p in
  let p := Particle.set_x (Particle.x p + sqrt_dt * fr_x)%float p in
  let p := Particle.set_y (Particle.y p + sqrt_dt * fr_y)%float p in
  let p := Particle.set_z (Particle.z p + sqrt_dt * fr_z)%float p in
  p.

(** Lines 96-107. *)
Definition stochastic_kick (T B sqrt_dt : double) (pi : Z) : M World unit :=
  if (0 <? T)%float then
    let* gx := gauss_rng 1%float in
    let* gy := gauss_rng 1%float in
    let* gz := gauss_rng 1%float in
    update_particle pi (thermal_kick B sqrt_dt gx gy gz)
  else ret tt.

(** Lines 108-120. *)
Definition orientation_update (pi : Z) : M World unit :=
  let* c := constrainer in
  update_particle pi (enforce c) ;; call (Call_enforce pi) ;;
  let* p := get_particle pi in
  call (Call_project_torque pi) ;;
  update_particle pi (Particle.set_omega (m_mur self * project_torque c p)%float) ;;
  let* p := get_particle pi in
  let* g := gauss_rng 1%float in
  let dtheta := (m_dt self * Particle.omega p + m_stoch_coeff self * g)%float in
  update_particle pi (fun p => rotate_director c p dtheta) ;;
  call (Call_rotate_director pi dtheta) ;;
  (if m_velocity self
   then update_particle pi (fun p => rotate_velocity c p dtheta) ;;
        call (Call_rotate_velocity pi dtheta)
   else ret tt) ;;
  update_particle pi (fun p => Particle.set_age (Particle.age p + m_dt self)%float p).

(** One iteration of the main loop. *)
Definition integrate_particle (T B sqrt_dt : double) (pi : Z) : M World unit :=
  let* _ := get_particle pi in
  update_particle pi drift_update ;;
  stochastic_kick T B sqrt_dt pi ;;
  orientation_update pi.

(** *** The loops of [integrate] *)

(** [for (int i = first; i < last; i++) body(i);] *)
Definition for_range (first last : Z) (body : Z -> M World unit) : M World unit :=
  for_each (seqZ first (last - first)) body.

(** Lines 57-70. *)
Definition flip_directors (N : Z) (particles : list Z) : M World unit :=
  if m_nematic self then
    for_range 0 N (fun i =>
      let* pi := particle_index particles i in
      attempt_flip pi)
  else ret tt.

(** Lines 79-121. *)
Definition integrate_particles (N : Z) (T B sqrt_dt : double) (particles : list Z)
  : M World unit :=
  for_range 0 N (fun i =>
    let* pi := particle_index particles i in
    integrate_particle T B sqrt_dt pi).

(** *** The periodic update (lines 122-289) *)

(** The constants of lines 127-141.  The index arithmetic mixes [int] and
    [double] and converts back with [int(...)]. *)
Definition length_period : double := 30.
Definition bpacking : double := 2.
Definition x_lenghth : double := 100.
Definition internal_index_start : Z := 0.
Definition internal_index_end : Z := 2904 `quot` 3 - 1.
Definition up_internal_index_start : Z := internal_index_end + 1.
Definition up_internal_index_end : Z :=
  up_internal_index_start + (internal_index_end - internal_index_start).
Definition down_internal_index_start : Z := up_internal_index_end + 1.
Definition down_internal_index_end : Z :=
  down_internal_index_start + (internal_index_end - internal_index_start).
Definition boundary_periodic_update_region : Z := 30.

Definition right_boundary_start_init : Z :=
  int_of_double (double_of_int internal_index_end + length_period * bpacking).
Definition right_boundary_end_init : Z :=
  int_of_double (double_of_int internal_index_end + 2 * length_period * bpacking).
Definition left_boundary_start_init : Z :=
  int_of_double (double_of_int internal_index_end + 4 * length_period * bpacking
                 + 2 * x_lenghth * bpacking).
Definition left_boundary_end_init : Z :=
  int_of_double (double_of_int internal_index_end + 5 * length_period * bpacking
                 + 2 * x_lenghth * bpacking).

(** The four search loops of lines 144-192:
    [for (i = first; ...; i++) { p = particle(particles[i]); if (hit(p.y)) { b = i; break; } }]
    run for [n] indices from [first]; the result is the new value of the
    boundary variable [b]. *)
Fixpoint find_boundary (particles : list Z) (hit : double -> bool)
    (first : Z) (n : nat) (b : Z) : M World Z :=
  match n with
  | O => ret b
  | S n' =>
      let* pi := particle_index particles first in
      let* p := get_particle pi in
      if hit (Particle.y p) then ret first
      else find_boundary particles hit (first + 1) n' b
  end.

(** [for (i = b - region; i < b + region; i++) ...] for a boundary variable
    starting at [b]. *)
Definition search_boundary (particles : list Z) (hit : double -> bool) (b : Z)
  : M World Z :=
  find_boundary particles hit (b - boundary_periodic_update_region)
    (Z.to_nat ((b + boundary_periodic_update_region)
               - (b - boundary_periodic_update_region))) b.

(** Lines 166-167 and 193-194: two references into the store,
    [particle(particles[ia])] first and [particle(particles[ib])] second. *)
Definition read_pair (particles : list Z) (ia ib : Z) : M World (Particle.t * Particle.t) :=
  let* pia := particle_index particles ia in
  let* pa := get_particle pia in
  let* pib := particle_index particles ib in
  let* pb := get_particle pib in
  ret (pa, pb).

(** The test of lines 168 and 195: [abs(ya - yb) < 0.001]. *)
Definition level (ya yb : double) : bool := (abs (ya - yb) <? 0.001)%float.

(** [p.x = p0.x; p.y = p0.y +/- length_period; p.z = p0.z;] *)
Definition copy_position (p0 : Particle.t) (shift : double -> double) (p : Particle.t)
  : Particle.t :=
  Particle.set_z (Particle.z p0)
    (Particle.set_y (shift (Particle.y p0))
       (Particle.set_x (Particle.x p0) p)).

(** The body shared by the copy loops of lines 210-286:
    [p0 = particle(particles[src]); p = particle(particles[i]);] and the three
    assignments. *)
Definition copy_shifted (particles : list Z) (src : Z) (shift : double -> double)
    (i : Z) : M World unit :=
  let* pi0 := particle_index particles src in
  let* p0 := get_particle pi0 in
  let* pi := particle_index particles i in
  let* _ := get_particle pi in
  update_particle pi (copy_position p0 shift).

Definition shift_up (y : double) : double := (y + length_period)%float.
Definition shift_down (y : double) : double := (y - length_period)%float.

(** Lines 123-124. *)
Definition periodic_update_flag : bool := true.
Definition update_boundary : bool := false.

(** Lines 125-288. *)
Definition periodic_update (particles : list Z) : M World unit :=
  if periodic_update_flag then
    let* right_boundary_start :=
      search_boundary particles (fun y => y <=? length_period / 2)%float
        right_boundary_start_init in
    let* right_boundary_end :=
      search_boundary particles (fun y => y <=? - length_period / 2)%float
        right_boundary_end_init in
    let* p12 := read_pair particles right_boundary_start right_boundary_end in
    let right_boundary_end :=
      if level (Particle.y (fst p12)) (Particle.y (snd p12))
      then right_boundary_end - 1 else right_boundary_end in
    let* left_boundary_start :=
      search_boundary particles (fun y => - length_period / 2 <=? y)%float
        left_boundary_start_init in
    let* left_boundary_end :=
      search_boundary particles (fun y => length_period / 2 <=? y)%float
        left_boundary_end_init in
    let* p34 := read_pair particles left_boundary_start left_boundary_end in
    let left_boundary_end :=
      if level (Particle.y (snd p34)) (Particle.y (fst p34))
      then left_boundary_end - 1 else left_boundary_end in
    let right_up_boundary_end := right_boundary_start + 1 in
    let right_up_boundary_start :=
      right_up_boundary_end - boundary_periodic_update_region + 1 in
    let right_down_boundary_start := right_boundary_end + 1 in
    let right_down_boundary_end :=
      right_down_boundary_start + boundary_periodic_update_region - 1 in
    let left_up_boundary_start := left_boundary_end + 1 in
    let left_up_boundary_end :=
      left_up_boundary_start + boundary_periodic_update_region - 1 in
    let left_down_boundary_end := left_boundary_start - 1 in
    let left_down_boundary_start :=
      left_down_boundary_end - boundary_periodic_update_region + 1 in
    for_range up_internal_index_start (up_internal_index_end + 1) (fun i =>
      copy_shifted particles (i - (up_internal_index_start - internal_index_start))
        shift_up i) ;;
    for_range down_internal_index_start (down_internal_index_end + 1) (fun i =>
      copy_shifted particles (i - (down_internal_index_start - internal_index_start))
        shift_down i) ;;
    if update_boundary then
      for_range right_up_boundary_start (right_up_boundary_end + 1) (fun i =>
        copy_shifted particles (i + (right_boundary_end - right_boundary_start + 1))
          shift_up i) ;;
      for_range right_down_boundary_start (right_down_boundary_end + 1) (fun i =>
        copy_shifted particles (i - (right_boundary_end - right_boundary_start + 1))
          shift_down i) ;;
      for_range left_up_boundary_start (left_up_boundary_end + 1) (fun i =>
        copy_shifted particles (i - (left_boundary_end - left_boundary_start + 1))
          shift_up i) ;;
      for_range left_down_boundary_start (left_down_boundary_end + 1) (fun i =>
        copy_shifted particles (i + (left_boundary_end - left_boundary_start + 1))
          shift_down i)
    else ret tt
  else ret tt.

(** *** [integrate] *)

(** Lines 44-54 and 72-77, up to the main loop: the forces and torques are
    reset, the directors are flipped in nematic mode, and the potential and
    the alignment are evaluated. *)
Definition prepare (N : Z) (particles : list Z) : M World unit :=
  reset_forces ;;
  reset_torques ;;
  flip_directors N particles ;;
  compute_forces ;;
  compute_torques.

(** Everything before the periodic update (lines 44-121).  [particles] is
    the copy of the group's particle list taken at line 50, [N] the group's
    [get_size()], the length of that list. *)
Definition integrate_core : M World unit :=
  let* particles := read sys_group in
  let* step := read sys_run_step in
  let N := Z.of_nat (length particles) in
  let T := m_temp self step in
  let B := sqrt (2 * m_mu self * T)%float in
  let sqrt_dt := sqrt (m_dt self) in
  prepare N particles ;;
  integrate_particles N T B sqrt_dt particles.

(** The whole of [integrate]: the periodic update works on the same copy
    [particles], and the mesh is notified last (line 291). *)
Definition integrate : M World unit :=
  let* particles := read sys_group in
  integrate_core ;;
  periodic_update particles ;;
  call Call_update_mesh.

End Integrator.

(** *** Notions used to state the results *)

(** The particle at position [i] of a group: [get_particle(particles[i])]
    read off a store. *)
Definition group_particle (ps : list Particle.t) (particles : list Z) (i : Z)
  : option Particle.t :=
  pi ← lookupZ particles i; lookupZ ps pi.

(** Every entry of the group is a valid index into the store. *)
Definition group_valid (particles : list Z) (ps : list Particle.t) : Prop :=
  forall pi, pi ∈ particles -> is_Some (lookupZ ps pi).

(** [w'] is [w] after the calls [cs], whatever became of the store and of
    the generator. *)
Definition advances {Rng : Type} (w w' : @World Rng) (cs : list Call) : Prop :=
  exists ps g, w' = evolve w ps g cs.

(** A world that differs from another in the contents of the store only. *)
Definition store_only {Rng : Type} (w w' : @World Rng) : Prop :=
  sys_group w' = sys_group w /\ sys_run_step w' = sys_run_step w /\
  rng_state w' = rng_state w /\ calls w' = calls w /\
  length (sys_particles w') = length (sys_particles w).

(** The world [w] with the calls [h] recorded before its own. *)
Definition with_history {Rng : Type} (h : list Call) (w : @World Rng) : @World Rng :=
  {| sys_particles := sys_particles w; sys_group := sys_group w;
     sys_run_step := sys_run_step w; rng_state := rng_state w; calls := h ++ calls w |}.

(** An action whose outcome does not depend on what was recorded before it
    started. *)
Definition history_blind {Rng A : Type} (m : M (@World Rng) A) : Prop :=
  forall h w, m (with_history h w)
              = match m w with
                | Ret a w' => Ret a (with_history h w')
                | Fail f w' => Fail f (with_history h w')
                end.

(** An action that, when it returns, has changed the contents of the store
    at most, and that can only fail on an index out of range. *)
Definition patching {Rng A : Type} (m : M (@World Rng) A) : Prop :=
  forall w, match m w with
            | Ret _ w' => store_only w w'
            | Fail f _ => f = IndexOutOfRange
            end.

(** ** The soft pair potential *)

(** [struct SoftParameters] *)
Module SoftParameters.

Record t : Type := mk { k : double; a : double }.

Definition set_k (v : double) (p : t) : t := mk v (a p).

End SoftParameters.

(** The levels of [Messenger] used here. *)
Inductive Level : Type := INFO | WARNING | ERROR.

(** The members of [PairSoftPotential] (and of its base [PairPotential])
    that [set_pair_parameters] reads or writes.  [m_pair_params] is the
    [ntypes] by [ntypes] table allocated by the constructor; [m_msg] is what
    has been handed to the messenger so far. *)
Record PairSoftPotential : Type := {
  m_k : double;
  m_a : double;
  m_pair_params : list (list SoftParameters.t);
  m_has_pair_params : bool;
  m_msg : list (Level * string)
}.

Definition set_pair_params (tbl : list (list SoftParameters.t)) (s : PairSoftPotential)
  : PairSoftPotential :=
  {| m_k := m_k s; m_a := m_a s; m_pair_params := tbl;
     m_has_pair_params := m_has_pair_params s; m_msg := m_msg s |}.
Definition set_has_pair_params (b : bool) (s : PairSoftPotential) : PairSoftPotential :=
  {| m_k := m_k s; m_a := m_a s; m_pair_params := m_pair_params s;
     m_has_pair_params := b; m_msg := m_msg s |}.
Definition add_msg (l : Level) (text : string) (s : PairSoftPotential) : PairSoftPotential :=
  {| m_k := m_k s; m_a := m_a s; m_pair_params := m_pair_params s;
     m_has_pair_params := m_has_pair_params s; m_msg := m_msg s ++ [(l, text)] |}.

(** [tbl[i][j]] *)
Definition pair_entry (tbl : list (list SoftParameters.t)) (i j : Z)
  : option SoftParameters.t :=
  row ← lookupZ tbl i; lookupZ row j.

(** [boost::lexical_cast] at the four types it is used at.  The two parsing
    directions fail with [bad_lexical_cast] on text they do not accept. *)
Record LexicalCast : Type := {
  lexical_cast_int : string -> option Z;
  lexical_cast_double : string -> option double;
  lexical_cast_string_of_int : Z -> string;
  lexical_cast_string_of_double : double -> string
}.

(** The part of the object that the messenger does not own. *)
Definition same_parameters (s s' : PairSoftPotential) : Prop :=
  m_k s' = m_k s /\ m_a s' = m_a s /\ m_pair_params s' = m_pair_params s /\
  m_has_pair_params s' = m_has_pair_params s.

Section SetPairParameters.

Variable lc : LexicalCast.

Definition cast_int (text : string) : M PairSoftPotential Z :=
  match lexical_cast_int lc text with
  | Some v => ret v
  | None => raise BadLexicalCast
  end.

Definition cast_double (text : string) : M PairSoftPotential double :=
  match lexical_cast_double lc text with
  | Some v => ret v
  | None => raise BadLexicalCast
  end.

(** [m_msg->msg(level, text)] *)
Definition msg (l : Level) (text : string) : M PairSoftPotential unit :=
  modify (add_msg l text).

(** [m_pair_params[i][j].k = v;] *)
Definition write_k (i j : Z) (v : double) : M PairSoftPotential unit :=
  fun s => match pair_entry (m_pair_params s) i j with
           | Some _ =>
               Ret tt (set_pair_params
                         (alter (alter (SoftParameters.set_k v) (Z.to_nat j)) (Z.to_nat i)
                            (m_pair_params s)) s)
           | None => Fail IndexOutOfRange s
           end.

Definition types_text (type_1 type_2 : Z) : string :=
  " for particle pair of types (" +:+ lexical_cast_string_of_int lc type_1 +:+ " and "
  +:+ lexical_cast_string_of_int lc type_2 +:+ ").".

(** Lines 120-129: the value of the local [param["k"]]. *)
Definition read_strength (pair_param : gmap string string) (type_1 type_2 : Z)
  : M PairSoftPotential double :=
  match pair_param !! "k" with
  | Some text_k =>
      msg INFO ("Soft pair potential. Setting strength to " +:+ text_k
                +:+ types_text type_1 type_2) ;;
      cast_double text_k
  | None =>
      let* s := get in
      msg INFO ("Soft pair potential. Using default strength ("
                +:+ lexical_cast_string_of_double lc (m_k s) +:+ ")"
                +:+ types_text type_1 type_2) ;;
      ret (m_k s)
  end.

(** Lines 130-139: the value of the local [param["a"]]. *)
Definition read_range (pair_param : gmap string string) (type_1 type_2 : Z)
  : M PairSoftPotential double :=
  match pair_param !! "a" with
  | Some text_a =>
      msg INFO ("Soft pair potential. Setting range to " +:+ text_a
                +:+ types_text type_1 type_2) ;;
      cast_double text_a
  | None =>
      let* s := get in
      msg INFO ("Soft pair potential. Using default range ("
                +:+ lexical_cast_string_of_double lc (m_a s) +:+ ")"
                +:+ types_text type_1 type_2) ;;
      ret (m_a s)
  end.

(** Lines 142-149. *)
Definition store_pair (type_1 type_2 : Z) (param_k param_a : double)
  : M PairSoftPotential unit :=
  write_k (type_1 - 1) (type_2 - 1) param_k ;;
  (if decide (type_1 ≠ type_2) then write_k (type_2 - 1) (type_1 - 1) param_k
   else ret tt) ;;
  write_k (type_1 - 1) (type_2 - 1) param_a ;;
  (if decide (type_1 ≠ type_2) then write_k (type_2 - 1) (type_1 - 1) param_a
   else ret tt) ;;
  modify (set_has_pair_params true).

(** [void set_pair_parameters(pairs_type& pair_param)] (lines 102-150);
    [pairs_type] is [std::map<string,string>]. *)
Definition set_pair_parameters (pair_param : gmap string string)
  : M PairSoftPotential unit :=
  match pair_param !! "type_1" with
  | None =>
      msg ERROR "type_1 has not been defined for pair potential parameters in soft potential." ;;
      raise (RuntimeError "Missing key for pair potential parameters.")
  | Some text_1 =>
  match pair_param !! "type_2" with
  | None =>
      msg ERROR "type_2 has not been defined for pair potential parameters in soft potential." ;;
      raise (RuntimeError "Missing key for pair potential parameters.")
  | Some text_2 =>
      let* type_1 := cast_int text_1 in
      let* type_2 := cast_int text_2 in
      let* param_k := read_strength pair_param type_1 type_2 in
      let* param_a := read_range pair_param type_1 type_2 in
      store_pair type_1 type_2 param_k param_a
  end
  end.

(** The range that a request asks for: the text under ["a"] when there is
    one, the default [m_a] otherwise. *)
Definition requested_range (pair_param : gmap string string) (s : PairSoftPotential)
  : option double :=
  match pair_param !! "a" with
  | Some text_a => lexical_cast_double lc text_a
  | None => Some (m_a s)
  end.

(** The two types a request names, when both keys are there and parse. *)
Definition requested_types (pair_param : gmap string string) : option (Z * Z) :=
  text_1 ← pair_param !! "type_1";
  text_2 ← pair_param !! "type_2";
  type_1 ← lexical_cast_int lc text_1;
  type_2 ← lexical_cast_int lc text_2;
  Some (type_1, type_2).

End SetPairParameters.

(** *** The constructor (lines 57-92) *)

(** A table of [n] rows of [n] entries each. *)
Definition square (n : nat) (tbl : list (list SoftParameters.t)) : Prop :=
  length tbl = n /\ Forall (fun row => length row = n) tbl.

(** The [k] fields of a table read the same across the diagonal. *)
Definition mirrored (tbl : list (list SoftParameters.t)) : Prop :=
  forall i j, SoftParameters.k <$> pair_entry tbl i j
              = SoftParameters.k <$> pair_entry tbl j i.

(** The strength that a request asks for: the text under ["k"] when there is
    one, the default [m_k] otherwise. *)
Definition requested_strength (lc : LexicalCast) (pair_param : gmap string string)
    (s : PairSoftPotential) : option double :=
  match pair_param !! "k" with
  | Some text_k => lexical_cast_double lc text_k
  | None => Some (m_k s)
  end.

Section Constructor.

Variable lc : LexicalCast.

(** What the memory handed out by [new SoftParameters[ntypes]] holds in the
    field [a] of entry [i][j], which the constructor does not assign. *)
Variable unassigned : nat -> nat -> double.

(** [m_msg->msg(level, text)], before the object exists. *)
Definition log (l : Level) (text : string) : M (list (Level * string)) unit :=
  modify (fun msgs => msgs ++ [(l, text)]).

Definition cast_double_log (text : string) : M (list (Level * string)) double :=
  match lexical_cast_double lc text with
  | Some v => ret v
  | None => raise BadLexicalCast
  end.

(** Lines 85-91: [ntypes] rows of [ntypes] entries, each with [k = m_k]. *)
Definition allocate (ntypes : nat) (k : double) : list (list SoftParameters.t) :=
  (fun i => (fun j => SoftParameters.mk k (unassigned i j)) <$> seq 0 ntypes)
  <$> seq 0 ntypes.

(** The constructor, from [ntypes = m_system->get_ntypes()], the parameters
    [param], and the two flags as the constructor of the base class
    [PairPotential] left them.  It acts on the messenger and yields the
    object together with [m_use_particle_radii].  The number of types is
    taken as a natural number: nothing is said of a negative [int] there,
    for which [new] has no array to hand out. *)
Definition construct (ntypes : nat) (param : gmap string string)
    (base_has_pair_params base_use_particle_radii : bool)
  : M (list (Level * string)) (PairSoftPotential * bool) :=
  let* k :=
    match param !! "k" with
    | None =>
        log WARNING
          "No potential strength (k) specified for soft pair potential. Setting it to 1." ;;
        ret 1%float
    | Some text_k =>
        log INFO ("Global potential strength (k) for soft pair potential is set to "
                  +:+ text_k +:+ ".") ;;
        cast_double_log text_k
    end in
  let* a :=
    match param !! "a" with
    | None =>
        log WARNING
          "No potential range (a) specified for soft pair potential. Setting it to 2." ;;
        ret 2%float
    | Some text_a =>
        log INFO ("Global potential range (a) for soft pair potential is set to "
                  +:+ text_a +:+ ".") ;;
        cast_double_log text_a
    end in
  let* use_particle_radii :=
    match param !! "use_particle_radii" with
    | Some _ =>
        log WARNING
          "Soft pair potential is set to use particle radii to control its range. Parameter a will be ignored." ;;
        ret true
    | None => ret base_use_particle_radii
    end in
  let* msgs := get in
  ret ({| m_k := k; m_a := a; m_pair_params := allocate ntypes k;
          m_has_pair_params := base_has_pair_params; m_msg := msgs |},
       use_particle_radii).

(** [bool need_nlist()] (line 153). *)
Definition need_nlist : bool := true.

End Constructor.

(** *** Notions used to state the results on the table *)

(** The entries that the four assignments of lines 142-147 go to. *)
Definition targeted (type_1 type_2 i j : Z) : Prop :=
  (i = type_1 - 1 /\ j = type_2 - 1) \/ (i = type_2 - 1 /\ j = type_1 - 1).

#[local] Instance targeted_dec type_1 type_2 i j : Decision (targeted type_1 type_2 i j).
Proof. unfold targeted. apply _. Defined.

(** The state after the messages of a call: the object with more text in
    the messenger. *)
Definition more_messages (s s' : PairSoftPotential) : Prop :=
  same_parameters s s' /\ exists msgs, m_msg s' = m_msg s ++ msgs.

(** The value taken for a parameter of the constructor: what the text under
    its key reads as, or the default when the key is not there. *)
Definition given_or (lc : LexicalCast) (default : double) (text : option string)
  : option double :=
  match text with
  | Some t => lexical_cast_double lc t
  | None => Some default
  end.

(** What a sequence of calls keeps of the object. *)
Definition settled (n : nat) (unassigned : nat -> nat -> double) (k a : double)
    (s : PairSoftPotential) : Prop :=
  square n (m_pair_params s) /\ mirrored (m_pair_params s) /\
  (forall i j e, pair_entry (m_pair_params s) i j = Some e ->
                 SoftParameters.a e = unassigned (Z.to_nat i) (Z.to_nat j)) /\
  m_k s = k /\ m_a s = a.

(** ** The mesh (mesh.hpp) *)

(** The value that [int] arithmetic leaves on a 32-bit two's complement
    machine. *)
Definition wrap_int (z : Z) : Z := (z + 2 ^ 31) `mod` 2 ^ 32 - 2 ^ 31.

(** What [Mesh] reads of a [Particle]: [get_id()], [get_type()] and the
    position. *)
Record MeshParticle : Type := {
  get_id : Z;
  get_type : Z;
  at_particle : Particle.t
}.

(** [Vertex] is declared in a header that is not among the sources.  What
    [Mesh] uses of it are its two constructors and the assignments to its
    members [r] and [type]. *)
Record VertexClass (Vertex : Type) : Type := {
  Vertex_of_coordinates : Z -> double -> double -> double -> Vertex;
  Vertex_of_particle : MeshParticle -> Vertex;
  assign_r : double * double * double -> Vertex -> Vertex;
  assign_type : Z -> Vertex -> Vertex
}.
Arguments Vertex_of_coordinates {Vertex} _ _ _ _ _.
Arguments Vertex_of_particle {Vertex} _ _.
Arguments assign_r {Vertex} _ _ _.
Arguments assign_type {Vertex} _ _ _.

Module Mesh.

Section Mesh.

Context {Vertex Edge Face : Type}.
Variable vertex_class : VertexClass Vertex.

(** The members of [Mesh]. *)
Record t : Type := {
  m_size : Z;
  m_nedge : Z;
  m_nface : Z;
  m_vertices : list Vertex;
  m_edges : list Edge;
  m_faces : list Face;
  m_edge_map : gmap (Z * Z) Z;
  m_edge_face : gmap (Z * Z) Z
}.

(** [Mesh() : m_size(0), m_nedge(0), m_nface(0) { }] *)
Definition Mesh : t :=
  {| m_size := 0; m_nedge := 0; m_nface := 0; m_vertices := []; m_edges := [];
     m_faces := []; m_edge_map := ∅; m_edge_face := ∅ |}.

(** [int size() { return m_size; }] and the other getters. *)
Definition size : M t Z := fun m => Ret (m_size m) m.
Definition nedges : M t Z := fun m => Ret (m_nedge m) m.
Definition nfaces : M t Z := fun m => Ret (m_nface m) m.
Definition get_vertices : M t (list Vertex) := fun m => Ret (m_vertices m) m.
Definition get_edges : M t (list Edge) := fun m => Ret (m_edges m) m.
Definition get_faces : M t (list Face) := fun m => Ret (m_faces m) m.
Definition get_edge_face : M t (gmap (Z * Z) Z) := fun m => Ret (m_edge_face m) m.

(** [m_vertices.push_back(v); m_size++;] *)
Definition push_vertex (v : Vertex) (m : t) : t :=
  {| m_size := wrap_int (m_size m + 1); m_nedge := m_nedge m; m_nface := m_nface m;
     m_vertices := m_vertices m ++ [v]; m_edges := m_edges m; m_faces := m_faces m;
     m_edge_map := m_edge_map m; m_edge_face := m_edge_face m |}.

Definition set_vertices (vs : list Vertex) (m : t) : t :=
  {| m_size := m_size m; m_nedge := m_nedge m; m_nface := m_nface m;
     m_vertices := vs; m_edges := m_edges m; m_faces := m_faces m;
     m_edge_map := m_edge_map m; m_edge_face := m_edge_face m |}.

(** [void add_vertex(int vid, double x, double y, double z)] (lines 114-118). *)
Definition add_vertex (vid : Z) (x y z : double) : M t unit :=
  modify (push_vertex (Vertex_of_coordinates vertex_class vid x y z)).

(** [void add_vertex(Particle& p)] (lines 122-126). *)
Definition add_vertex_particle (p : MeshParticle) : M t unit :=
  modify (push_vertex (Vertex_of_particle vertex_class p)).

(** [m_vertices[i].member = ...;] with the unchecked [operator[]]. *)
Definition assign_vertex (i : Z) (f : Vertex -> Vertex) : M t unit :=
  fun m => match lookupZ (m_vertices m) i with
           | Some _ => Ret tt (set_vertices (alterZ f i (m_vertices m)) m)
           | None => Fail IndexOutOfRange m
           end.

(** [void update(Particle& p)] (lines 136-140). *)
Definition update (p : MeshParticle) : M t unit :=
  assign_vertex (get_id p)
    (assign_r vertex_class (Particle.x (at_particle p), Particle.y (at_particle p),
                            Particle.z (at_particle p))) ;;
  assign_vertex (get_id p) (assign_type vertex_class (get_type p)).

(** A call of one of the three members that change the mesh. *)
Inductive Operation : Type :=
| Add_vertex (vid : Z) (x y z : double)
| Add_vertex_particle (p : MeshParticle)
| Update (p : MeshParticle).

Definition perform (o : Operation) : M t unit :=
  match o with
  | Add_vertex vid x y z => add_vertex vid x y z
  | Add_vertex_particle p => add_vertex_particle p
  | Update p => update p
  end.

Definition adds (o : Operation) : bool :=
  match o with
  | Add_vertex _ _ _ _ | Add_vertex_particle _ => true
  | Update _ => false
  end.

End Mesh.

End Mesh.

(** * Instances used by the examples *)

(** A [lexical_cast] for the examples: decimal integers, with an optional
    sign; the same texts, read as integral values, for [double]. *)
Definition digit_value (c : ascii) : option Z :=
  let n := Z.of_N (Ascii.N_of_ascii c) in
  if (48 <=? n) && (n <=? 57) then Some (n - 48) else None.

Fixpoint decimal_digits (text : string) (acc : Z) : option Z :=
  match text with
  | EmptyString => Some acc
  | String c rest => d ← digit_value c; decimal_digits rest (10 * acc + d)
  end.

Definition decimal_int (text : string) : option Z :=
  match text with
  | EmptyString => None
  | String "-"%char (String c rest) => Z.opp <$> decimal_digits (String c rest) 0
  | _ => decimal_digits text 0
  end.

Definition decimal_double (text : string) : option double :=
  double_of_int <$> decimal_int text.

Definition decimal : LexicalCast :=
  {| lexical_cast_int := decimal_int;
     lexical_cast_double := decimal_double;
     lexical_cast_string_of_int := pretty;
     lexical_cast_string_of_double := fun d => pretty (int_of_double d) |}.

(** A potential for two particle types, as the constructor leaves it with
    [k = 1] and [a = 2], the never-assigned [a] fields holding [7]. *)
Definition two_types : PairSoftPotential :=
  {| m_k := 1; m_a := 2;
     m_pair_params := replicate 2 (replicate 2 (SoftParameters.mk 1 7));
     m_has_pair_params := false;
     m_msg := [] |}.

Definition request_1_2 : gmap string string :=
  {[ "type_1" := "1"; "type_2" := "2"; "k" := "5"; "a" := "3" ]}.

Definition request_no_type_2 : gmap string string :=
  {[ "type_1" := "1"; "k" := "5" ]}.

(** A generator that replays a recorded tape of samples, and yields zero
    once the tape has run out. *)
Definition tape_next (tape : list double) : double * list double :=
  match tape with
  | [] => (0%float, [])
  | g :: tape' => (g, tape')
  end.

(** Polynomial stand-ins for [cos] and [sin], exact at zero. *)
Definition cos_series (phi : double) : double :=
  let q := (phi * phi)%float in
  (1 - q / 2 + q * q / 24 - q * q * q / 720)%float.
Definition sin_series (phi : double) : double :=
  let q := (phi * phi)%float in
  (phi - phi * q / 6 + phi * q * q / 120 - phi * q * q * q / 5040)%float.

(** The plane [z = const]: positions are left where they are, the torque is
    taken about the [z] axis, and vectors are turned about it (the director
    is normalised afterwards). *)
Definition flat_plane : Constrainer :=
  {| enforce := fun p => p;
     project_torque := Particle.tau_z;
     rotate_director := fun p phi =>
       let c := cos_series phi in
       let s := sin_series phi in
       let nx := (c * Particle.nx p - s * Particle.ny p)%float in
       let ny := (s * Particle.nx p + c * Particle.ny p)%float in
       let len := sqrt (nx * nx + ny * ny)%float in
       Particle.set_ny (ny / len)%float (Particle.set_nx (nx / len)%float p);
     rotate_velocity := fun p phi =>
       let c := cos_series phi in
       let s := sin_series phi in
       let vx := (c * Particle.vx p - s * Particle.vy p)%float in
       let vy := (s * Particle.vx p + c * Particle.vy p)%float in
       Particle.set_vy vy (Particle.set_vx vx p) |}.

(** A particle at [(x, y, z)] with director [(1, 0, 0)] and everything else
    zero. *)
Definition resting (x y z : double) : Particle.t :=
  Particle.mk x y z 1 0 0 0 0 0 0 0 0 0 0 0 0 0.

(** An integrator with [v0 = 1], [mu = 0], [dt = 0.1], no rotational noise,
    no potential and no alignment, at the constant temperature [T]. *)
Definition brownian (T : double) (nematic velocity : bool) (c : option Constrainer)
  : @Integrator (list double) :=
  {| m_dt := 0.1; m_mu := 0; m_mur := 1; m_v0 := 1; m_tau := 0.5; m_stoch_coeff := 0;
     m_nematic := nematic; m_velocity := velocity;
     m_temp := fun _ => T;
     m_potential := None; m_align := None; m_constrainer := c;
     m_rng_drnd := tape_next; m_rng_gauss_rng := fun _ => tape_next |}.

(** The same with mobility, rotational noise and velocity tracking. *)
Definition thermal (T : double) : @Integrator (list double) :=
  {| m_dt := 0.1; m_mu := 1; m_mur := 1; m_v0 := 1; m_tau := 0.5; m_stoch_coeff := 1;
     m_nematic := true; m_velocity := true;
     m_temp := fun _ => T;
     m_potential := None; m_align := None; m_constrainer := Some flat_plane;
     m_rng_drnd := tape_next; m_rng_gauss_rng := fun _ => tape_next |}.

(** One particle at the origin, in a group of its own. *)
Definition single : @World (list double) :=
  {| sys_particles := [resting 0 0 0]; sys_group := [0]; sys_run_step := 0;
     rng_state := [0.25; 0.5; 0.75; 1]%float; calls := [] |}.

(** 2904 particles in a row along [x], all in the group, in store order. *)
Definition row : @World (list double) :=
  {| sys_particles := (fun i => resting (double_of_int i) 0 0) <$> seqZ 0 2904;
     sys_group := seqZ 0 2904; sys_run_step := 0;
     rng_state := [0.25; 0.5; 0.75; 1]%float; calls := [] |}.

(** Two particles, of which the first alone is in the group. *)
Definition one_of_two : @World (list double) :=
  {| sys_particles := [resting 0 0 0; resting 5 5 5]; sys_group := [0]; sys_run_step := 0;
     rng_state := [0.25; 0.5; 0.75; 1]%float; calls := [] |}.


(** The request of types 1 and 2 with range 3 and another strength. *)
Definition request_1_2_strength_9 : gmap string string :=
  {[ "type_1" := "1"; "type_2" := "2"; "k" := "9"; "a" := "3" ]}.

(** Parameters for the constructor: a strength, no range, particle radii. *)
Definition parameters_strength_4 : gmap string string :=
  {[ "k" := "4"; "use_particle_radii" := "true" ]}.

(** Memory that holds [7] everywhere. *)
Definition sevens : nat -> nat -> double := fun _ _ => 7%float.

(** Vertices for the examples: an id, a position and a type, which the
    constructor from coordinates sets to [1]. *)
Record PlainVertex : Type := {
  vertex_id : Z;
  vertex_r : double * double * double;
  vertex_type : Z
}.

Definition plain_vertices : VertexClass PlainVertex :=
  {| Vertex_of_coordinates := fun vid x y z =>
       {| vertex_id := vid; vertex_r := (x, y, z); vertex_type := 1 |};
     Vertex_of_particle := fun p =>
       {| vertex_id := get_id p;
          vertex_r := (Particle.x (at_particle p), Particle.y (at_particle p),
                       Particle.z (at_particle p));
          vertex_type := get_type p |};
     assign_r := fun r v =>
       {| vertex_id := vertex_id v; vertex_r := r; vertex_type := vertex_type v |};
     assign_type := fun t v =>
       {| vertex_id := vertex_id v; vertex_r := vertex_r v; vertex_type := t |} |}.

(** Two vertices are added, the second from a particle, and the first is
    then moved to where a particle of id 0 and type 3 is. *)
Definition three_operations : list Mesh.Operation :=
  [Mesh.Add_vertex 0 1 2 3;
   Mesh.Add_vertex_particle {| get_id := 1; get_type := 2; at_particle := resting 4 5 6 |};
   Mesh.Update {| get_id := 0; get_type := 3; at_particle := resting 7 8 9 |}].

(** The state an outcome ends in. *)
Definition state_of {S A : Type} (o : outcome S A) : S :=
  match o with
  | Ret _ s => s
  | Fail _ s => s
  end.

(** *** Notions used to state what an action leaves alone *)

(** Whatever state [m] starts from, the state it ends in, returning or not,
    is related to it by [R]. *)
Definition keeps {St A : Type} (R : St -> St -> Prop) (m : M St A) : Prop :=
  forall s, R s (state_of (m s)).

(** The values that [m] can return. *)
Definition returns {St A : Type} (m : M St A) (a : A) : Prop :=
  exists s s', m s = Ret a s'.

(** Everything of a particle but its position. *)
Definition beside_position (p : Particle.t) :=
  (Particle.director p, Particle.velocity p,
   (Particle.fx p, Particle.fy p, Particle.fz p),
   (Particle.tau_x p, Particle.tau_y p, Particle.tau_z p),
   Particle.omega p, Particle.age p).

(** [w'] differs from [w] in the positions of particles at most. *)
Definition moved_only {Rng : Type} (w w' : @World Rng) : Prop :=
  sys_group w' = sys_group w /\ sys_run_step w' = sys_run_step w /\
  rng_state w' = rng_state w /\ calls w' = calls w /\
  forall pi, beside_position <$> lookupZ (sys_particles w') pi
             = beside_position <$> lookupZ (sys_particles w) pi.

(** The particles whose index is not in [particles] are in [w'] as in [w]. *)
Definition untouched_outside {Rng : Type} (particles : list Z) (w w' : @World Rng) : Prop :=
  forall pi, pi ∉ particles -> lookupZ (sys_particles w') pi = lookupZ (sys_particles w) pi.

(** The mesh has not been notified between [w] and [w']. *)
Definition mesh_unaware {Rng : Type} (w w' : @World Rng) : Prop :=
  exists cs, calls w' = calls w ++ cs /\ Call_update_mesh ∉ cs.

(** The two loops of lines 210-234 on their own. *)
Definition copy_images {Rng : Type} (particles : list Z) : M (@World Rng) unit :=
  for_range up_internal_index_start (up_internal_index_end + 1) (fun i =>
    copy_shifted particles (i - (up_internal_index_start - internal_index_start))
      shift_up i) ;;
  for_range down_internal_index_start (down_internal_index_end + 1) (fun i =>
    copy_shifted particles (i - (down_internal_index_start - internal_index_start))
      shift_down i).

(** The calls of one iteration of the main loop, for the particle [pi] and
    the angle [dtheta] it is turned by: the three draws of the kick when
    there is one, then the constraint, the torque, the draw of the rotational
    noise and the rotations. *)
Definition iteration_calls (kicked velocity : bool) (pi : Z) (dtheta : double) : list Call :=
  (if kicked then replicate 3 (Call_gauss_rng 1%float) else [])
  ++ [Call_enforce pi; Call_project_torque pi; Call_gauss_rng 1%float;
      Call_rotate_director pi dtheta]
  ++ (if velocity then [Call_rotate_velocity pi dtheta] else []).

(** The calls of a whole step at temperature [T] on the group [group], the
    particles being turned by the angles [dthetas]. *)
Definition step_calls {Rng : Type} (self : @Integrator Rng) (T : double) (group : list Z)
    (dthetas : list double) : list Call :=
  [Call_reset_forces; Call_reset_torques]
  ++ (if m_nematic self then replicate (length group) Call_drnd else [])
  ++ (if m_potential self is Some _ then [Call_potential_compute (m_dt self)] else [])
  ++ (if m_align self is Some _ then [Call_align_compute] else [])
  ++ concat (zip_with (iteration_calls (0 <? T)%float (m_velocity self)) group dthetas)
  ++ [Call_update_mesh].

(** The state of the generator after [n] uniform draws from [g], and the
    sample that the next draw yields. *)
Definition after_draws {Rng : Type} (self : @Integrator Rng) (n : nat) (g : Rng) : Rng :=
  Nat.iter n (fun g => snd (m_rng_drnd self g)) g.
Definition nth_draw {Rng : Type} (self : @Integrator Rng) (n : nat) (g : Rng) : double :=
  fst (m_rng_drnd self (after_draws self n g)).

(** An action that leaves the state as it is. *)
Definition reading {St A : Type} (m : M St A) : Prop :=
  forall s, state_of (m s) = s.

(** An action that leaves the store as it is. *)
Definition store_reading {Rng A : Type} (m : M (@World Rng) A) : Prop :=
  forall w, sys_particles (state_of (m w)) = sys_particles w.

(** The state of the generator after [n] Gaussian draws of unit width. *)
Definition after_gauss {Rng : Type} (self : @Integrator Rng) (n : nat) (g : Rng) : Rng :=
  Nat.iter n (fun g => snd (m_rng_gauss_rng self 1%float g)) g.

(** * Properties *)

(** ** The state monad *)

Lemma bind_Ret {S A B : Type} (m : M S A) (k : A -> M S B) s a s' :
  m s = Ret a s' -> bind m k s = k a s'.
Proof. intros H. unfold bind. by rewrite H. Qed.

Lemma bind_Fail {S A B : Type} (m : M S A) (k : A -> M S B) s f s' :
  m s = Fail f s' -> bind m k s = Fail f s'.
Proof. intros H. unfold bind. by rewrite H. Qed.

Lemma bind_Ret_inv {S A B : Type} (m : M S A) (k : A -> M S B) s b s'' :
  bind m k s = Ret b s'' -> exists a s', m s = Ret a s' /\ k a s' = Ret b s''.
Proof. unfold bind. destruct (m s) as [a s'|]; [eauto | discriminate]. Qed.

Lemma bind_Fail_inv {S A B : Type} (m : M S A) (k : A -> M S B) s f s'' :
  bind m k s = Fail f s'' ->
  m s = Fail f s'' \/ exists a s', m s = Ret a s' /\ k a s' = Fail f s''.
Proof. unfold bind. destruct (m s) as [a s'|f' s']; [eauto | left; congruence]. Qed.

(** ** [PairSoftPotential::set_pair_parameters] *)

Lemma lookupZ_Some_nonneg {A : Type} (l : list A) i v : lookupZ l i = Some v -> 0 <= i.
Proof. unfold lookupZ. destruct (Z.ltb_spec i 0); [discriminate | lia]. Qed.

Lemma lookupZ_alter {A : Type} (f : A -> A) (l : list A) i i' :
  0 <= i ->
  lookupZ (alter f (Z.to_nat i) l) i' =
  if decide (i' = i) then f <$> lookupZ l i' else lookupZ l i'.
Proof.
  intros Hi. unfold lookupZ. destruct (Z.ltb_spec i' 0) as [Hneg|Hpos].
  - by destruct (decide (i' = i)).
  - destruct (decide (i' = i)) as [->|Hne].
    + apply list_lookup_alter_eq.
    + apply list_lookup_alter_ne. lia.
Qed.

Lemma pair_entry_Some_nonneg tbl i j v : pair_entry tbl i j = Some v -> 0 <= i /\ 0 <= j.
Proof.
  unfold pair_entry. destruct (lookupZ tbl i) as [row|] eqn:Hrow; simpl; [|discriminate].
  intros Hj. split; eauto using lookupZ_Some_nonneg.
Qed.

Lemma pair_entry_alter (f : SoftParameters.t -> SoftParameters.t) tbl i j i' j' :
  0 <= i -> 0 <= j ->
  pair_entry (alter (alter f (Z.to_nat j)) (Z.to_nat i) tbl) i' j' =
  if decide (i' = i /\ j' = j) then f <$> pair_entry tbl i' j' else pair_entry tbl i' j'.
Proof.
  intros Hi Hj. unfold pair_entry. rewrite lookupZ_alter by done.
  destruct (decide (i' = i)) as [->|Hne].
  - destruct (lookupZ tbl i) as [row|]; simpl.
    + rewrite lookupZ_alter by done.
      destruct (decide (j' = j)) as [->|Hnej].
      * rewrite decide_True by done. done.
      * rewrite decide_False by (intros [_ ?]; done). done.
    + by destruct (decide _).
  - rewrite decide_False by (intros [? _]; done). done.
Qed.

Lemma write_k_Ret i j v s u s' :
  write_k i j v s = Ret u s' ->
  0 <= i /\ 0 <= j /\ is_Some (pair_entry (m_pair_params s) i j) /\
  s' = set_pair_params
         (alter (alter (SoftParameters.set_k v) (Z.to_nat j)) (Z.to_nat i) (m_pair_params s)) s.
Proof.
  unfold write_k. destruct (pair_entry (m_pair_params s) i j) as [e|] eqn:He; [|discriminate].
  intros [= <-]. destruct (pair_entry_Some_nonneg _ _ _ _ He). eauto.
Qed.

Lemma write_k_Fail i j v s f s' :
  write_k i j v s = Fail f s' -> f = IndexOutOfRange.
Proof.
  unfold write_k. destruct (pair_entry (m_pair_params s) i j); [discriminate | congruence].
Qed.

(** What one successful [m_pair_params[i][j].k = v] leaves in the table. *)
Lemma write_k_entry i j v s u s' i' j' :
  write_k i j v s = Ret u s' ->
  pair_entry (m_pair_params s') i' j' =
  if decide (i' = i /\ j' = j)
  then SoftParameters.set_k v <$> pair_entry (m_pair_params s) i' j'
  else pair_entry (m_pair_params s) i' j'.
Proof.
  intros H. apply write_k_Ret in H as (Hi & Hj & _ & ->). simpl.
  by apply pair_entry_alter.
Qed.

Lemma write_k_a i j v s u s' i' j' :
  write_k i j v s = Ret u s' ->
  SoftParameters.a <$> pair_entry (m_pair_params s') i' j' =
  SoftParameters.a <$> pair_entry (m_pair_params s) i' j'.
Proof.
  intros H. rewrite (write_k_entry _ _ _ _ _ _ i' j' H).
  destruct (decide _); [|done]. by destruct (pair_entry (m_pair_params s) i' j').
Qed.

Lemma write_k_k i j v s u s' :
  write_k i j v s = Ret u s' ->
  SoftParameters.k <$> pair_entry (m_pair_params s') i j = Some v.
Proof.
  intros H. rewrite (write_k_entry _ _ _ _ _ _ i j H). rewrite decide_True by done.
  apply write_k_Ret in H as (_ & _ & [e He] & _). by rewrite He.
Qed.

Lemma write_k_other_k i j v s u s' i' j' :
  write_k i j v s = Ret u s' -> ¬ (i' = i /\ j' = j) ->
  pair_entry (m_pair_params s') i' j' = pair_entry (m_pair_params s) i' j'.
Proof.
  intros H Hne. rewrite (write_k_entry _ _ _ _ _ _ i' j' H). by rewrite decide_False.
Qed.

(** A request that names one type only is refused, and all it leaves behind
    is the message. *)
Example set_pair_parameters_without_type_2 :
  set_pair_parameters decimal request_no_type_2 two_types
  = Fail (RuntimeError "Missing key for pair potential parameters.")
      (add_msg ERROR
         "type_2 has not been defined for pair potential parameters in soft potential."
         two_types).
Proof. reflexivity. Qed.

Section SetPairParametersProperties.

Variable lc : LexicalCast.

Lemma same_parameters_refl s : same_parameters s s.
Proof. by repeat split. Qed.

Lemma same_parameters_trans s1 s2 s3 :
  same_parameters s1 s2 -> same_parameters s2 s3 -> same_parameters s1 s3.
Proof. unfold same_parameters. intros (?&?&?&?) (?&?&?&?). repeat split; congruence. Qed.

Lemma msg_run l text s : msg l text s = Ret tt (add_msg l text s).
Proof. reflexivity. Qed.

Lemma same_parameters_add_msg l text s : same_parameters s (add_msg l text s).
Proof. by repeat split. Qed.

Lemma cast_int_run text s :
  cast_int lc text s =
  match lexical_cast_int lc text with Some v => Ret v s | None => Fail BadLexicalCast s end.
Proof. unfold cast_int. by destruct (lexical_cast_int lc text). Qed.

Lemma cast_double_run text s :
  cast_double lc text s =
  match lexical_cast_double lc text with
  | Some v => Ret v s
  | None => Fail BadLexicalCast s
  end.
Proof. unfold cast_double. by destruct (lexical_cast_double lc text). Qed.

Lemma read_range_run pair_param type_1 type_2 s :
  exists s', same_parameters s s' /\
    read_range lc pair_param type_1 type_2 s =
    match requested_range lc pair_param s with
    | Some v => Ret v s'
    | None => Fail BadLexicalCast s'
    end.
Proof.
  unfold read_range, requested_range.
  destruct (pair_param !! "a") as [text_a|].
  - eexists. split; [apply same_parameters_add_msg|].
    unfold bind. rewrite msg_run, cast_double_run. reflexivity.
  - eexists. split; [apply same_parameters_add_msg|]. reflexivity.
Qed.

Lemma read_strength_run pair_param type_1 type_2 s :
  exists s', same_parameters s s' /\
    (read_strength lc pair_param type_1 type_2 s = Fail BadLexicalCast s' \/
     exists v, read_strength lc pair_param type_1 type_2 s = Ret v s').
Proof.
  unfold read_strength.
  destruct (pair_param !! "k") as [text_k|].
  - eexists. split; [apply same_parameters_add_msg|].
    unfold bind. rewrite msg_run, cast_double_run.
    destruct (lexical_cast_double lc text_k); eauto.
  - eexists. split; [apply same_parameters_add_msg|]. right. eexists. reflexivity.
Qed.

Lemma store_pair_Ret type_1 type_2 param_k param_a s u s' :
  store_pair type_1 type_2 param_k param_a s = Ret u s' ->
  SoftParameters.k <$> pair_entry (m_pair_params s') (type_1 - 1) (type_2 - 1)
    = Some param_a /\
  SoftParameters.k <$> pair_entry (m_pair_params s') (type_2 - 1) (type_1 - 1)
    = Some param_a /\
  (forall i j, SoftParameters.a <$> pair_entry (m_pair_params s') i j =
               SoftParameters.a <$> pair_entry (m_pair_params s) i j) /\
  m_has_pair_params s' = true.
Proof.
  unfold store_pair. intros H.
  apply bind_Ret_inv in H as (u1 & s1 & H1 & H).
  apply bind_Ret_inv in H as (u2 & s2 & H2 & H).
  apply bind_Ret_inv in H as (u3 & s3 & H3 & H).
  apply bind_Ret_inv in H as (u4 & s4 & H4 & H).
  unfold modify in H. simplify_eq/=.
  destruct (decide (type_1 ≠ type_2)) as [Hne|Heq].
  - repeat split.
    + rewrite (write_k_other_k _ _ _ _ _ _ _ _ H4) by lia. eauto using write_k_k.
    + eauto using write_k_k.
    + intros i j. rewrite (write_k_a _ _ _ _ _ _ i j H4), (write_k_a _ _ _ _ _ _ i j H3),
        (write_k_a _ _ _ _ _ _ i j H2). eauto using write_k_a.
  - assert (type_1 = type_2) as -> by (destruct (decide (type_1 = type_2)); tauto).
    unfold ret in H2, H4. simplify_eq/=.
    repeat split; eauto using write_k_k.
    intros i j. rewrite (write_k_a _ _ _ _ _ _ i j H3). eauto using write_k_a.
Qed.

Lemma store_pair_Fail type_1 type_2 param_k param_a s f s' :
  store_pair type_1 type_2 param_k param_a s = Fail f s' -> f = IndexOutOfRange.
Proof.
  unfold store_pair. intros H.
  apply bind_Fail_inv in H as [H|(? & ? & _ & H)]; [by eapply write_k_Fail|].
  apply bind_Fail_inv in H as [H|(? & ? & _ & H)].
  { destruct (decide (type_1 ≠ type_2)); [by eapply write_k_Fail | discriminate H]. }
  apply bind_Fail_inv in H as [H|(? & ? & _ & H)]; [by eapply write_k_Fail|].
  apply bind_Fail_inv in H as [H|(? & ? & _ & H)].
  { destruct (decide (type_1 ≠ type_2)); [by eapply write_k_Fail | discriminate H]. }
  discriminate H.
Qed.

(** C9. Whenever [set_pair_parameters] returns, the [k] field of the entry
    for the two requested types, and of the mirrored entry, holds the
    requested range (the value given under ["a"], or else the default range
    [m_a]), and no [a] field of the table has changed. *)
Theorem set_pair_parameters_stores_range_in_k pair_param s s' :
  set_pair_parameters lc pair_param s = Ret tt s' ->
  exists type_1 type_2 range,
    requested_types lc pair_param = Some (type_1, type_2) /\
    requested_range lc pair_param s = Some range /\
    SoftParameters.k <$> pair_entry (m_pair_params s') (type_1 - 1) (type_2 - 1)
      = Some range /\
    SoftParameters.k <$> pair_entry (m_pair_params s') (type_2 - 1) (type_1 - 1)
      = Some range /\
    (forall i j, SoftParameters.a <$> pair_entry (m_pair_params s') i j =
                 SoftParameters.a <$> pair_entry (m_pair_params s) i j).
Proof.
  unfold set_pair_parameters, requested_types. intros H.
  destruct (pair_param !! "type_1") as [text_1|]; [|discriminate].
  destruct (pair_param !! "type_2") as [text_2|]; [|discriminate]. simpl.
  apply bind_Ret_inv in H as (type_1 & s1 & H1 & H).
  apply bind_Ret_inv in H as (type_2 & s2 & H2 & H).
  apply bind_Ret_inv in H as (param_k & s3 & H3 & H).
  apply bind_Ret_inv in H as (param_a & s4 & H4 & H).
  rewrite cast_int_run in H1. rewrite cast_int_run in H2.
  destruct (lexical_cast_int lc text_1) as [t1|]; [|discriminate].
  destruct (lexical_cast_int lc text_2) as [t2|]; [|discriminate].
  injection H1 as <- <-. injection H2 as <- <-. simpl.
  destruct (read_strength_run pair_param t1 t2 s) as (s3' & Hs3 & [Hk|[v Hk]]);
    rewrite Hk in H3; [discriminate|]. injection H3 as <- <-.
  destruct (read_range_run pair_param t1 t2 s3') as (s4' & Hs4 & Ha).
  rewrite Ha in H4.
  destruct (requested_range lc pair_param s3') as [range|] eqn:Hrange; [|discriminate].
  injection H4 as <- <-.
  apply store_pair_Ret in H as (Hk1 & Hk2 & Hall & _).
  exists t1, t2, range. repeat split; try done.
  - unfold requested_range in *. destruct (pair_param !! "a"); [done|].
    destruct Hs3 as (_ & Hma & _). by rewrite <- Hma.
  - intros i j. rewrite Hall. destruct Hs4 as (_ & _ & Htbl4 & _).
    destruct Hs3 as (_ & _ & Htbl3 & _). by rewrite Htbl4, Htbl3.
Qed.

(** C10. [set_pair_parameters] throws a [runtime_error] exactly when the
    key ["type_1"] or the key ["type_2"] is missing, and whenever it throws
    (that exception or a failed [lexical_cast]) the parameter table and the
    flag [m_has_pair_params] are as they were before the call. *)
Theorem set_pair_parameters_throws_iff_type_missing pair_param s :
  ((exists what s', set_pair_parameters lc pair_param s = Fail (RuntimeError what) s')
   <-> (pair_param !! "type_1" = None \/ pair_param !! "type_2" = None)) /\
  (forall f s', set_pair_parameters lc pair_param s = Fail f s' ->
                is_exception f = true ->
                m_pair_params s' = m_pair_params s /\
                m_has_pair_params s' = m_has_pair_params s).
Proof.
  assert (Hfail : forall f s', set_pair_parameters lc pair_param s = Fail f s' ->
            (exists what, f = RuntimeError what /\
               (pair_param !! "type_1" = None \/ pair_param !! "type_2" = None) /\
               same_parameters s s') \/
            (is_Some (pair_param !! "type_1") /\ is_Some (pair_param !! "type_2") /\
               (f = IndexOutOfRange \/ f = BadLexicalCast /\ same_parameters s s'))).
  { unfold set_pair_parameters. intros f s' H.
    destruct (pair_param !! "type_1") as [text_1|].
    2:{ injection H as <- <-. left. eexists. repeat split; eauto. }
    destruct (pair_param !! "type_2") as [text_2|].
    2:{ injection H as <- <-. left. eexists. repeat split; eauto. }
    right. do 2 (split; [eauto|]).
    pose proof (cast_int_run text_1 s) as H1.
    destruct (lexical_cast_int lc text_1) as [t1|].
    2:{ rewrite (bind_Fail _ _ _ _ _ H1) in H. injection H as <- <-.
        right. split; [done | apply same_parameters_refl]. }
    rewrite (bind_Ret _ _ _ _ _ H1) in H.
    pose proof (cast_int_run text_2 s) as H2.
    destruct (lexical_cast_int lc text_2) as [t2|].
    2:{ rewrite (bind_Fail _ _ _ _ _ H2) in H. injection H as <- <-.
        right. split; [done | apply same_parameters_refl]. }
    rewrite (bind_Ret _ _ _ _ _ H2) in H.
    destruct (read_strength_run pair_param t1 t2 s) as (s3 & Hs3 & [Hk|[v Hk]]).
    { rewrite (bind_Fail _ _ _ _ _ Hk) in H. injection H as <- <-. eauto. }
    rewrite (bind_Ret _ _ _ _ _ Hk) in H.
    destruct (read_range_run pair_param t1 t2 s3) as (s4 & Hs4 & Ha).
    destruct (requested_range lc pair_param s3) as [range|].
    - rewrite (bind_Ret _ _ _ _ _ Ha) in H. apply store_pair_Fail in H. eauto.
    - rewrite (bind_Fail _ _ _ _ _ Ha) in H. injection H as <- <-.
      right. split; [done|]. eauto using same_parameters_trans. }
  split; [split|].
  - intros (what & s' & H). apply Hfail in H as [(? & _ & Hmiss & _)|(_ & _ & [?|[? _]])];
      [done | discriminate | discriminate].
  - unfold set_pair_parameters. intros [H|H].
    + rewrite H. eexists _, _. reflexivity.
    + rewrite H. destruct (pair_param !! "type_1"); eexists _, _; reflexivity.
  - intros f s' H Hexn.
    apply Hfail in H as [(? & _ & _ & (_ & _ & ? & ?))|(_ & _ & [->|[_ (_ & _ & ? & ?)]])];
      [done | discriminate | done].
Qed.

End SetPairParametersProperties.

(** The request of types 1 and 2 with range 3 on a two-type potential
    returns, and leaves 3 in the [k] fields of the two mirrored entries. *)
Lemma set_pair_parameters_stores_range_in_k_witness :
  exists s' type_1 type_2 range,
    set_pair_parameters decimal request_1_2 two_types = Ret tt s' /\
    requested_types decimal request_1_2 = Some (type_1, type_2) /\
    requested_range decimal request_1_2 two_types = Some range /\
    SoftParameters.k <$> pair_entry (m_pair_params s') (type_1 - 1) (type_2 - 1)
      = Some range /\
    SoftParameters.k <$> pair_entry (m_pair_params s') (type_2 - 1) (type_1 - 1)
      = Some range /\
    (forall i j, SoftParameters.a <$> pair_entry (m_pair_params s') i j =
                 SoftParameters.a <$> pair_entry (m_pair_params two_types) i j).
Proof.
  assert (H : set_pair_parameters decimal request_1_2 two_types
              = Ret tt (match set_pair_parameters decimal request_1_2 two_types with
                        | Ret _ s' => s' | Fail _ s' => s' end)) by (vm_compute; reflexivity).
  destruct (set_pair_parameters_stores_range_in_k decimal request_1_2 two_types _ H)
    as (type_1 & type_2 & range & ?).
  eexists _, type_1, type_2, range. split; [exact H | assumption].
Defined.

(** ** The integrator: the store and the loops *)

Lemma lookupZ_insert_eq {A : Type} (l : list A) i (v v' : A) :
  lookupZ l i = Some v -> lookupZ (<[Z.to_nat i := v']> l) i = Some v'.
Proof.
  unfold lookupZ. destruct (i <? 0); [discriminate|].
  intros H. apply list_lookup_insert_eq. by eapply lookup_lt_Some.
Qed.

Lemma lookupZ_insert_ne {A : Type} (l : list A) i j (v' : A) :
  0 <= i -> i <> j -> lookupZ (<[Z.to_nat i := v']> l) j = lookupZ l j.
Proof.
  unfold lookupZ. intros Hi Hne. destruct (Z.ltb_spec j 0); [done|].
  apply list_lookup_insert_ne. lia.
Qed.

Lemma lookupZ_is_Some {A : Type} (l : list A) i :
  is_Some (lookupZ l i) <-> 0 <= i < Z.of_nat (length l).
Proof.
  unfold lookupZ. destruct (Z.ltb_spec i 0).
  - split; [intros [? ?]; discriminate | lia].
  - rewrite lookup_lt_is_Some. lia.
Qed.

Lemma alter_lookupZ {A : Type} (f : A -> A) (l : list A) i v :
  lookupZ l i = Some v -> alterZ f i l = <[Z.to_nat i := f v]> l.
Proof.
  unfold lookupZ, alterZ. destruct (i <? 0); [discriminate|]. intros H.
  rewrite list_insert_alter. apply list_alter_ext; [|done].
  intros v' Hv'. congruence.
Qed.

(** The loop [for (i = 0; i < N; i++) { pi = particles[i]; body(pi); }] over
    the whole of [particles] runs [body] on its entries in order. *)
Lemma for_each_indexed {St : Type} (index : Z -> M St Z) (body : Z -> M St unit)
    (seen rest : list Z) s :
  (forall i pi s, lookupZ (seen ++ rest) i = Some pi -> index i s = Ret pi s) ->
  for_each (seqZ (Z.of_nat (length seen)) (Z.of_nat (length rest)))
    (fun i => let* pi := index i in body pi) s
  = for_each rest body s.
Proof.
  revert seen s. induction rest as [|pi rest IH]; intros seen s Hindex; [done|].
  rewrite seqZ_cons by (simpl; lia). simpl.
  assert (Hpi : lookupZ (seen ++ pi :: rest) (Z.of_nat (length seen)) = Some pi).
  { unfold lookupZ. destruct (Z.ltb_spec (Z.of_nat (length seen)) 0); [lia|].
    rewrite Nat2Z.id. by rewrite list_lookup_middle. }
  unfold bind at 1. unfold bind at 1. rewrite (Hindex _ _ s Hpi).
  unfold bind at 2. destruct (body pi s) as [[] s1|f s1]; [|done].
  specialize (IH (seen ++ [pi]) s1).
  rewrite length_app in IH. simpl in IH.
  replace (Z.succ (Z.of_nat (length seen))) with (Z.of_nat (length seen + 1)) by lia.
  replace (Z.pred (Z.of_nat (S (length rest)))) with (Z.of_nat (length rest)) by lia.
  apply IH. intros i pi' s'. rewrite <- app_assoc. apply Hindex.
Qed.

Section IntegratorProperties.

Context {Rng : Type}.
Variable self : @Integrator Rng.

Lemma particle_index_run (particles : list Z) i pi (w : @World Rng) :
  lookupZ particles i = Some pi -> particle_index particles i w = Ret pi w.
Proof. unfold particle_index. by intros ->. Qed.

Lemma for_range_particles (particles : list Z) (body : Z -> M (@World Rng) unit) w :
  for_range 0 (Z.of_nat (length particles))
    (fun i => let* pi := particle_index particles i in body pi) w
  = for_each particles body w.
Proof.
  unfold for_range. rewrite Z.sub_0_r.
  apply (for_each_indexed (particle_index particles) body [] particles).
  intros i pi s H. by apply particle_index_run.
Qed.

Lemma get_particle_run pi (w : @World Rng) p :
  lookupZ (sys_particles w) pi = Some p -> get_particle pi w = Ret p w.
Proof. unfold get_particle. by intros ->. Qed.

Lemma get_particle_Fail pi (w : @World Rng) :
  lookupZ (sys_particles w) pi = None -> get_particle pi w = Fail IndexOutOfRange w.
Proof. unfold get_particle. by intros ->. Qed.

Lemma update_particle_run pi f (w : @World Rng) p :
  lookupZ (sys_particles w) pi = Some p ->
  update_particle pi f w
  = Ret tt (set_particles (<[Z.to_nat pi := f p]> (sys_particles w)) w).
Proof.
  intros H. unfold update_particle, modify. by rewrite (alter_lookupZ _ _ _ _ H).
Qed.

Lemma evolve_id (w : @World Rng) : evolve w (sys_particles w) (rng_state w) [] = w.
Proof. destruct w. unfold evolve. simpl. by rewrite app_nil_r. Qed.

Lemma evolve_evolve (w : @World Rng) ps g cs ps' g' cs' :
  evolve (evolve w ps g cs) ps' g' cs' = evolve w ps' g' (cs ++ cs').
Proof. unfold evolve. simpl. by rewrite app_assoc. Qed.

Lemma update_particle_evolve pi f (w : @World Rng) p :
  lookupZ (sys_particles w) pi = Some p ->
  update_particle pi f w
  = Ret tt (evolve w (<[Z.to_nat pi := f p]> (sys_particles w)) (rng_state w) []).
Proof.
  intros H. rewrite (update_particle_run _ _ _ _ H). unfold evolve, set_particles.
  simpl. by rewrite app_nil_r.
Qed.

Lemma call_evolve c (w : @World Rng) :
  call c w = Ret tt (evolve w (sys_particles w) (rng_state w) [c]).
Proof. reflexivity. Qed.

Lemma gauss_rng_evolve sigma (w : @World Rng) :
  gauss_rng self sigma w
  = Ret (fst (m_rng_gauss_rng self sigma (rng_state w)))
        (evolve w (sys_particles w) (snd (m_rng_gauss_rng self sigma (rng_state w)))
           [Call_gauss_rng sigma]).
Proof. reflexivity. Qed.

Lemma drnd_evolve (w : @World Rng) :
  drnd self w
  = Ret (fst (m_rng_drnd self (rng_state w)))
        (evolve w (sys_particles w) (snd (m_rng_drnd self (rng_state w))) [Call_drnd]).
Proof. reflexivity. Qed.

End IntegratorProperties.

(** Evaluation of the first action of a sequence. *)
Ltac run tac :=
  lazymatch goal with
  | |- bind ?m ?k ?w = _ => erewrite (bind_Ret m k w); [ | tac ]
  end; cbv beta.

Ltac run_update :=
  run ltac:(apply update_particle_evolve; simpl; eauto using lookupZ_insert_eq);
  rewrite ?evolve_evolve; simpl sys_particles; simpl rng_state;
  rewrite ?list_insert_insert_eq.

Ltac run_get :=
  run ltac:(apply get_particle_run; simpl; eauto using lookupZ_insert_eq).

Ltac run_call :=
  run ltac:(apply call_evolve);
  rewrite ?evolve_evolve; simpl sys_particles; simpl rng_state.

Ltac run_gauss :=
  run ltac:(apply gauss_rng_evolve);
  rewrite ?evolve_evolve; simpl sys_particles; simpl rng_state.

(** ** The steps of one iteration *)

Section IterationProperties.

Context {Rng : Type}.
Variable self : @Integrator Rng.

Lemma orientation_update_run c pi (w : @World Rng) p :
  m_constrainer self = Some c ->
  lookupZ (sys_particles w) pi = Some p ->
  let p1 := enforce c p in
  let omega := (m_mur self * project_torque c p1)%float in
  let p2 := Particle.set_omega omega p1 in
  let draw := m_rng_gauss_rng self 1%float (rng_state w) in
  let dtheta := (m_dt self * omega + m_stoch_coeff self * fst draw)%float in
  let p3 := rotate_director c p2 dtheta in
  let p4 := if m_velocity self then rotate_velocity c p3 dtheta else p3 in
  let p5 := Particle.set_age (Particle.age p4 + m_dt self)%float p4 in
  orientation_update self pi w
  = Ret tt (evolve w (<[Z.to_nat pi := p5]> (sys_particles w)) (snd draw)
              ([Call_enforce pi; Call_project_torque pi; Call_gauss_rng 1%float;
                Call_rotate_director pi dtheta]
               ++ (if m_velocity self then [Call_rotate_velocity pi dtheta] else []))).
Proof.
  intros Hc Hp p1 omega p2 draw dtheta p3 p4 p5.
  unfold orientation_update, constrainer. rewrite Hc.
  run ltac:(reflexivity).
  run_update. run_call. run_get. run_call. run_update. run_get. run_gauss.
  run_update. run_call.
  subst p5 p4. destruct (m_velocity self).
  - run ltac:(run_update; apply call_evolve).
    rewrite ?evolve_evolve; simpl sys_particles; simpl rng_state.
    erewrite update_particle_evolve by (simpl; eauto using lookupZ_insert_eq).
    rewrite ?evolve_evolve; simpl sys_particles; simpl rng_state.
    rewrite ?list_insert_insert_eq. reflexivity.
  - run ltac:(reflexivity).
    erewrite update_particle_evolve by (simpl; eauto using lookupZ_insert_eq).
    rewrite ?evolve_evolve; simpl sys_particles; simpl rng_state.
    rewrite ?list_insert_insert_eq. reflexivity.
Qed.

Lemma stochastic_kick_run T B sqrt_dt pi (w : @World Rng) p :
  lookupZ (sys_particles w) pi = Some p ->
  let gx := m_rng_gauss_rng self 1%float (rng_state w) in
  let gy := m_rng_gauss_rng self 1%float (snd gx) in
  let gz := m_rng_gauss_rng self 1%float (snd gy) in
  stochastic_kick self T B sqrt_dt pi w
  = if (0 <? T)%float
    then Ret tt (evolve w
                   (<[Z.to_nat pi := thermal_kick B sqrt_dt (fst gx) (fst gy) (fst gz) p]>
                      (sys_particles w))
                   (snd gz)
                   [Call_gauss_rng 1%float; Call_gauss_rng 1%float; Call_gauss_rng 1%float])
    else Ret tt w.
Proof.
  intros Hp gx gy gz. unfold stochastic_kick. destruct (0 <? T)%float; [|done].
  run_gauss. run_gauss. run_gauss.
  erewrite update_particle_evolve by (simpl; eauto).
  rewrite ?evolve_evolve. reflexivity.
Qed.

(** Without a kick, an iteration is the drift followed by the orientation
    update. *)
Lemma integrate_particle_cold T B sqrt_dt pi (w : @World Rng) p :
  (0 <? T)%float = false ->
  lookupZ (sys_particles w) pi = Some p ->
  integrate_particle self T B sqrt_dt pi w
  = orientation_update self pi
      (evolve w (<[Z.to_nat pi := drift_update self p]> (sys_particles w)) (rng_state w) []).
Proof.
  intros HT Hp. unfold integrate_particle. run_get. run_update.
  unfold stochastic_kick. rewrite HT. run ltac:(reflexivity). reflexivity.
Qed.

(** With a constraint operator and a valid index an iteration returns; it
    rewrites its own particle only, and draws four Gaussian samples when
    [T > 0] and one otherwise. *)
Lemma integrate_particle_Ret c T B sqrt_dt pi (w : @World Rng) p :
  m_constrainer self = Some c ->
  lookupZ (sys_particles w) pi = Some p ->
  exists p' g' cs,
    integrate_particle self T B sqrt_dt pi w
    = Ret tt (evolve w (<[Z.to_nat pi := p']> (sys_particles w)) g' cs) /\
    filter is_draw cs
    = replicate (if (0 <? T)%float then 4 else 1)%nat (Call_gauss_rng 1%float).
Proof.
  intros Hc Hp.
  pose proof (stochastic_kick_run T B sqrt_dt pi
                (evolve w (<[Z.to_nat pi := drift_update self p]> (sys_particles w))
                   (rng_state w) []) (drift_update self p)) as Hkick.
  simpl in Hkick. specialize (Hkick (lookupZ_insert_eq _ _ _ _ Hp)).
  destruct (0 <? T)%float.
  - eexists _, _, _. split.
    + unfold integrate_particle. run_get. run_update.
      run ltac:(exact Hkick). rewrite ?evolve_evolve, ?list_insert_insert_eq.
      erewrite orientation_update_run by (simpl; eauto using lookupZ_insert_eq).
      rewrite ?evolve_evolve. simpl sys_particles. rewrite ?list_insert_insert_eq.
      reflexivity.
    + simpl. by destruct (m_velocity self).
  - eexists _, _, _. split.
    + unfold integrate_particle. run_get. run_update.
      run ltac:(exact Hkick).
      erewrite orientation_update_run by (simpl; eauto using lookupZ_insert_eq).
      rewrite ?evolve_evolve. simpl sys_particles. rewrite ?list_insert_insert_eq.
      reflexivity.
    + simpl. by destruct (m_velocity self).
Qed.

(** Without a constraint operator an iteration stops at the dereference,
    after the drift and the kick have been written. *)
Lemma integrate_particle_null T B sqrt_dt pi (w : @World Rng) p :
  m_constrainer self = None ->
  lookupZ (sys_particles w) pi = Some p ->
  exists w',
    (update_particle pi (drift_update self) ;; stochastic_kick self T B sqrt_dt pi) w
    = Ret tt w' /\
    integrate_particle self T B sqrt_dt pi w = Fail NullPointer w'.
Proof.
  intros Hc Hp.
  pose proof (stochastic_kick_run T B sqrt_dt pi
                (evolve w (<[Z.to_nat pi := drift_update self p]> (sys_particles w))
                   (rng_state w) []) (drift_update self p)) as Hkick.
  simpl in Hkick. specialize (Hkick (lookupZ_insert_eq _ _ _ _ Hp)).
  destruct (0 <? T)%float.
  all: eexists; split;
    [ run ltac:(apply update_particle_evolve; eassumption); exact Hkick
    | unfold integrate_particle; run_get; run_update; run ltac:(exact Hkick);
      rewrite ?evolve_evolve, ?list_insert_insert_eq;
      unfold orientation_update, constrainer; rewrite Hc; reflexivity ].
Qed.

Lemma attempt_flip_run pi (w : @World Rng) :
  attempt_flip self pi w
  = match lookupZ (sys_particles w) pi with
    | None => Fail IndexOutOfRange w
    | Some p =>
        let u := m_rng_drnd self (rng_state w) in
        Ret tt (evolve w
                  (if (fst u <? m_tau self)%float
                   then <[Z.to_nat pi := flip self p]> (sys_particles w)
                   else sys_particles w)
                  (snd u) [Call_drnd])
    end.
Proof.
  unfold attempt_flip. destruct (lookupZ (sys_particles w) pi) as [p|] eqn:Hp.
  - run_get. run ltac:(apply drnd_evolve).
    destruct (fst (m_rng_drnd self (rng_state w)) <? m_tau self)%float.
    + erewrite update_particle_evolve by (simpl; eauto).
      by rewrite evolve_evolve.
    + reflexivity.
  - by rewrite (bind_Fail _ _ _ _ _ (get_particle_Fail _ _ Hp)).
Qed.

(** *** Inversion of a completed iteration *)

Lemma integrate_particle_inv T B sqrt_dt pi (w w' : @World Rng) u :
  integrate_particle self T B sqrt_dt pi w = Ret u w' ->
  exists c p p' g' cs,
    m_constrainer self = Some c /\
    lookupZ (sys_particles w) pi = Some p /\
    w' = evolve w (<[Z.to_nat pi := p']> (sys_particles w)) g' cs /\
    filter is_draw cs
    = replicate (if (0 <? T)%float then 4 else 1)%nat (Call_gauss_rng 1%float).
Proof.
  intros H.
  destruct (lookupZ (sys_particles w) pi) as [p|] eqn:Hp.
  2:{ unfold integrate_particle in H.
      by rewrite (bind_Fail _ _ _ _ _ (get_particle_Fail _ _ Hp)) in H. }
  destruct (m_constrainer self) as [c|] eqn:Hc.
  2:{ destruct (integrate_particle_null T B sqrt_dt pi w p Hc Hp) as (w2 & _ & Hnull).
      congruence. }
  destruct (integrate_particle_Ret c T B sqrt_dt pi w p Hc Hp) as (p' & g' & cs & Hrun & Hd).
  rewrite Hrun in H. injection H as <-. eauto 10.
Qed.

End IterationProperties.

(** ** The main loop *)

Section MainLoopProperties.

Context {Rng : Type}.
Variable self : @Integrator Rng.

Lemma valid_after_insert (ps : list Particle.t) n q pi :
  is_Some (lookupZ ps pi) -> is_Some (lookupZ (<[n := q]> ps) pi).
Proof. rewrite !lookupZ_is_Some, length_insert. done. Qed.

Lemma valid_same_length (ps ps' : list Particle.t) pi :
  length ps' = length ps -> is_Some (lookupZ ps pi) -> is_Some (lookupZ ps' pi).
Proof. intros Hlen. rewrite !lookupZ_is_Some, Hlen. done. Qed.

(** With a constraint operator and valid indices the loop returns; it
    keeps the size of the store, leaves the particles outside [l] alone, and
    draws [4] (for [T > 0]) or [1] Gaussian samples per entry of [l]. *)
Lemma main_loop_Ret c T B sqrt_dt (l : list Z) (w : @World Rng) :
  m_constrainer self = Some c ->
  (forall pi, pi ∈ l -> is_Some (lookupZ (sys_particles w) pi)) ->
  exists ps' g' cs,
    for_each l (integrate_particle self T B sqrt_dt) w = Ret tt (evolve w ps' g' cs) /\
    length ps' = length (sys_particles w) /\
    (forall pi, pi ∉ l -> lookupZ ps' pi = lookupZ (sys_particles w) pi) /\
    filter is_draw cs
    = replicate ((if (0 <? T)%float then 4 else 1) * length l)%nat (Call_gauss_rng 1%float).
Proof.
  intros Hc. revert w. induction l as [|pi l IH]; intros w Hvalid.
  - exists (sys_particles w), (rng_state w), []. rewrite evolve_id.
    repeat split; try done. simpl. by rewrite Nat.mul_0_r.
  - destruct (Hvalid pi) as [p Hp]; [apply elem_of_cons; by left|].
    destruct (integrate_particle_Ret self c T B sqrt_dt pi w p Hc Hp)
      as (p' & g1 & cs1 & Hrun & Hd1).
    destruct (IH (evolve w (<[Z.to_nat pi := p']> (sys_particles w)) g1 cs1))
      as (ps' & g' & cs2 & Hrest & Hlen & Hframe & Hd2).
    { intros pi' Hin. simpl. apply valid_after_insert, Hvalid, elem_of_cons. by right. }
    exists ps', g', (cs1 ++ cs2). simpl. rewrite (bind_Ret _ _ _ _ _ Hrun), Hrest.
    rewrite evolve_evolve. repeat split.
    + rewrite Hlen. simpl. apply length_insert.
    + intros pi' Hnotin. apply not_elem_of_cons in Hnotin as [Hne Hnotin].
      rewrite (Hframe _ Hnotin). simpl.
      apply lookupZ_insert_ne; [by eapply lookupZ_Some_nonneg | done].
    + rewrite filter_app, Hd1, Hd2, <- replicate_add. f_equal.
      destruct (0 <? T)%float; simpl length; lia.
Qed.

(** What a completed loop tells: every entry of [l] is a valid index, the
    size of the store is kept, and the samples drawn are as above. *)
Lemma main_loop_inv T B sqrt_dt (l : list Z) (w w' : @World Rng) u :
  for_each l (integrate_particle self T B sqrt_dt) w = Ret u w' ->
  exists ps' g' cs,
    w' = evolve w ps' g' cs /\
    length ps' = length (sys_particles w) /\
    (forall pi, pi ∈ l -> is_Some (lookupZ ps' pi)) /\
    filter is_draw cs
    = replicate ((if (0 <? T)%float then 4 else 1) * length l)%nat (Call_gauss_rng 1%float).
Proof.
  revert w. induction l as [|pi l IH]; intros w H.
  - injection H as _ <-. exists (sys_particles w), (rng_state w), [].
    rewrite evolve_id. repeat split; try done.
    + intros pi Hin. by apply elem_of_nil in Hin.
    + simpl. by rewrite Nat.mul_0_r.
  - simpl in H. apply bind_Ret_inv in H as (u1 & w1 & H1 & H).
    apply integrate_particle_inv in H1 as (c & p & p' & g1 & cs1 & Hc & Hp & -> & Hd1).
    apply IH in H as (ps' & g' & cs2 & -> & Hlen & Hvalid & Hd2).
    simpl in Hlen. rewrite length_insert in Hlen.
    exists ps', g', (cs1 ++ cs2). rewrite evolve_evolve. repeat split; try done.
    + intros pi' Hin. apply elem_of_cons in Hin as [->|Hin]; [|by apply Hvalid].
      apply (valid_same_length (sys_particles w)); [done | rewrite Hp; eauto].
    + rewrite filter_app, Hd1, Hd2, <- replicate_add. f_equal.
      destruct (0 <? T)%float; simpl length; lia.
Qed.

End MainLoopProperties.

(** ** The periodic update *)

Section PeriodicProperties.

Context {Rng : Type}.
Implicit Types (w : @World Rng) (particles : list Z).

Lemma store_only_refl w : store_only w w.
Proof. by repeat split. Qed.

Lemma store_only_trans w1 w2 w3 : store_only w1 w2 -> store_only w2 w3 -> store_only w1 w3.
Proof.
  unfold store_only. intros (?&?&?&?&?) (?&?&?&?&?). repeat split; congruence.
Qed.

Lemma patching_ret {A : Type} (a : A) : patching (@ret (@World Rng) A a).
Proof. intros w. apply store_only_refl. Qed.

Lemma patching_bind {A B : Type} (m : M (@World Rng) A) (k : A -> M (@World Rng) B) :
  patching m -> (forall a, patching (k a)) -> patching (bind m k).
Proof.
  intros Hm Hk w. unfold bind. specialize (Hm w).
  destruct (m w) as [a w1|f w1]; [|done].
  specialize (Hk a w1). destruct (k a w1); [|done].
  eauto using store_only_trans.
Qed.

Lemma patching_particle_index particles i : patching (@particle_index Rng particles i).
Proof.
  intros w. unfold particle_index.
  destruct (lookupZ particles i); [apply store_only_refl | done].
Qed.

Lemma patching_get_particle pi : patching (@get_particle Rng pi).
Proof.
  intros w. unfold get_particle.
  destruct (lookupZ (sys_particles w) pi); [apply store_only_refl | done].
Qed.

Lemma patching_update_particle pi f : patching (@update_particle Rng pi f).
Proof.
  intros w. repeat split. simpl. unfold alterZ.
  destruct (pi <? 0); [done | apply length_alter].
Qed.

Lemma patching_for_each {A : Type} (l : list A) (body : A -> M (@World Rng) unit) :
  (forall a, patching (body a)) -> patching (for_each l body).
Proof.
  intros Hbody. induction l as [|a l IH]; simpl.
  - apply patching_ret.
  - apply patching_bind; [apply Hbody | intros _; apply IH].
Qed.

Lemma patching_find_boundary particles hit first n b :
  patching (@find_boundary Rng particles hit first n b).
Proof.
  revert first. induction n as [|n IH]; intros first; simpl.
  - apply patching_ret.
  - apply patching_bind; [apply patching_particle_index|]. intros pi.
    apply patching_bind; [apply patching_get_particle|]. intros p.
    destruct (hit (Particle.y p)); [apply patching_ret | apply IH].
Qed.

Lemma patching_read_pair particles ia ib : patching (@read_pair Rng particles ia ib).
Proof.
  unfold read_pair.
  apply patching_bind; [apply patching_particle_index|]. intros pia.
  apply patching_bind; [apply patching_get_particle|]. intros pa.
  apply patching_bind; [apply patching_particle_index|]. intros pib.
  apply patching_bind; [apply patching_get_particle|]. intros pb.
  apply patching_ret.
Qed.

Lemma patching_copy_shifted particles src shift i :
  patching (@copy_shifted Rng particles src shift i).
Proof.
  unfold copy_shifted.
  apply patching_bind; [apply patching_particle_index|]. intros pi0.
  apply patching_bind; [apply patching_get_particle|]. intros p0.
  apply patching_bind; [apply patching_particle_index|]. intros pi.
  apply patching_bind; [apply patching_get_particle|]. intros _.
  apply patching_update_particle.
Qed.

Lemma patching_copy_loop particles first last src shift :
  patching (@for_range Rng first last (fun i => copy_shifted particles (src i) shift i)).
Proof. apply patching_for_each. intros i. apply patching_copy_shifted. Qed.

(** The periodic update changes the contents of the store only, and fails
    only on an index out of range. *)
Lemma patching_periodic_update particles : patching (@periodic_update Rng particles).
Proof.
  unfold periodic_update, periodic_update_flag, update_boundary, search_boundary.
  repeat (apply patching_bind;
          [ first [ apply patching_find_boundary | apply patching_read_pair
                  | apply patching_copy_loop ] | intros ?; cbv zeta ]).
  apply patching_ret.
Qed.

(** *** Reading the group *)

Lemma lookupZ_elem_of {A : Type} (l : list A) i v : lookupZ l i = Some v -> v ∈ l.
Proof.
  unfold lookupZ. destruct (i <? 0); [discriminate|]. apply list_elem_of_lookup_2.
Qed.

Lemma group_particle_is_Some particles ps i :
  group_valid particles ps -> 0 <= i < Z.of_nat (length particles) ->
  exists pi p, lookupZ particles i = Some pi /\ lookupZ ps pi = Some p.
Proof.
  intros Hvalid Hi. apply lookupZ_is_Some in Hi as [pi Hpi].
  destruct (Hvalid pi) as [p Hp]; [by eapply lookupZ_elem_of | eauto].
Qed.

Lemma group_valid_same_length particles ps ps' :
  length ps' = length ps -> group_valid particles ps -> group_valid particles ps'.
Proof.
  intros Hlen Hvalid pi Hin. specialize (Hvalid pi Hin).
  revert Hvalid. rewrite !lookupZ_is_Some, Hlen. done.
Qed.

Lemma NoDup_lookupZ particles i j pi :
  NoDup particles -> lookupZ particles i = Some pi -> lookupZ particles j = Some pi -> i = j.
Proof.
  unfold lookupZ. intros Hnd.
  destruct (Z.ltb_spec i 0); [discriminate|]. destruct (Z.ltb_spec j 0); [discriminate|].
  intros Hi Hj. pose proof (NoDup_lookup _ _ _ _ Hnd Hi Hj). lia.
Qed.

(** Writing the particle at one position of a duplicate-free group leaves
    the particles at the other positions as they were. *)
Lemma group_particle_insert particles ps a pi p q j :
  NoDup particles -> lookupZ particles a = Some pi -> lookupZ ps pi = Some p ->
  group_particle (<[Z.to_nat pi := q]> ps) particles j
  = if decide (j = a) then Some q else group_particle ps particles j.
Proof.
  intros Hnd Ha Hp. unfold group_particle.
  destruct (decide (j = a)) as [->|Hne].
  - rewrite Ha. simpl. by eapply lookupZ_insert_eq.
  - destruct (lookupZ particles j) as [pj|] eqn:Hj; [|done]. simpl.
    apply lookupZ_insert_ne; [by eapply lookupZ_Some_nonneg|].
    intros ->. apply Hne. by eapply NoDup_lookupZ.
Qed.

Lemma find_boundary_Ret particles hit n : forall first b w,
  group_valid particles (sys_particles w) ->
  0 <= first -> first + Z.of_nat n <= Z.of_nat (length particles) ->
  exists r, find_boundary particles hit first n b w = Ret r w /\
            (r = b \/ first <= r < first + Z.of_nat n).
Proof.
  induction n as [|n IH]; intros first b w Hvalid Hfirst Hlast.
  - exists b. split; [done | by left].
  - destruct (group_particle_is_Some particles (sys_particles w) first Hvalid)
      as (pi & p & Hpi & Hp); [lia|]. simpl.
    rewrite (bind_Ret _ _ _ _ _ (particle_index_run particles first pi w Hpi)).
    rewrite (bind_Ret _ _ _ _ _ (get_particle_run pi w p Hp)).
    destruct (hit (Particle.y p)).
    + exists first. split; [done | right; lia].
    + destruct (IH (first + 1) b w Hvalid) as (r & Hr & Hrange); [lia | lia |].
      exists r. split; [done | lia].
Qed.

Lemma read_pair_Ret particles ia ib w :
  group_valid particles (sys_particles w) ->
  0 <= ia < Z.of_nat (length particles) -> 0 <= ib < Z.of_nat (length particles) ->
  exists pp, read_pair particles ia ib w = Ret pp w.
Proof.
  intros Hvalid Hia Hib. unfold read_pair.
  destruct (group_particle_is_Some particles _ ia Hvalid Hia) as (pia & pa & Hpia & Hpa).
  destruct (group_particle_is_Some particles _ ib Hvalid Hib) as (pib & pb & Hpib & Hpb).
  rewrite (bind_Ret _ _ _ _ _ (particle_index_run particles ia pia w Hpia)).
  rewrite (bind_Ret _ _ _ _ _ (get_particle_run pia w pa Hpa)).
  rewrite (bind_Ret _ _ _ _ _ (particle_index_run particles ib pib w Hpib)).
  rewrite (bind_Ret _ _ _ _ _ (get_particle_run pib w pb Hpb)).
  eauto.
Qed.

(** *** The copy loops *)

Lemma copy_shifted_run particles src shift i w pi0 p0 pi p :
  lookupZ particles src = Some pi0 -> lookupZ (sys_particles w) pi0 = Some p0 ->
  lookupZ particles i = Some pi -> lookupZ (sys_particles w) pi = Some p ->
  copy_shifted particles src shift i w
  = Ret tt (evolve w (<[Z.to_nat pi := copy_position p0 shift p]> (sys_particles w))
              (rng_state w) []).
Proof.
  intros Hpi0 Hp0 Hpi Hp. unfold copy_shifted.
  rewrite (bind_Ret _ _ _ _ _ (particle_index_run particles src pi0 w Hpi0)).
  rewrite (bind_Ret _ _ _ _ _ (get_particle_run pi0 w p0 Hp0)).
  rewrite (bind_Ret _ _ _ _ _ (particle_index_run particles i pi w Hpi)).
  rewrite (bind_Ret _ _ _ _ _ (get_particle_run pi w p Hp)).
  by apply update_particle_evolve.
Qed.

(** A copy loop over the positions [a .. a+n-1] whose sources [i - off] all
    lie before [a]: every target receives the shifted position of its
    source as it was before the loop, and no other position of the group
    changes. *)
Lemma copy_loop particles off shift n : forall a w,
  NoDup particles -> group_valid particles (sys_particles w) ->
  0 <= a - off -> a - off + Z.of_nat n <= a ->
  a + Z.of_nat n <= Z.of_nat (length particles) ->
  exists ps',
    for_each (seqZ a (Z.of_nat n)) (fun i => copy_shifted particles (i - off) shift i) w
    = Ret tt (evolve w ps' (rng_state w) []) /\
    length ps' = length (sys_particles w) /\
    (forall i, a <= i < a + Z.of_nat n ->
       group_particle ps' particles i
       = (p0 ← group_particle (sys_particles w) particles (i - off);
          p ← group_particle (sys_particles w) particles i;
          Some (copy_position p0 shift p))) /\
    (forall i, ¬ (a <= i < a + Z.of_nat n) ->
       group_particle ps' particles i = group_particle (sys_particles w) particles i).
Proof.
  induction n as [|n IH]; intros a w Hnd Hvalid Hsrc Hoff Hlast.
  - exists (sys_particles w). rewrite evolve_id. repeat split; try done. intros i ?. lia.
  - rewrite seqZ_cons by lia. simpl for_each.
    destruct (group_particle_is_Some particles _ (a - off) Hvalid)
      as (pi0 & p0 & Hpi0 & Hp0); [lia|].
    destruct (group_particle_is_Some particles _ a Hvalid) as (pi & p & Hpi & Hp); [lia|].
    rewrite (bind_Ret _ _ _ _ _
               (copy_shifted_run particles (a - off) shift a w pi0 p0 pi p Hpi0 Hp0 Hpi Hp)).
    set (ps1 := <[Z.to_nat pi := copy_position p0 shift p]> (sys_particles w)).
    destruct (IH (Z.succ a) (evolve w ps1 (rng_state w) [])) as (ps' & Hrun & Hlen & Hcopy & Hframe).
    { done. }
    { simpl. eapply group_valid_same_length; [|exact Hvalid]. apply length_insert. }
    { lia. } { lia. } { lia. }
    replace (Z.pred (Z.of_nat (S n))) with (Z.of_nat n) by lia.
    simpl in Hrun, Hlen, Hcopy, Hframe.
    exists ps'. rewrite Hrun, evolve_evolve. repeat split.
    + rewrite Hlen. apply length_insert.
    + intros i Hi. destruct (decide (i = a)) as [->|Hne].
      * rewrite Hframe by lia. unfold ps1.
        rewrite (group_particle_insert particles _ a pi p _ a Hnd Hpi Hp).
        rewrite decide_True by done.
        unfold group_particle. rewrite Hpi0, Hpi. simpl. by rewrite Hp0, Hp.
      * rewrite Hcopy by lia. unfold ps1.
        rewrite !(group_particle_insert particles _ a pi p _ _ Hnd Hpi Hp).
        rewrite !decide_False by lia. done.
    + intros i Hi. rewrite Hframe by lia. unfold ps1.
      rewrite (group_particle_insert particles _ a pi p _ i Hnd Hpi Hp).
      rewrite decide_False by lia. done.
Qed.

(** *** The whole update *)

(** The index constants of lines 130-140, evaluated. *)
Lemma periodic_constants :
  internal_index_start = 0 /\ internal_index_end = 967 /\
  up_internal_index_start = 968 /\ up_internal_index_end = 1935 /\
  down_internal_index_start = 1936 /\ down_internal_index_end = 2903 /\
  right_boundary_start_init = 1027 /\ right_boundary_end_init = 1087 /\
  left_boundary_start_init = 1607 /\ left_boundary_end_init = 1667.
Proof. repeat split; vm_compute; reflexivity. Qed.

Lemma search_boundary_Ret particles hit b w :
  group_valid particles (sys_particles w) ->
  30 <= b -> b + 30 <= Z.of_nat (length particles) ->
  exists r, search_boundary particles hit b w = Ret r w /\ b - 30 <= r < b + 30.
Proof.
  intros Hvalid Hlo Hhi. unfold search_boundary, boundary_periodic_update_region.
  destruct (find_boundary_Ret particles hit
              (Z.to_nat (b + 30 - (b - 30))) (b - 30) b w Hvalid) as (r & Hr & Hrange);
    [lia | lia |].
  exists r. split; [done | lia].
Qed.

(** On a duplicate-free group of at least 2904 valid indices the update
    returns.  It leaves the first 968 positions of the group alone, gives
    position [968 + i] the position of position [i] moved up by
    [length_period], and position [1936 + i] the same moved down. *)
Lemma periodic_update_Ret particles w :
  NoDup particles -> group_valid particles (sys_particles w) ->
  2904 <= Z.of_nat (length particles) ->
  exists ps',
    periodic_update particles w = Ret tt (evolve w ps' (rng_state w) []) /\
    length ps' = length (sys_particles w) /\
    (forall i, 0 <= i < 968 ->
       group_particle ps' particles (968 + i)
       = (p0 ← group_particle (sys_particles w) particles i;
          p ← group_particle (sys_particles w) particles (968 + i);
          Some (copy_position p0 shift_up p)) /\
       group_particle ps' particles (1936 + i)
       = (p0 ← group_particle (sys_particles w) particles i;
          p ← group_particle (sys_particles w) particles (1936 + i);
          Some (copy_position p0 shift_down p))) /\
    (forall i, ¬ (968 <= i < 2904) ->
       group_particle ps' particles i = group_particle (sys_particles w) particles i).
Proof.
  intros Hnd Hvalid Hlen.
  destruct periodic_constants as (Hi0 & Hie & Hus & Hue & Hds & Hde & Hrs & Hre & Hls & Hle).
  unfold periodic_update, periodic_update_flag, update_boundary.
  destruct (search_boundary_Ret particles (fun y => y <=? length_period / 2)%float
              right_boundary_start_init w Hvalid) as (rbs & Hrbs & ?); [lia | lia |].
  rewrite (bind_Ret _ _ _ _ _ Hrbs).
  destruct (search_boundary_Ret particles (fun y => y <=? - length_period / 2)%float
              right_boundary_end_init w Hvalid) as (rbe & Hrbe & ?); [lia | lia |].
  rewrite (bind_Ret _ _ _ _ _ Hrbe).
  destruct (read_pair_Ret particles rbs rbe w Hvalid) as (p12 & Hp12); [lia | lia |].
  rewrite (bind_Ret _ _ _ _ _ Hp12). cbv zeta.
  destruct (search_boundary_Ret particles (fun y => - length_period / 2 <=? y)%float
              left_boundary_start_init w Hvalid) as (lbs & Hlbs & ?); [lia | lia |].
  rewrite (bind_Ret _ _ _ _ _ Hlbs).
  destruct (search_boundary_Ret particles (fun y => length_period / 2 <=? y)%float
              left_boundary_end_init w Hvalid) as (lbe & Hlbe & ?); [lia | lia |].
  rewrite (bind_Ret _ _ _ _ _ Hlbe).
  destruct (read_pair_Ret particles lbs lbe w Hvalid) as (p34 & Hp34); [lia | lia |].
  rewrite (bind_Ret _ _ _ _ _ Hp34).
  cbv zeta. unfold for_range.
  change (up_internal_index_end + 1 - up_internal_index_start) with (Z.of_nat 968).
  change (down_internal_index_end + 1 - down_internal_index_start) with (Z.of_nat 968).
  destruct (copy_loop particles (up_internal_index_start - internal_index_start) shift_up
              968 up_internal_index_start w Hnd Hvalid)
    as (ps1 & Hup & Hlen1 & Hcopy1 & Hframe1); [vm_compute; discriminate | lia | lia |].
  rewrite (bind_Ret _ _ _ _ _ Hup).
  destruct (copy_loop particles (down_internal_index_start - internal_index_start)
              shift_down 968 down_internal_index_start (evolve w ps1 (rng_state w) []) Hnd)
    as (ps2 & Hdown & Hlen2 & Hcopy2 & Hframe2).
  { simpl. by eapply group_valid_same_length. }
  { vm_compute; discriminate. } { lia. } { lia. }
  simpl in Hdown, Hlen2, Hcopy2, Hframe2.
  rewrite (bind_Ret _ _ _ _ _ Hdown), evolve_evolve.
  exists ps2. repeat split.
  - congruence.
  - rewrite Hframe2 by lia. rewrite Hcopy1 by lia.
    replace (968 + i - (up_internal_index_start - internal_index_start)) with i by lia.
    done.
  - rewrite Hcopy2 by lia.
    replace (1936 + i - (down_internal_index_start - internal_index_start)) with i by lia.
    rewrite !Hframe1 by lia. done.
  - intros i Hi. rewrite Hframe2 by lia. apply Hframe1. lia.
Qed.

Lemma for_each_Ret_elem {A : Type} (l : list A) (body : A -> M (@World Rng) unit) w u w' a :
  for_each l body w = Ret u w' -> a ∈ l -> exists w1 u1 w2, body a w1 = Ret u1 w2.
Proof.
  revert w. induction l as [|b l IH]; intros w H Hin; [by apply elem_of_nil in Hin|].
  simpl in H. apply bind_Ret_inv in H as (u1 & w1 & Hb & H).
  apply elem_of_cons in Hin as [->|Hin]; eauto.
Qed.

Lemma copy_shifted_Ret_index particles src shift i w u w' :
  copy_shifted particles src shift i w = Ret u w' -> is_Some (lookupZ particles i).
Proof.
  unfold copy_shifted. intros H.
  apply bind_Ret_inv in H as (pi0 & w1 & _ & H).
  apply bind_Ret_inv in H as (p0 & w2 & _ & H).
  apply bind_Ret_inv in H as (pi & w3 & Hpi & _).
  unfold particle_index in Hpi. destruct (lookupZ particles i); [eauto | discriminate].
Qed.

(** The update reads the group at position 2903: it returns only on a group
    of at least 2904 particles. *)
Lemma periodic_update_Ret_length particles w u w' :
  periodic_update particles w = Ret u w' -> 2904 <= Z.of_nat (length particles).
Proof.
  unfold periodic_update, periodic_update_flag, update_boundary. intros H.
  do 3 (apply bind_Ret_inv in H as (? & ? & _ & H)). cbv zeta in H.
  do 3 (apply bind_Ret_inv in H as (? & ? & _ & H)). cbv zeta in H.
  apply bind_Ret_inv in H as (? & ? & _ & H).
  apply bind_Ret_inv in H as (? & ? & H & _).
  unfold for_range in H.
  eapply (for_each_Ret_elem _ _ _ _ _ 2903) in H as (w1 & u1 & w2 & H).
  - apply copy_shifted_Ret_index, lookupZ_is_Some in H. lia.
  - apply elem_of_seqZ. vm_compute. split; [discriminate | done].
Qed.

End PeriodicProperties.

(** ** Before the main loop *)

Section PrepareProperties.

Context {Rng : Type}.
Variable self : @Integrator Rng.
Implicit Types (w : @World Rng) (particles : list Z).

Lemma reset_forces_run w :
  reset_forces w
  = Ret tt (evolve w (Particle.set_force 0%float <$> sys_particles w) (rng_state w)
              [Call_reset_forces]).
Proof. reflexivity. Qed.

Lemma reset_torques_run w :
  reset_torques w
  = Ret tt (evolve w (Particle.set_torque 0%float <$> sys_particles w) (rng_state w)
              [Call_reset_torques]).
Proof. reflexivity. Qed.

Lemma advances_trans w w1 w2 cs1 cs2 :
  advances w w1 cs1 -> advances w1 w2 cs2 -> advances w w2 (cs1 ++ cs2).
Proof. intros (ps1 & g1 & ->) (ps2 & g2 & ->). eexists _, _. apply evolve_evolve. Qed.

Lemma compute_forces_inv w u w' :
  compute_forces self w = Ret u w' ->
  exists cs, advances w w' cs /\ filter is_draw cs = [] /\
             filter is_constrainer_call cs = [].
Proof.
  unfold compute_forces. destruct (m_potential self) as [compute|]; intros [= _ <-].
  - eexists. split; [eexists _, _; reflexivity | by split].
  - exists []. split; [|by split]. eexists _, _. symmetry. apply evolve_id.
Qed.

Lemma compute_torques_inv w u w' :
  compute_torques self w = Ret u w' ->
  exists cs, advances w w' cs /\ filter is_draw cs = [] /\
             filter is_constrainer_call cs = [].
Proof.
  unfold compute_torques. destruct (m_align self) as [compute|]; intros [= _ <-].
  - eexists. split; [eexists _, _; reflexivity | by split].
  - exists []. split; [|by split]. eexists _, _. symmetry. apply evolve_id.
Qed.

(** A completed flip loop has drawn one uniform sample per entry. *)
Lemma flip_loop_inv (l : list Z) w u w' :
  for_each l (attempt_flip self) w = Ret u w' ->
  advances w w' (replicate (length l) Call_drnd).
Proof.
  revert w. induction l as [|pi l IH]; intros w H.
  - injection H as _ <-. eexists _, _. symmetry. apply evolve_id.
  - simpl in H. apply bind_Ret_inv in H as (u1 & w1 & H1 & H).
    rewrite attempt_flip_run in H1.
    destruct (lookupZ (sys_particles w) pi) as [p|]; [|discriminate].
    injection H1 as _ <-. apply IH in H.
    apply (advances_trans _ _ _ [Call_drnd] _ (ex_intro _ _ (ex_intro _ _ eq_refl)) H).
Qed.

Lemma flip_directors_inv particles w u w' :
  flip_directors self (Z.of_nat (length particles)) particles w = Ret u w' ->
  advances w w' (if m_nematic self then replicate (length particles) Call_drnd else []).
Proof.
  unfold flip_directors. destruct (m_nematic self).
  - rewrite for_range_particles. apply flip_loop_inv.
  - intros [= _ <-]. eexists _, _. symmetry. apply evolve_id.
Qed.

Lemma filter_is_draw_replicate_drnd n :
  filter is_draw (replicate n Call_drnd) = replicate n Call_drnd.
Proof. induction n as [|n IH]; [done|]. simpl. rewrite filter_cons_True by done. by f_equal. Qed.

Lemma filter_is_constrainer_call_replicate_drnd n :
  filter is_constrainer_call (replicate n Call_drnd) = [].
Proof.
  induction n as [|n IH]; [done|]. simpl. by rewrite filter_cons_False by (by intros []).
Qed.

(** A completed preparation has drawn the samples of the flip loop and no
    other. *)
Lemma prepare_inv particles w u w' :
  prepare self (Z.of_nat (length particles)) particles w = Ret u w' ->
  exists cs,
    advances w w' cs /\
    filter is_draw cs
    = (if m_nematic self then replicate (length particles) Call_drnd else []) /\
    filter is_constrainer_call cs = [].
Proof.
  unfold prepare. intros H.
  rewrite (bind_Ret _ _ _ _ _ (reset_forces_run w)) in H.
  rewrite (bind_Ret _ _ _ _ _ (reset_torques_run _)) in H.
  apply bind_Ret_inv in H as (u1 & w1 & Hflip & H).
  apply flip_directors_inv in Hflip.
  apply bind_Ret_inv in H as (u2 & w2 & Hforces & Htorques).
  apply compute_forces_inv in Hforces as (cs2 & Hforces & Hd2 & Hc2).
  apply compute_torques_inv in Htorques as (cs3 & Htorques & Hd3 & Hc3).
  eexists. split; [|split].
  - eapply advances_trans; [|exact Htorques].
    eapply advances_trans; [|exact Hforces].
    eapply advances_trans; [|exact Hflip].
    rewrite evolve_evolve. eexists _, _. reflexivity.
  - rewrite !filter_app, Hd2, Hd3, !app_nil_r. simpl.
    destruct (m_nematic self); [apply filter_is_draw_replicate_drnd | done].
  - rewrite !filter_app, Hc2, Hc3, !app_nil_r. simpl.
    destruct (m_nematic self); [apply filter_is_constrainer_call_replicate_drnd | done].
Qed.

End PrepareProperties.

(** ** The steps of [integrate], claim by claim *)

Section StepClaims.

Context {Rng : Type}.
Variable self : @Integrator Rng.
Implicit Types (w : @World Rng) (particles : list Z) (p : Particle.t).





End StepClaims.


(** ** Independence of the recorded history *)

Section HistoryProperties.

Context {Rng : Type}.
Variable self : @Integrator Rng.
Implicit Types (w : @World Rng) (particles : list Z).

Lemma blind_ret {A : Type} (a : A) : history_blind (@ret (@World Rng) A a).
Proof. by intros h w. Qed.

Lemma blind_raise {A : Type} f : history_blind (@raise (@World Rng) A f).
Proof. by intros h w. Qed.

Lemma blind_bind {A B : Type} (m : M (@World Rng) A) (k : A -> M (@World Rng) B) :
  history_blind m -> (forall a, history_blind (k a)) -> history_blind (bind m k).
Proof.
  intros Hm Hk h w. unfold bind. rewrite Hm. destruct (m w) as [a w1|]; [|done]. apply Hk.
Qed.

Lemma blind_modify (g : @World Rng -> @World Rng) :
  (forall h w, g (with_history h w) = with_history h (g w)) -> history_blind (modify g).
Proof. intros Hg h w. unfold modify. by rewrite Hg. Qed.

Lemma blind_read_group : history_blind (@read Rng _ sys_group).
Proof. by intros h w. Qed.

Lemma blind_read_step : history_blind (@read Rng _ sys_run_step).
Proof. by intros h w. Qed.

Lemma blind_get_particle pi : history_blind (@get_particle Rng pi).
Proof. intros h w. unfold get_particle. simpl. by destruct (lookupZ _ _). Qed.

Lemma blind_particle_index particles i : history_blind (@particle_index Rng particles i).
Proof. intros h w. unfold particle_index. by destruct (lookupZ _ _). Qed.

Lemma blind_update_particle pi f : history_blind (@update_particle Rng pi f).
Proof. by apply blind_modify. Qed.

Lemma blind_call c : history_blind (@call Rng c).
Proof.
  apply blind_modify. intros h w. unfold with_history, add_call. simpl.
  by rewrite app_assoc.
Qed.

Lemma blind_drnd : history_blind (drnd self).
Proof.
  intros h w. unfold drnd, with_history, add_call, set_rng. simpl. by rewrite app_assoc.
Qed.

Lemma blind_gauss_rng sigma : history_blind (gauss_rng self sigma).
Proof.
  intros h w. unfold gauss_rng, with_history, add_call, set_rng. simpl.
  by rewrite app_assoc.
Qed.

Lemma blind_constrainer : history_blind (constrainer self).
Proof. unfold constrainer. destruct (m_constrainer self); [apply blind_ret | apply blind_raise]. Qed.

Lemma blind_for_each {A : Type} (l : list A) (body : A -> M (@World Rng) unit) :
  (forall a, history_blind (body a)) -> history_blind (for_each l body).
Proof.
  intros Hbody. induction l as [|a l IH]; simpl.
  - apply blind_ret.
  - apply blind_bind; [apply Hbody | intros _; apply IH].
Qed.

Lemma blind_find_boundary particles hit first n b :
  history_blind (@find_boundary Rng particles hit first n b).
Proof.
  revert first. induction n as [|n IH]; intros first; simpl.
  - apply blind_ret.
  - apply blind_bind; [apply blind_particle_index|]. intros pi.
    apply blind_bind; [apply blind_get_particle|]. intros p.
    destruct (hit (Particle.y p)); [apply blind_ret | apply IH].
Qed.

End HistoryProperties.

(** The composite actions are blind to the history because their parts
    are. *)
Ltac blind :=
  repeat first
    [ apply blind_ret | apply blind_raise | apply blind_read_group | apply blind_read_step
    | apply blind_get_particle | apply blind_particle_index | apply blind_update_particle
    | apply blind_call | apply blind_drnd | apply blind_gauss_rng | apply blind_constrainer
    | apply blind_find_boundary
    | apply blind_modify; by intros
    | apply blind_for_each; intros ?
    | apply blind_bind; [ | intros ?; cbv zeta ]
    | match goal with |- history_blind (if ?b then _ else _) => destruct b end
    | match goal with |- history_blind (match ?o with Some _ => _ | None => _ end) =>
        destruct o
      end ].

Section HistoryOfIntegrate.

Context {Rng : Type}.
Variable self : @Integrator Rng.

Lemma blind_integrate : history_blind (integrate self).
Proof.
  unfold integrate, integrate_core, prepare, reset_forces, reset_torques, flip_directors,
    compute_forces, compute_torques, integrate_particles, integrate_particle,
    stochastic_kick, orientation_update, attempt_flip, periodic_update, search_boundary,
    read_pair, for_range, copy_shifted, periodic_update_flag, update_boundary.
  blind.
Qed.

(** Two worlds with the same store, group, run step and generator state
    are one world under two histories. *)
Lemma same_inputs_history (w1 w2 : @World Rng) :
  sys_particles w2 = sys_particles w1 -> sys_group w2 = sys_group w1 ->
  sys_run_step w2 = sys_run_step w1 -> rng_state w2 = rng_state w1 ->
  exists w0, w1 = with_history (calls w1) w0 /\ w2 = with_history (calls w2) w0.
Proof.
  intros Hps Hg Hstep Hrng.
  exists {| sys_particles := sys_particles w1; sys_group := sys_group w1;
            sys_run_step := sys_run_step w1; rng_state := rng_state w1; calls := [] |}.
  unfold with_history. simpl. rewrite !app_nil_r.
  destruct w1, w2; simpl in *. by subst.
Qed.

(** A call that returns from one world returns from every world with the
    same store, group, run step and generator state, with the same store and
    the same generator state at the end. *)
Lemma integrate_reproducible (w1 w1' w2 : @World Rng) :
  integrate self w1 = Ret tt w1' ->
  sys_particles w2 = sys_particles w1 -> sys_group w2 = sys_group w1 ->
  sys_run_step w2 = sys_run_step w1 -> rng_state w2 = rng_state w1 ->
  exists w2', integrate self w2 = Ret tt w2' /\
              sys_particles w2' = sys_particles w1' /\ rng_state w2' = rng_state w1'.
Proof.
  intros Hrun Hps Hg Hstep Hrng.
  destruct (same_inputs_history w1 w2 Hps Hg Hstep Hrng) as (w0 & H1 & H2).
  rewrite H1, blind_integrate in Hrun. rewrite H2, blind_integrate.
  destruct (integrate self w0) as [[] w0'|]; [|discriminate].
  injection Hrun as <-. eexists. split; [reflexivity | done].
Qed.

End HistoryOfIntegrate.

(** ** Whole calls of [integrate] *)

Section RunClaims.

Context {Rng : Type}.
Variable self : @Integrator Rng.
Implicit Types (w : @World Rng) (particles : list Z) (p : Particle.t).

Lemma integrate_core_run w :
  integrate_core self w
  = (prepare self (Z.of_nat (length (sys_group w))) (sys_group w) ;;
     for_each (sys_group w)
       (integrate_particle self (m_temp self (sys_run_step w))
          (sqrt (2 * m_mu self * m_temp self (sys_run_step w)))%float
          (sqrt (m_dt self)))) w.
Proof.
  unfold integrate_core, read, bind.
  destruct (prepare _ _ _ w) as [[] w0|]; [|done].
  unfold integrate_particles. apply for_range_particles.
Qed.

Lemma advances_calls w w' cs : advances w w' cs -> calls w' = calls w ++ cs.
Proof. by intros (ps & g & ->). Qed.

Lemma advances_group w w' cs : advances w w' cs -> sys_group w' = sys_group w.
Proof. by intros (ps & g & ->). Qed.

(** What a completed run up to the periodic update tells: the calls made,
    the samples drawn, and that every entry of the group is a valid index. *)
Lemma integrate_core_inv w u w1 :
  integrate_core self w = Ret u w1 ->
  exists cs,
    advances w w1 cs /\
    filter is_draw cs
    = (if m_nematic self then replicate (length (sys_group w)) Call_drnd else [])
      ++ replicate ((if (0 <? m_temp self (sys_run_step w))%float then 4 else 1)
                    * length (sys_group w))%nat (Call_gauss_rng 1%float) /\
    group_valid (sys_group w) (sys_particles w1).
Proof.
  rewrite integrate_core_run. intros H.
  apply bind_Ret_inv in H as ([] & w0 & Hprep & Hloop).
  apply prepare_inv in Hprep as (cs0 & Hadv0 & Hd0 & _).
  apply main_loop_inv in Hloop as (ps' & g' & cs1 & -> & Hlen & Hvalid & Hd1).
  exists (cs0 ++ cs1). repeat split.
  - eapply advances_trans; [exact Hadv0 | by eexists _, _].
  - by rewrite filter_app, Hd0, Hd1.
  - exact Hvalid.
Qed.

(** After the main loop: the periodic update on the group, then the
    notification of the mesh. *)
Lemma integrate_after_core w w1 :
  integrate_core self w = Ret tt w1 ->
  integrate self w
  = match periodic_update (sys_group w) w1 with
    | Ret _ w2 => Ret tt (evolve w2 (sys_particles w2) (rng_state w2) [Call_update_mesh])
    | Fail f w2 => Fail f w2
    end.
Proof.
  intros Hcore. unfold integrate, read. unfold bind at 1.
  rewrite (bind_Ret _ _ _ _ _ Hcore).
  unfold bind. by destruct (periodic_update (sys_group w) w1).
Qed.

Lemma integrate_core_Fail w f w1 :
  integrate_core self w = Fail f w1 -> integrate self w = Fail f w1.
Proof. intros Hcore. unfold integrate, read. unfold bind at 1. by apply bind_Fail. Qed.

Lemma integrate_Ret_core w u w' :
  integrate self w = Ret u w' -> exists w1, integrate_core self w = Ret tt w1.
Proof.
  unfold integrate, read. unfold bind at 1. intros H.
  apply bind_Ret_inv in H as ([] & w1 & Hcore & _). eauto.
Qed.

(** The world after the preparation when there is nothing to flip and
    nothing to evaluate. *)
Lemma plain_prepare N particles w :
  m_nematic self = false -> m_potential self = None -> m_align self = None ->
  prepare self N particles w
  = Ret tt (evolve w
              (Particle.set_torque 0%float <$> (Particle.set_force 0%float <$> sys_particles w))
              (rng_state w) [Call_reset_forces; Call_reset_torques]).
Proof.
  intros Hn Hp Ha.
  unfold prepare, flip_directors, compute_forces, compute_torques.
  rewrite Hn, Hp, Ha.
  rewrite (bind_Ret _ _ _ _ _ (reset_forces_run w)).
  rewrite (bind_Ret _ _ _ _ _ (reset_torques_run _)).
  unfold bind, ret. by rewrite evolve_evolve.
Qed.

Lemma lookupZ_fmap {A B : Type} (f : A -> B) (l : list A) i :
  lookupZ (f <$> l) i = f <$> lookupZ l i.
Proof. unfold lookupZ. destruct (i <? 0); [done|]. apply list_lookup_fmap. Qed.

(** A plain run (no flips, no potential, no alignment, a constraint operator
    set) on a duplicate-free group of at least 2904 valid indices returns,
    and the first particle of the group ends as its own iteration left it. *)
Lemma plain_integrate c w pi0 rest p0 :
  m_nematic self = false -> m_potential self = None -> m_align self = None ->
  m_constrainer self = Some c ->
  sys_group w = pi0 :: rest -> NoDup (sys_group w) ->
  group_valid (sys_group w) (sys_particles w) ->
  2904 <= Z.of_nat (length (sys_group w)) ->
  lookupZ (sys_particles w) pi0 = Some p0 ->
  let w0 := evolve w
              (Particle.set_torque 0%float <$> (Particle.set_force 0%float <$> sys_particles w))
              (rng_state w) [Call_reset_forces; Call_reset_torques] in
  exists p' g' cs w1 w',
    integrate_particle self (m_temp self (sys_run_step w))
      (sqrt (2 * m_mu self * m_temp self (sys_run_step w)))%float (sqrt (m_dt self)) pi0 w0
    = Ret tt (evolve w0 (<[Z.to_nat pi0 := p']> (sys_particles w0)) g' cs) /\
    integrate_core self w = Ret tt w1 /\
    integrate self w = Ret tt w' /\
    lookupZ (sys_particles w') pi0 = Some p'.
Proof.
  intros Hn Hpot Hal Hc Hgroup Hnd Hvalid Hlen Hp0 w0.
  assert (Hvalid0 : group_valid (sys_group w) (sys_particles w0)).
  { eapply group_valid_same_length; [|exact Hvalid]. simpl. by rewrite !length_fmap. }
  assert (Hp0' : lookupZ (sys_particles w0) pi0
                 = Some (Particle.set_torque 0%float (Particle.set_force 0%float p0))).
  { simpl. by rewrite !lookupZ_fmap, Hp0. }
  destruct (integrate_particle_Ret self c (m_temp self (sys_run_step w))
              (sqrt (2 * m_mu self * m_temp self (sys_run_step w)))%float (sqrt (m_dt self))
              pi0 w0 _ Hc Hp0') as (p' & g1 & cs1 & Hfirst & _).
  rewrite Hgroup in Hnd. apply NoDup_cons in Hnd as [Hnotin Hnd'].
  destruct (main_loop_Ret self c (m_temp self (sys_run_step w))
              (sqrt (2 * m_mu self * m_temp self (sys_run_step w)))%float (sqrt (m_dt self))
              rest (evolve w0 (<[Z.to_nat pi0 := p']> (sys_particles w0)) g1 cs1) Hc)
    as (ps1 & g2 & cs2 & Hrest & Hlen1 & Hframe1 & _).
  { intros pi Hin. simpl. apply valid_after_insert. apply Hvalid0.
    rewrite Hgroup. apply elem_of_cons. by right. }
  set (w1 := evolve (evolve w0 (<[Z.to_nat pi0 := p']> (sys_particles w0)) g1 cs1) ps1 g2 cs2).
  assert (Hcore : integrate_core self w = Ret tt w1).
  { rewrite integrate_core_run.
    rewrite (bind_Ret _ _ _ _ _ (plain_prepare _ _ w Hn Hpot Hal)).
    rewrite Hgroup. simpl. fold w0. rewrite (bind_Ret _ _ _ _ _ Hfirst). exact Hrest. }
  assert (Hp1 : lookupZ ps1 pi0 = Some p').
  { rewrite (Hframe1 _ Hnotin). simpl. by eapply lookupZ_insert_eq. }
  assert (Hlen1' : length ps1 = length (sys_particles w)).
  { rewrite Hlen1. simpl. by rewrite length_insert, !length_fmap. }
  destruct (periodic_update_Ret (sys_group w) w1) as (ps2 & Hper & Hlen2 & _ & Hframe2).
  { by rewrite Hgroup; apply NoDup_cons. }
  { eapply group_valid_same_length; [|exact Hvalid]. exact Hlen1'. }
  { done. }
  exists p', g1, cs1, w1, (evolve (evolve w1 ps2 (rng_state w1) []) ps2 (rng_state w1)
                            [Call_update_mesh]).
  repeat split; try done.
  - rewrite (integrate_after_core _ _ Hcore). by rewrite Hper.
  - simpl. specialize (Hframe2 0). unfold group_particle in Hframe2.
    rewrite Hgroup in Hframe2. simpl in Hframe2.
    rewrite Hframe2 by lia. exact Hp1.
Qed.

(** C7, as the code has it.  With the constraint operator unset and a
    non-empty group, [integrate] prepares the step as usual, writes the drift
    (and, for [T > 0], the kick) into the first particle of the group, and
    only then stops on the null pointer, at the first [enforce].  No call on
    the constraint operator has been made by then. *)
Theorem unset_constrainer_stops_at_first_enforce w pi rest w1 p :
  m_constrainer self = None ->
  sys_group w = pi :: rest ->
  prepare self (Z.of_nat (length (sys_group w))) (sys_group w) w = Ret tt w1 ->
  lookupZ (sys_particles w1) pi = Some p ->
  exists w2,
    (update_particle pi (drift_update self) ;;
     stochastic_kick self (m_temp self (sys_run_step w))
       (sqrt (2 * m_mu self * m_temp self (sys_run_step w)))%float
       (sqrt (m_dt self)) pi) w1 = Ret tt w2 /\
    integrate self w = Fail NullPointer w2 /\
    filter is_constrainer_call (calls w2) = filter is_constrainer_call (calls w).
Proof.
  intros Hc Hgroup Hprep Hp.
  destruct (integrate_particle_null self (m_temp self (sys_run_step w))
              (sqrt (2 * m_mu self * m_temp self (sys_run_step w)))%float
              (sqrt (m_dt self)) pi w1 p Hc Hp) as (w2 & Hkick & Hnull).
  exists w2. split; [exact Hkick|]. split.
  - apply integrate_core_Fail. rewrite integrate_core_run.
    rewrite (bind_Ret _ _ _ _ _ Hprep), Hgroup. simpl. by apply bind_Fail.
  - pose proof (prepare_inv self (sys_group w) w tt w1 Hprep) as (cs & Hadv & _ & Hquiet).
    rewrite (bind_Ret _ _ _ _ _ (update_particle_evolve pi _ w1 p Hp)) in Hkick.
    rewrite (stochastic_kick_run self _ _ _ pi _ (drift_update self p)) in Hkick
      by (simpl; eauto using lookupZ_insert_eq).
    destruct (0 <? _)%float; injection Hkick as <-; simpl;
      rewrite (advances_calls _ _ _ Hadv), ?filter_app, Hquiet; simpl;
      by rewrite ?app_nil_r.
Qed.

(** C5. At [T(step) = 0], a call that returns from a world returns from
    every world with the same store, group, run step and generator state
    (the seed), whatever had been recorded before, and ends with the same
    store and the same generator state.  The kick is the identity: no sample
    is drawn for it and nothing is written.  The samples drawn over the whole
    call are one uniform sample per group entry in nematic mode, followed by
    one Gaussian sample (the rotational one) per group entry. *)
Theorem zero_temperature_runs_are_reproducible w1 w1' w2 :
  m_temp self (sys_run_step w1) = 0%float ->
  integrate self w1 = Ret tt w1' ->
  sys_particles w2 = sys_particles w1 -> sys_group w2 = sys_group w1 ->
  sys_run_step w2 = sys_run_step w1 -> rng_state w2 = rng_state w1 ->
  (exists w2', integrate self w2 = Ret tt w2' /\
               sys_particles w2' = sys_particles w1' /\ rng_state w2' = rng_state w1') /\
  (forall B sqrt_dt pi w0,
     stochastic_kick self (m_temp self (sys_run_step w1)) B sqrt_dt pi w0 = Ret tt w0) /\
  exists cs,
    calls w1' = calls w1 ++ cs /\
    filter is_draw cs
    = (if m_nematic self then replicate (length (sys_group w1)) Call_drnd else [])
      ++ replicate (length (sys_group w1)) (Call_gauss_rng 1%float).
Proof.
  intros HT Hrun Hps Hg Hstep Hrng.
  split; [by eapply integrate_reproducible|]. split.
  { intros B sqrt_dt pi w0. unfold stochastic_kick. by rewrite HT. }
  destruct (integrate_Ret_core _ _ _ Hrun) as (w1c & Hcore).
  rewrite (integrate_after_core _ _ Hcore) in Hrun.
  pose proof (patching_periodic_update (sys_group w1) w1c) as Hpatch.
  destruct (periodic_update (sys_group w1) w1c) as [[] w1p|]; [|discriminate].
  injection Hrun as <-. destruct Hpatch as (_ & _ & _ & Hcalls & _).
  apply integrate_core_inv in Hcore as (cs & Hadv & Hdraws & _).
  exists (cs ++ [Call_update_mesh]). split.
  - simpl. rewrite Hcalls, (advances_calls _ _ _ Hadv). by rewrite app_assoc.
  - rewrite filter_app, Hdraws, HT. simpl. by rewrite Nat.add_0_r, app_nil_r.
Qed.

(** C8. Once the main loop has completed on a duplicate-free group, the
    call goes on to the periodic update.  On a group of at least 2904
    particles it returns: for [i] below 968 the particle at group position [i]
    is as the main loop left it, and the particles at positions [968 + i] and
    [1936 + i] have received its position with [y] moved by [+30] and by
    [-30].  On a smaller group the call reads the group out of range. *)
Theorem periodic_update_copies_first_third w w1 :
  integrate_core self w = Ret tt w1 ->
  NoDup (sys_group w) ->
  (2904 <= Z.of_nat (length (sys_group w)) ->
   exists w',
     integrate self w = Ret tt w' /\
     forall i, 0 <= i < 968 ->
       exists src,
         group_particle (sys_particles w1) (sys_group w) i = Some src /\
         group_particle (sys_particles w') (sys_group w) i = Some src /\
         Particle.position <$> group_particle (sys_particles w') (sys_group w) (968 + i)
         = Some (Particle.x src, (Particle.y src + 30)%float, Particle.z src) /\
         Particle.position <$> group_particle (sys_particles w') (sys_group w) (1936 + i)
         = Some (Particle.x src, (Particle.y src - 30)%float, Particle.z src)) /\
  (Z.of_nat (length (sys_group w)) < 2904 ->
   exists w', integrate self w = Fail IndexOutOfRange w').
Proof.
  intros Hcore Hnd.
  pose proof (integrate_core_inv _ _ _ Hcore) as (cs & Hadv & _ & Hvalid).
  rewrite (integrate_after_core _ _ Hcore). split.
  - intros Hlen.
    destruct (periodic_update_Ret (sys_group w) w1 Hnd Hvalid Hlen)
      as (ps2 & Hper & Hlen2 & Hcopy & Hframe).
    rewrite Hper. eexists. split; [reflexivity|]. simpl.
    intros i Hi.
    destruct (group_particle_is_Some _ _ i Hvalid) as (pi & src & Hpi & Hsrc); [lia|].
    destruct (group_particle_is_Some _ _ (968 + i) Hvalid) as (pu & up & Hpu & Hup); [lia|].
    destruct (group_particle_is_Some _ _ (1936 + i) Hvalid) as (pd & down & Hpd & Hdown);
      [lia|].
    assert (Hi' : group_particle (sys_particles w1) (sys_group w) i = Some src).
    { unfold group_particle. rewrite Hpi. exact Hsrc. }
    exists src. split; [exact Hi'|]. split; [by rewrite Hframe by lia|].
    destruct (Hcopy i Hi) as [Hu Hd]. rewrite Hu, Hd, Hi'.
    unfold group_particle. rewrite Hpu, Hpd. simpl. rewrite Hup, Hdown. done.
  - intros Hlen.
    pose proof (patching_periodic_update (sys_group w) w1) as Hpatch.
    destruct (periodic_update (sys_group w) w1) as [[] w2|f w2] eqn:Hper.
    + apply periodic_update_Ret_length in Hper. lia.
    + rewrite Hpatch. eauto.
Qed.

(** C4, on a group the periodic update can run on.  Take a duplicate-free
    group of at least 2904 valid particles, [v0 = 1], [mu = 0], [dt = 0.1],
    [T(step) = 0], nematic mode off, no potential and no alignment, and a
    constraint operator whose [enforce] is the identity and whose rotation for
    this step leaves the particle as it is.  If the first particle of the
    group starts at the origin with director [(1, 0, 0)], the call returns
    and leaves it at [(0.1, 0, 0)] with velocity [(1, 0, 0)] and the same
    director. *)
Theorem scenario_step_on_a_full_group c w pi0 rest p0 :
  m_v0 self = 1%float -> m_mu self = 0%float -> m_dt self = 0.1%float ->
  m_temp self (sys_run_step w) = 0%float ->
  m_nematic self = false -> m_potential self = None -> m_align self = None ->
  m_constrainer self = Some c -> (forall p, enforce c p = p) ->
  sys_group w = pi0 :: rest -> NoDup (sys_group w) ->
  Forall (fun pi => is_Some (lookupZ (sys_particles w) pi)) (sys_group w) ->
  2904 <= Z.of_nat (length (sys_group w)) ->
  lookupZ (sys_particles w) pi0 = Some p0 ->
  Particle.position p0 = (0, 0, 0)%float ->
  Particle.director p0 = (1, 0, 0)%float ->
  (let p1 := drift_update self (Particle.set_torque 0%float (Particle.set_force 0%float p0)) in
   let omega := (m_mur self * project_torque c p1)%float in
   let p2 := Particle.set_omega omega p1 in
   let dtheta := (m_dt self * omega
                  + m_stoch_coeff self * fst (m_rng_gauss_rng self 1%float (rng_state w)))%float in
   rotate_director c p2 dtheta = p2 /\
   (m_velocity self = true -> rotate_velocity c p2 dtheta = p2)) ->
  exists w' p',
    integrate self w = Ret tt w' /\
    lookupZ (sys_particles w') pi0 = Some p' /\
    Particle.position p' = (0.1, 0, 0)%float /\
    Particle.velocity p' = (1, 0, 0)%float /\
    Particle.director p' = (1, 0, 0)%float.
Proof.
  intros Hv0 Hmu Hdt HT Hn Hpot Hal Hc Henf Hgroup Hnd Hvalid Hlen Hp0 Hpos Hdir Hrot.
  destruct (plain_integrate c w pi0 rest p0 Hn Hpot Hal Hc Hgroup Hnd) as
    (p' & g' & cs & w1 & w' & Hfirst & _ & Hrun & Hp'); [|done|done|].
  { intros pi Hin. by eapply Forall_forall in Hvalid. }
  exists w', p'. split; [exact Hrun|]. split; [exact Hp'|].
  set (p0r := Particle.set_torque 0%float (Particle.set_force 0%float p0)) in *.
  set (w0 := evolve w _ (rng_state w) [Call_reset_forces; Call_reset_torques]) in *.
  assert (Hp0r : lookupZ (sys_particles w0) pi0 = Some p0r).
  { simpl. by rewrite !lookupZ_fmap, Hp0. }
  rewrite (integrate_particle_cold self _ _ _ pi0 w0 p0r) in Hfirst
    by (by rewrite ?HT).
  rewrite (orientation_update_run self c pi0 _ (drift_update self p0r) Hc) in Hfirst
    by (simpl; eauto using lookupZ_insert_eq).
  injection Hfirst as Hstore _ _. simpl in Hstore.
  apply (f_equal (fun ps => lookupZ ps pi0)) in Hstore.
  rewrite !(lookupZ_insert_eq _ _ _ _ Hp0r) in Hstore.
  rewrite (lookupZ_insert_eq _ _ (drift_update self p0r))
    in Hstore by (by eapply lookupZ_insert_eq).
  injection Hstore as <-.
  rewrite Henf. destruct Hrot as [Hrd Hrv]. fold p0r in Hrd, Hrv.
  rewrite Hrd.
  assert (Hp4 : (if m_velocity self
                 then rotate_velocity c
                        (Particle.set_omega (m_mur self * project_torque c (drift_update self p0r))
                           (drift_update self p0r))
                        (m_dt self * (m_mur self * project_torque c (drift_update self p0r))
                         + m_stoch_coeff self * fst (m_rng_gauss_rng self 1 (rng_state w)))%float
                 else Particle.set_omega
                        (m_mur self * project_torque c (drift_update self p0r))
                        (drift_update self p0r))
                = Particle.set_omega (m_mur self * project_torque c (drift_update self p0r))
                    (drift_update self p0r)).
  { destruct (m_velocity self); [by apply Hrv | done]. }
  simpl rng_state. rewrite Hp4.
  injection Hpos as Hx Hy Hz. injection Hdir as Hnx Hny Hnz.
  unfold Particle.position, Particle.velocity, Particle.director, drift_update, p0r. simpl.
  rewrite Hv0, Hmu, Hdt, Hx, Hy, Hz, Hnx, Hny, Hnz.
  repeat split.
Qed.

End RunClaims.

(** C7, as stated, fails: with the constraint operator unset, the call stops
    on the null pointer only after the particle has moved from the origin to
    [(0.1, 0, 0)] and its velocity has become [(1, 0, 0)]. *)
Lemma unset_constrainer_moves_particle_first :
  Particle.position <$> lookupZ (sys_particles single) 0 = Some (0, 0, 0)%float /\
  Particle.velocity <$> lookupZ (sys_particles single) 0 = Some (0, 0, 0)%float /\
  integrate (brownian 0 false false None) single
  = Fail NullPointer
      (evolve single
         [Particle.mk 0.1 0 0 1 0 0 1 0 0 0 0 0 0 0 0 0 0]
         (rng_state single)
         [Call_reset_forces; Call_reset_torques]).
Proof. repeat split; vm_compute; reflexivity. Qed.

(** The one-particle world, without a constraint operator. *)
Lemma unset_constrainer_stops_at_first_enforce_witness :
  exists w2,
    (update_particle 0 (drift_update (brownian 0 false false None)) ;;
     stochastic_kick (brownian 0 false false None) 0
       (sqrt (2 * 0 * 0))%float (sqrt 0.1) 0)
      (evolve single [resting 0 0 0] (rng_state single)
         [Call_reset_forces; Call_reset_torques]) = Ret tt w2 /\
    integrate (brownian 0 false false None) single = Fail NullPointer w2 /\
    filter is_constrainer_call (calls w2) = filter is_constrainer_call (calls single).
Proof.
  apply (unset_constrainer_stops_at_first_enforce (brownian 0 false false None)
           single 0 [] _ (resting 0 0 0)); reflexivity.
Defined.

(** ** The examples *)

Lemma row_group : sys_group row = 0 :: seqZ 1 2903.
Proof.
  change (sys_group row) with (seqZ 0 2904). rewrite seqZ_cons by lia.
  change (Z.succ 0) with 1. change (Z.pred 2904) with 2903. reflexivity.
Qed.

Lemma row_length : 2904 <= Z.of_nat (length (sys_group row)).
Proof. change (sys_group row) with (seqZ 0 2904). rewrite length_seqZ. lia. Qed.

Lemma row_NoDup : NoDup (sys_group row).
Proof. apply NoDup_seqZ. Qed.

Lemma row_valid :
  Forall (fun pi => is_Some (lookupZ (sys_particles row) pi)) (sys_group row).
Proof.
  apply Forall_forall. intros pi Hin.
  change (sys_group row) with (seqZ 0 2904) in Hin.
  apply elem_of_seqZ in Hin. apply lookupZ_is_Some.
  change (sys_particles row) with ((fun i => resting (double_of_int i) 0 0) <$> seqZ 0 2904).
  rewrite length_fmap, length_seqZ. lia.
Qed.

Lemma row_first : lookupZ (sys_particles row) 0 = Some (resting 0 0 0).
Proof. reflexivity. Qed.

(** A plain run on the row returns. *)
Lemma row_run :
  exists w1 w',
    integrate_core (brownian 0 false false (Some flat_plane)) row = Ret tt w1 /\
    integrate (brownian 0 false false (Some flat_plane)) row = Ret tt w'.
Proof.
  pose proof (plain_integrate (brownian 0 false false (Some flat_plane)) flat_plane row
                0 (seqZ 1 2903) (resting 0 0 0) eq_refl eq_refl eq_refl eq_refl
                row_group row_NoDup (proj1 (Forall_forall _ _) row_valid)
                row_length row_first) as H.
  destruct H as (p' & g' & cs & w1 & w' & _ & Hcore & Hrun & _).
  exists w1, w'. split; assumption.
Qed.

(** C4, as stated, fails: on the group of one particle the call does not
    return; after the main loop it reads the group at position 997. *)
Lemma single_particle_group_is_read_out_of_range :
  integrate (brownian 0 false false (Some flat_plane)) single
  = Fail IndexOutOfRange
      (evolve single
         [Particle.mk 0.1 0 0 1 0 0 1 0 0 0 0 0 0 0 0 0 0.1]
         [0.5; 0.75; 1]%float
         [Call_reset_forces; Call_reset_torques; Call_enforce 0; Call_project_torque 0;
          Call_gauss_rng 1%float; Call_rotate_director 0 0%float]) /\
  lookupZ (sys_group single)
    (right_boundary_start_init - boundary_periodic_update_region) = None.
Proof. split; vm_compute; reflexivity. Qed.

(** The scenario on the first particle of the row of 2904. *)
Lemma scenario_step_on_a_full_group_witness :
  exists w' p',
    integrate (brownian 0 false false (Some flat_plane)) row = Ret tt w' /\
    lookupZ (sys_particles w') 0 = Some p' /\
    Particle.position p' = (0.1, 0, 0)%float /\
    Particle.velocity p' = (1, 0, 0)%float /\
    Particle.director p' = (1, 0, 0)%float.
Proof.
  apply (scenario_step_on_a_full_group (brownian 0 false false (Some flat_plane))
           flat_plane row 0 (seqZ 1 2903) (resting 0 0 0)
           eq_refl eq_refl eq_refl eq_refl eq_refl eq_refl eq_refl eq_refl
           (fun p => eq_refl) row_group row_NoDup row_valid row_length row_first
           eq_refl eq_refl).
  vm_compute. split; [reflexivity | discriminate].
Defined.

(** Two runs on the row at zero temperature, the second after an earlier
    notification of the mesh: the same store and generator state at the end,
    and 2904 Gaussian samples drawn. *)
Lemma zero_temperature_runs_are_reproducible_witness :
  exists w1',
    integrate (brownian 0 false false (Some flat_plane)) row = Ret tt w1' /\
    (exists w2',
       integrate (brownian 0 false false (Some flat_plane)) (add_call Call_update_mesh row)
       = Ret tt w2' /\
       sys_particles w2' = sys_particles w1' /\ rng_state w2' = rng_state w1') /\
    (forall B sqrt_dt pi w0,
       stochastic_kick (brownian 0 false false (Some flat_plane)) 0 B sqrt_dt pi w0
       = Ret tt w0) /\
    exists cs,
      calls w1' = calls row ++ cs /\
      filter is_draw cs = [] ++ replicate (length (sys_group row)) (Call_gauss_rng 1%float).
Proof.
  destruct row_run as (w1 & w' & _ & Hrun). exists w'. split; [exact Hrun|].
  exact (zero_temperature_runs_are_reproducible
           (brownian 0 false false (Some flat_plane)) row w'
           (add_call Call_update_mesh row) eq_refl Hrun eq_refl eq_refl eq_refl eq_refl).
Defined.

(** The periodic update on the row. *)
Lemma periodic_update_copies_first_third_witness :
  exists w1,
    integrate_core (brownian 0 false false (Some flat_plane)) row = Ret tt w1 /\
    exists w',
      integrate (brownian 0 false false (Some flat_plane)) row = Ret tt w' /\
      forall i, 0 <= i < 968 ->
        exists src,
          group_particle (sys_particles w1) (sys_group row) i = Some src /\
          group_particle (sys_particles w') (sys_group row) i = Some src /\
          Particle.position <$> group_particle (sys_particles w') (sys_group row) (968 + i)
          = Some (Particle.x src, (Particle.y src + 30)%float, Particle.z src) /\
          Particle.position <$> group_particle (sys_particles w') (sys_group row) (1936 + i)
          = Some (Particle.x src, (Particle.y src - 30)%float, Particle.z src).
Proof.
  destruct row_run as (w1 & w' & Hcore & _). exists w1. split; [exact Hcore|].
  exact (proj1 (periodic_update_copies_first_third
                 (brownian 0 false false (Some flat_plane)) row w1 Hcore row_NoDup)
           row_length).
Defined.

(** * Further properties *)

(** ** The parameter table of the soft pair potential *)

Lemma pair_entry_is_Some n tbl i j :
  square n tbl ->
  is_Some (pair_entry tbl i j) <-> 0 <= i < Z.of_nat n /\ 0 <= j < Z.of_nat n.
Proof.
  intros [Hlen Hrows]. unfold pair_entry. split.
  - intros [e He]. destruct (lookupZ tbl i) as [row|] eqn:Hrow; [|discriminate].
    simpl in He. assert (Hin : row ∈ tbl) by eauto using lookupZ_elem_of.
    rewrite Forall_forall in Hrows. specialize (Hrows _ Hin).
    pose proof (proj1 (lookupZ_is_Some tbl i) (mk_is_Some _ _ Hrow)).
    pose proof (proj1 (lookupZ_is_Some row j) (mk_is_Some _ _ He)). lia.
  - intros [Hi Hj]. destruct (proj2 (lookupZ_is_Some tbl i)) as [row Hrow]; [lia|].
    rewrite Hrow. simpl. apply lookupZ_is_Some.
    assert (Hin : row ∈ tbl) by eauto using lookupZ_elem_of.
    rewrite Forall_forall in Hrows. specialize (Hrows _ Hin). lia.
Qed.

Lemma pair_entry_is_Some_swap n tbl i j :
  square n tbl -> is_Some (pair_entry tbl i j) -> is_Some (pair_entry tbl j i).
Proof. intros Hsq. rewrite !(pair_entry_is_Some n) by done. tauto. Qed.

(** The lengths of the rows of a table. *)
Lemma shape_alter (f : SoftParameters.t -> SoftParameters.t)
    (tbl : list (list SoftParameters.t)) (i j : nat) :
  length <$> alter (alter f j) i tbl = length <$> tbl.
Proof.
  apply list_eq. intros i'. rewrite !list_lookup_fmap.
  destruct (decide (i' = i)) as [->|Hne].
  - rewrite list_lookup_alter_eq. destruct (tbl !! i); simpl; [|done].
    by rewrite length_alter.
  - by rewrite list_lookup_alter_ne.
Qed.

Lemma square_shape n tbl tbl' :
  length <$> tbl' = length <$> tbl -> square n tbl -> square n tbl'.
Proof.
  intros Hshape [Hlen Hrows]. split.
  - rewrite <- Hlen, <- (length_fmap length tbl'), Hshape. apply length_fmap.
  - apply Forall_lookup. intros i row' Hrow'.
    pose proof (f_equal (fun l => l !! i) Hshape) as Hi. simpl in Hi.
    rewrite !list_lookup_fmap, Hrow' in Hi.
    destruct (tbl !! i) as [row|] eqn:Hrow; [|discriminate].
    simpl in Hi. injection Hi as ->. by eapply (Forall_lookup_1 _ _ _ _ Hrows).
Qed.

(** Two tables of the same shape with the same entries are the same table. *)
Lemma table_ext (tbl tbl' : list (list SoftParameters.t)) :
  length <$> tbl' = length <$> tbl ->
  (forall i j, pair_entry tbl' i j = pair_entry tbl i j) ->
  tbl' = tbl.
Proof.
  intros Hshape Hentries. apply list_eq. intros i.
  pose proof (f_equal (fun l => l !! i) Hshape) as Hi. simpl in Hi.
  rewrite !list_lookup_fmap in Hi.
  destruct (tbl' !! i) as [row'|] eqn:Hrow', (tbl !! i) as [row|] eqn:Hrow;
    try discriminate; [|done].
  simpl in Hi. injection Hi as Hlen. f_equal. apply list_eq. intros j.
  specialize (Hentries (Z.of_nat i) (Z.of_nat j)). unfold pair_entry, lookupZ in Hentries.
  destruct (Z.ltb_spec (Z.of_nat i) 0); [lia|].
  destruct (Z.ltb_spec (Z.of_nat j) 0); [lia|].
  rewrite !Nat2Z.id in Hentries. by rewrite Hrow', Hrow in Hentries.
Qed.

Lemma write_k_run i j v s e :
  pair_entry (m_pair_params s) i j = Some e ->
  write_k i j v s =
  Ret tt (set_pair_params
            (alter (alter (SoftParameters.set_k v) (Z.to_nat j)) (Z.to_nat i) (m_pair_params s))
            s).
Proof. unfold write_k. by intros ->. Qed.


Lemma write_k_frame i j v s u s' :
  write_k i j v s = Ret u s' ->
  m_k s' = m_k s /\ m_a s' = m_a s /\ m_has_pair_params s' = m_has_pair_params s /\
  m_msg s' = m_msg s /\ length <$> m_pair_params s' = length <$> m_pair_params s.
Proof.
  intros H. apply write_k_Ret in H as (_ & _ & _ & ->). simpl.
  repeat split. apply shape_alter.
Qed.

Lemma set_k_set_k v v' (e : option SoftParameters.t) :
  SoftParameters.set_k v <$> (SoftParameters.set_k v' <$> e) = SoftParameters.set_k v <$> e.
Proof. by destruct e. Qed.

(** All that a returning run of lines 142-149 does. *)
Lemma store_pair_effect type_1 type_2 param_k param_a s u s' :
  store_pair type_1 type_2 param_k param_a s = Ret u s' ->
  (forall i j, pair_entry (m_pair_params s') i j =
               if decide (targeted type_1 type_2 i j)
               then SoftParameters.set_k param_a <$> pair_entry (m_pair_params s) i j
               else pair_entry (m_pair_params s) i j) /\
  length <$> m_pair_params s' = length <$> m_pair_params s /\
  m_k s' = m_k s /\ m_a s' = m_a s /\ m_msg s' = m_msg s /\ m_has_pair_params s' = true.
Proof.
  unfold store_pair. intros H.
  apply bind_Ret_inv in H as (u1 & s1 & H1 & H).
  apply bind_Ret_inv in H as (u2 & s2 & H2 & H).
  apply bind_Ret_inv in H as (u3 & s3 & H3 & H).
  apply bind_Ret_inv in H as (u4 & s4 & H4 & H).
  unfold modify in H. simplify_eq/=.
  pose proof (write_k_frame _ _ _ _ _ _ H1) as (Hk1 & Ha1 & _ & Hm1 & Hs1).
  pose proof (write_k_frame _ _ _ _ _ _ H3) as (Hk3 & Ha3 & _ & Hm3 & Hs3).
  destruct (decide (type_1 ≠ type_2)) as [Hne|Heq].
  - pose proof (write_k_frame _ _ _ _ _ _ H2) as (Hk2 & Ha2 & _ & Hm2 & Hs2).
    pose proof (write_k_frame _ _ _ _ _ _ H4) as (Hk4 & Ha4 & _ & Hm4 & Hs4).
    split; [|repeat split; congruence].
    intros i j.
    rewrite (write_k_entry _ _ _ _ _ _ i j H4), (write_k_entry _ _ _ _ _ _ i j H3),
      (write_k_entry _ _ _ _ _ _ i j H2), (write_k_entry _ _ _ _ _ _ i j H1).
    unfold targeted.
    repeat case_decide; try (exfalso; lia); by rewrite ?set_k_set_k.
  - assert (type_1 = type_2) as -> by (destruct (decide (type_1 = type_2)); tauto).
    unfold ret in H2, H4. simplify_eq/=.
    split; [|repeat split; congruence].
    intros i j.
    rewrite (write_k_entry _ _ _ _ _ _ i j H3), (write_k_entry _ _ _ _ _ _ i j H1).
    unfold targeted.
    repeat case_decide; try (exfalso; lia); by rewrite ?set_k_set_k.
Qed.


Section SetPairParametersOnTables.

Variable lc : LexicalCast.

Lemma more_messages_refl s : more_messages s s.
Proof. split; [apply same_parameters_refl | exists []; by rewrite app_nil_r]. Qed.

Lemma more_messages_trans s1 s2 s3 :
  more_messages s1 s2 -> more_messages s2 s3 -> more_messages s1 s3.
Proof.
  intros [H12 [m12 E12]] [H23 [m23 E23]]. split; [by eapply same_parameters_trans|].
  exists (m12 ++ m23). by rewrite E23, E12, app_assoc.
Qed.

Lemma more_messages_add_msg l text s : more_messages s (add_msg l text s).
Proof. split; [apply same_parameters_add_msg | by eexists]. Qed.

Lemma read_strength_full pair_param type_1 type_2 s :
  exists s', more_messages s s' /\
    read_strength lc pair_param type_1 type_2 s =
    match requested_strength lc pair_param s with
    | Some v => Ret v s'
    | None => Fail BadLexicalCast s'
    end.
Proof.
  unfold read_strength, requested_strength.
  destruct (pair_param !! "k") as [text_k|].
  - eexists. split; [apply more_messages_add_msg|].
    unfold bind. rewrite msg_run, cast_double_run. reflexivity.
  - eexists. split; [apply more_messages_add_msg|]. reflexivity.
Qed.

Lemma read_range_full pair_param type_1 type_2 s :
  exists s', more_messages s s' /\
    read_range lc pair_param type_1 type_2 s =
    match requested_range lc pair_param s with
    | Some v => Ret v s'
    | None => Fail BadLexicalCast s'
    end.
Proof.
  unfold read_range, requested_range.
  destruct (pair_param !! "a") as [text_a|].
  - eexists. split; [apply more_messages_add_msg|].
    unfold bind. rewrite msg_run, cast_double_run. reflexivity.
  - eexists. split; [apply more_messages_add_msg|]. reflexivity.
Qed.

Lemma requested_range_same pair_param s s' :
  same_parameters s s' -> requested_range lc pair_param s' = requested_range lc pair_param s.
Proof.
  intros (_ & Ha & _). unfold requested_range. destruct (pair_param !! "a"); congruence.
Qed.

Lemma requested_strength_same pair_param s s' :
  same_parameters s s' ->
  requested_strength lc pair_param s' = requested_strength lc pair_param s.
Proof.
  intros (Hk & _). unfold requested_strength. destruct (pair_param !! "k"); congruence.
Qed.

(** A call either throws, leaving all but the messenger as it was, or it
    reaches lines 142-149 with what the request asks for. *)
Lemma set_pair_parameters_cases pair_param s :
  (exists f s', set_pair_parameters lc pair_param s = Fail f s' /\
                is_exception f = true /\ more_messages s s' /\
                (requested_types lc pair_param = None \/
                 requested_strength lc pair_param s = None \/
                 requested_range lc pair_param s = None)) \/
  (exists type_1 type_2 param_k param_a s0,
      requested_types lc pair_param = Some (type_1, type_2) /\
      requested_strength lc pair_param s = Some param_k /\
      requested_range lc pair_param s = Some param_a /\
      more_messages s s0 /\
      set_pair_parameters lc pair_param s = store_pair type_1 type_2 param_k param_a s0).
Proof.
  unfold set_pair_parameters, requested_types.
  destruct (pair_param !! "type_1") as [text_1|]; simpl.
  2:{ left. eexists _, _. split; [reflexivity|].
      split; [done|]. split; [apply more_messages_add_msg | by left]. }
  destruct (pair_param !! "type_2") as [text_2|]; simpl.
  2:{ left. eexists _, _. split; [reflexivity|].
      split; [done|]. split; [apply more_messages_add_msg | by left]. }
  pose proof (cast_int_run lc text_1 s) as H1.
  destruct (lexical_cast_int lc text_1) as [t1|]; simpl.
  2:{ left. eexists _, _. split; [by apply bind_Fail|].
      split; [done|]. split; [apply more_messages_refl | by left]. }
  rewrite (bind_Ret _ _ _ _ _ H1).
  pose proof (cast_int_run lc text_2 s) as H2.
  destruct (lexical_cast_int lc text_2) as [t2|]; simpl.
  2:{ left. eexists _, _. split; [by apply bind_Fail|].
      split; [done|]. split; [apply more_messages_refl | by left]. }
  rewrite (bind_Ret _ _ _ _ _ H2).
  destruct (read_strength_full pair_param t1 t2 s) as (s3 & Hs3 & Hk).
  destruct (requested_strength lc pair_param s) as [param_k|].
  2:{ left. eexists _, _. split; [by apply bind_Fail|].
      split; [done|]. split; [done | by right; left]. }
  rewrite (bind_Ret _ _ _ _ _ Hk).
  destruct (read_range_full pair_param t1 t2 s3) as (s4 & Hs4 & Ha).
  rewrite (requested_range_same pair_param s s3) in Ha by apply Hs3.
  destruct (requested_range lc pair_param s) as [param_a|].
  2:{ left. eexists _, _. split; [by apply bind_Fail|].
      split; [done|]. split; [by eapply more_messages_trans | by right; right]. }
  rewrite (bind_Ret _ _ _ _ _ Ha).
  right. exists t1, t2, param_k, param_a, s4.
  do 3 (split; [done|]). split; [by eapply more_messages_trans | done].
Qed.

End SetPairParametersOnTables.


Section TableProperties.

Variable lc : LexicalCast.



(** X3. A returning call changes the [k] field of the entry of the two
    types and of its mirror image, and nothing else of the table: every
    other entry, the shape of the table and the defaults [m_k] and [m_a]
    are as before, the flag [m_has_pair_params] is set, and the messenger
    has only received more text. *)
Theorem set_pair_parameters_touches_two_entries pair_param s s' :
  set_pair_parameters lc pair_param s = Ret tt s' ->
  exists type_1 type_2,
    requested_types lc pair_param = Some (type_1, type_2) /\
    (forall i j, ¬ targeted type_1 type_2 i j ->
                 pair_entry (m_pair_params s') i j = pair_entry (m_pair_params s) i j) /\
    length <$> m_pair_params s' = length <$> m_pair_params s /\
    m_k s' = m_k s /\ m_a s' = m_a s /\ m_has_pair_params s' = true /\
    exists msgs, m_msg s' = m_msg s ++ msgs.
Proof.
  intros H.
  destruct (set_pair_parameters_cases lc pair_param s)
    as [(f1 & s1 & Hrun & _)
       |(t1 & t2 & pk & pa & s0 & Htypes & _ & _ & [Hsame Hmsgs] & Hrun)];
    [congruence|].
  rewrite Hrun in H. apply store_pair_effect in H as (Hentries & Hshape & Hk & Ha & Hm & Hflag).
  destruct Hsame as (Hk0 & Ha0 & Htbl0 & _).
  exists t1, t2. split; [done|]. rewrite Hshape, Hk, Ha, Hm, Htbl0. repeat split; try done.
  intros i j Hother. rewrite Hentries, decide_False by done. by rewrite Htbl0.
Qed.

End TableProperties.

Lemma targeted_swap type_1 type_2 i j : targeted type_1 type_2 i j -> targeted type_1 type_2 j i.
Proof. unfold targeted. tauto. Qed.

(** Lines 142-149 run through when the entry of the two types and its
    mirror image are there. *)
Lemma store_pair_returns type_1 type_2 param_k param_a s :
  is_Some (pair_entry (m_pair_params s) (type_1 - 1) (type_2 - 1)) ->
  is_Some (pair_entry (m_pair_params s) (type_2 - 1) (type_1 - 1)) ->
  exists s', store_pair type_1 type_2 param_k param_a s = Ret tt s'.
Proof.
  set (there s0 := is_Some (pair_entry (m_pair_params s0) (type_1 - 1) (type_2 - 1)) /\
                   is_Some (pair_entry (m_pair_params s0) (type_2 - 1) (type_1 - 1))).
  assert (Hstep : forall i j v s0, there s0 -> is_Some (pair_entry (m_pair_params s0) i j) ->
            exists s1, write_k i j v s0 = Ret tt s1 /\ there s1).
  { intros i j v s0 [H12 H21] [e He]. eexists. split; [by eapply write_k_run|].
    pose proof (write_k_run i j v s0 e He) as Hrun.
    unfold there. rewrite !(write_k_entry _ _ _ _ _ _ _ _ Hrun).
    split; case_decide; try done; by apply fmap_is_Some. }
  intros H12 H21. assert (Hs : there s) by done. unfold store_pair.
  destruct (Hstep (type_1 - 1) (type_2 - 1) param_k s Hs H12) as (s1 & H1 & Hs1).
  rewrite (bind_Ret _ _ _ _ _ H1).
  assert (exists s2, (if decide (type_1 ≠ type_2)
                      then write_k (type_2 - 1) (type_1 - 1) param_k else ret tt) s1
                     = Ret tt s2 /\ there s2) as (s2 & H2 & Hs2).
  { destruct (decide (type_1 ≠ type_2)); [apply Hstep; [done | apply Hs1] | by exists s1]. }
  rewrite (bind_Ret _ _ _ _ _ H2).
  destruct (Hstep (type_1 - 1) (type_2 - 1) param_a s2 Hs2 (proj1 Hs2)) as (s3 & H3 & Hs3).
  rewrite (bind_Ret _ _ _ _ _ H3).
  assert (exists s4, (if decide (type_1 ≠ type_2)
                      then write_k (type_2 - 1) (type_1 - 1) param_a else ret tt) s3
                     = Ret tt s4 /\ there s4) as (s4 & H4 & Hs4).
  { destruct (decide (type_1 ≠ type_2)); [apply Hstep; [done | apply Hs3] | by exists s3]. }
  rewrite (bind_Ret _ _ _ _ _ H4). eexists. reflexivity.
Qed.

Lemma store_pair_mirrored type_1 type_2 param_k param_a s u s' :
  mirrored (m_pair_params s) ->
  store_pair type_1 type_2 param_k param_a s = Ret u s' ->
  mirrored (m_pair_params s').
Proof.
  intros Hmirror H i j.
  pose proof (store_pair_Ret _ _ _ _ _ _ _ H) as (H12 & H21 & _).
  apply store_pair_effect in H as (Hentries & _).
  destruct (decide (targeted type_1 type_2 i j)) as [Ht|Hn].
  - destruct Ht as [[-> ->]|[-> ->]]; congruence.
  - rewrite !Hentries, !decide_False; [apply Hmirror | | done].
    intros Ht. by apply Hn, targeted_swap.
Qed.

Section TableInvariants.

Variable lc : LexicalCast.

(** X4. A table whose [k] fields read the same across the diagonal still
    does after a returning call. *)
Theorem set_pair_parameters_keeps_table_mirrored pair_param s s' :
  mirrored (m_pair_params s) ->
  set_pair_parameters lc pair_param s = Ret tt s' ->
  mirrored (m_pair_params s').
Proof.
  intros Hmirror H.
  destruct (set_pair_parameters_cases lc pair_param s)
    as [(f1 & s1 & Hrun & _)
       |(t1 & t2 & pk & pa & s0 & _ & _ & _ & [(_ & _ & Htbl & _) _] & Hrun)];
    [congruence|].
  rewrite Hrun in H. eapply store_pair_mirrored; [|done]. by rewrite Htbl.
Qed.

(** X5. The table that a returning call leaves depends on the request
    through the keys ["type_1"], ["type_2"] and ["a"] only: two requests
    that agree on these three and both return leave the same table, whatever
    they say under ["k"]. *)
Theorem set_pair_parameters_ignores_strength pair_param pair_param' s s1 s2 :
  pair_param' !! "type_1" = pair_param !! "type_1" ->
  pair_param' !! "type_2" = pair_param !! "type_2" ->
  pair_param' !! "a" = pair_param !! "a" ->
  set_pair_parameters lc pair_param s = Ret tt s1 ->
  set_pair_parameters lc pair_param' s = Ret tt s2 ->
  m_pair_params s2 = m_pair_params s1.
Proof.
  intros E1 E2 Ea H1 H2.
  destruct (set_pair_parameters_cases lc pair_param s)
    as [(? & ? & Hrun & _)
       |(t1 & t2 & pk & pa & s0 & Htypes & _ & Ha & [(_ & _ & Htbl & _) _] & Hrun)];
    [congruence|].
  destruct (set_pair_parameters_cases lc pair_param' s)
    as [(? & ? & Hrun' & _)
       |(t1' & t2' & pk' & pa' & s0' & Htypes' & _ & Ha' & [(_ & _ & Htbl' & _) _] & Hrun')];
    [congruence|].
  assert (t1' = t1 /\ t2' = t2) as [-> ->].
  { unfold requested_types in *. rewrite E1, E2, Htypes in Htypes'. by injection Htypes'. }
  assert (pa' = pa) as ->.
  { unfold requested_range in *. rewrite Ea, Ha in Ha'. by injection Ha'. }
  rewrite Hrun in H1. rewrite Hrun' in H2.
  apply store_pair_effect in H1 as (Hentries1 & Hshape1 & _).
  apply store_pair_effect in H2 as (Hentries2 & Hshape2 & _).
  apply table_ext.
  - by rewrite Hshape1, Hshape2, Htbl, Htbl'.
  - intros i j. by rewrite Hentries1, Hentries2, Htbl, Htbl'.
Qed.

(** X6. A request that has been taken once is taken again, and the second
    call leaves the table as the first one left it. *)
Theorem set_pair_parameters_twice pair_param s s1 :
  set_pair_parameters lc pair_param s = Ret tt s1 ->
  exists s2, set_pair_parameters lc pair_param s1 = Ret tt s2 /\
             m_pair_params s2 = m_pair_params s1.
Proof.
  intros H1.
  destruct (set_pair_parameters_cases lc pair_param s)
    as [(? & ? & Hrun & _)
       |(t1 & t2 & pk & pa & s0 & Htypes & Hk & Ha & [(Hk0 & Ha0 & Htbl & _) _] & Hrun)];
    [congruence|].
  rewrite Hrun in H1.
  pose proof (store_pair_Ret _ _ _ _ _ _ _ H1) as (H12 & H21 & _).
  apply store_pair_effect in H1 as (Hentries1 & _ & Hk1 & Ha1 & _).
  destruct (set_pair_parameters_cases lc pair_param s1)
    as [(? & ? & _ & _ & _ & [Hnone|[Hnone|Hnone]])
       |(t1' & t2' & pk' & pa' & s0' & Htypes' & _ & Ha'
         & [(_ & _ & Htbl' & _) _] & Hrun')].
  - congruence.
  - unfold requested_strength in *. destruct (pair_param !! "k"); congruence.
  - unfold requested_range in *. destruct (pair_param !! "a"); congruence.
  - rewrite Htypes in Htypes'. injection Htypes' as <- <-.
    assert (pa' = pa) as ->.
    { unfold requested_range in *. destruct (pair_param !! "a"); congruence. }
    destruct (store_pair_returns t1 t2 pk' pa s0') as [s2 H2].
    { rewrite Htbl'. destruct (pair_entry (m_pair_params s1) (t1 - 1) (t2 - 1)); [done|].
      discriminate H12. }
    { rewrite Htbl'. destruct (pair_entry (m_pair_params s1) (t2 - 1) (t1 - 1)); [done|].
      discriminate H21. }
    exists s2. split; [by rewrite Hrun'|].
    apply store_pair_effect in H2 as (Hentries2 & Hshape2 & _).
    apply table_ext; [by rewrite Hshape2, Htbl'|].
    intros i j. rewrite Hentries2, Htbl', Hentries1.
    case_decide; [apply set_k_set_k | done].
Qed.

End TableInvariants.

(** ** The constructor of the soft pair potential *)

Lemma allocate_square unassigned ntypes k : square ntypes (allocate unassigned ntypes k).
Proof.
  unfold allocate. split.
  - by rewrite length_fmap, length_seq.
  - apply Forall_fmap, Forall_forall. intros i _. simpl. by rewrite length_fmap, length_seq.
Qed.

Lemma allocate_entry unassigned ntypes k i j e :
  pair_entry (allocate unassigned ntypes k) i j = Some e ->
  e = SoftParameters.mk k (unassigned (Z.to_nat i) (Z.to_nat j)).
Proof.
  unfold pair_entry, allocate, lookupZ.
  destruct (i <? 0); [discriminate|]. rewrite list_lookup_fmap.
  destruct (seq 0 ntypes !! Z.to_nat i) as [i'|] eqn:Hi; [|discriminate]. simpl.
  destruct (j <? 0); [discriminate|]. rewrite list_lookup_fmap.
  destruct (seq 0 ntypes !! Z.to_nat j) as [j'|] eqn:Hj; [|discriminate]. simpl.
  apply lookup_seq in Hi as [-> _]. apply lookup_seq in Hj as [-> _]. simpl.
  by intros [= <-].
Qed.

Lemma allocate_mirrored unassigned ntypes k : mirrored (allocate unassigned ntypes k).
Proof.
  intros i j.
  pose proof (pair_entry_is_Some ntypes _ i j (allocate_square unassigned ntypes k)) as Hij.
  pose proof (pair_entry_is_Some ntypes _ j i (allocate_square unassigned ntypes k)) as Hji.
  destruct (pair_entry (allocate unassigned ntypes k) i j) as [e|] eqn:He,
    (pair_entry (allocate unassigned ntypes k) j i) as [e'|] eqn:He'; simpl.
  - apply allocate_entry in He, He'. by subst.
  - destruct Hji as [_ Hji]. destruct Hij as [Hij _].
    destruct Hji as [? ?]; [|done]. destruct Hij; [done|]. lia.
  - destruct Hji as [Hji _]. destruct Hij as [_ Hij].
    destruct Hij as [? ?]; [|done]. destruct Hji; [done|]. lia.
  - done.
Qed.

Section ConstructorProperties.

Variable lc : LexicalCast.
Variable unassigned : nat -> nat -> double.

(** The constructor run through: it stops at the first text that does not
    parse, and otherwise builds the object from the two values. *)
Lemma construct_run ntypes param b r msgs :
  exists msgs',
    (exists more, msgs' = msgs ++ more) /\
    construct lc unassigned ntypes param b r msgs =
    match given_or lc 1 (param !! "k"), given_or lc 2 (param !! "a") with
    | Some k, Some a =>
        Ret ({| m_k := k; m_a := a; m_pair_params := allocate unassigned ntypes k;
                m_has_pair_params := b; m_msg := msgs' |},
             if param !! "use_particle_radii" is Some _ then true else r) msgs'
    | _, _ => Fail BadLexicalCast msgs'
    end.
Proof.
  unfold construct, given_or, bind, log, modify, cast_double_log, ret, raise, get.
  destruct (param !! "k") as [text_k|];
    [destruct (lexical_cast_double lc text_k)|];
    try (destruct (param !! "a") as [text_a|];
         [destruct (lexical_cast_double lc text_a)|]);
    try destruct (param !! "use_particle_radii");
    (eexists; split; [|reflexivity]; eexists; by rewrite <- ?app_assoc).
Qed.

End ConstructorProperties.

Lemma settled_set_pair_parameters lc n unassigned k a pair_param s s' :
  settled n unassigned k a s ->
  set_pair_parameters lc pair_param s = Ret tt s' ->
  settled n unassigned k a s'.
Proof.
  intros (Hsq & Hmirror & Hfree & Hk & Ha) H.
  destruct (set_pair_parameters_cases lc pair_param s)
    as [(? & ? & Hrun & _)
       |(t1 & t2 & pk & pa & s0 & _ & _ & _ & [(Hk0 & Ha0 & Htbl & _) _] & Hrun)];
    [congruence|].
  rewrite Hrun in H.
  assert (Hmirror' : mirrored (m_pair_params s')).
  { eapply store_pair_mirrored; [|done]. by rewrite Htbl. }
  apply store_pair_effect in H as (Hentries & Hshape & Hk1 & Ha1 & _).
  split; [|split; [done|split; [|split]]].
  - eapply square_shape; [by rewrite Hshape, Htbl | done].
  - intros i j e. rewrite Hentries, Htbl.
    case_decide; [|by apply Hfree].
    destruct (pair_entry (m_pair_params s) i j) as [e0|] eqn:He0; [|discriminate].
    simpl. intros [= <-]. simpl. by eapply Hfree.
  - congruence.
  - congruence.
Qed.

Lemma settled_requests lc n unassigned k a requests : forall s s',
  settled n unassigned k a s ->
  for_each requests (set_pair_parameters lc) s = Ret tt s' ->
  settled n unassigned k a s'.
Proof.
  induction requests as [|pair_param requests IH]; intros s s' Hs H.
  - by injection H as <-.
  - simpl in H. apply bind_Ret_inv in H as ([] & s1 & H1 & H).
    eauto using settled_set_pair_parameters.
Qed.

Section ConstructedPotential.

Variable lc : LexicalCast.
Variable unassigned : nat -> nat -> double.


(** X8. The object that the constructor returns: the defaults are the given
    strength and range, or [1] and [2] where none is given; the table has
    [ntypes] rows of [ntypes] entries; each entry holds the default strength
    in [k], and in [a] what the memory held, since [a] is not assigned; the
    flag of the base class is as the base class left it, and the radii flag
    is set when the key ["use_particle_radii"] is there. *)
Theorem construct_leaves_uniform_table ntypes param b r msgs s u msgs' :
  construct lc unassigned ntypes param b r msgs = Ret (s, u) msgs' ->
  given_or lc 1 (param !! "k") = Some (m_k s) /\
  given_or lc 2 (param !! "a") = Some (m_a s) /\
  square ntypes (m_pair_params s) /\
  (forall i j e, pair_entry (m_pair_params s) i j = Some e ->
                 e = SoftParameters.mk (m_k s) (unassigned (Z.to_nat i) (Z.to_nat j))) /\
  m_has_pair_params s = b /\
  u = (if param !! "use_particle_radii" is Some _ then true else r).
Proof.
  destruct (construct_run lc unassigned ntypes param b r msgs) as (msgs1 & _ & Hrun).
  rewrite Hrun.
  destruct (given_or lc 1 (param !! "k")) as [k|]; [|discriminate].
  destruct (given_or lc 2 (param !! "a")) as [a|]; [|discriminate].
  intros [= <- <- <-]. simpl.
  do 2 (split; [done|]). split; [apply allocate_square|].
  split; [intros i j e; apply allocate_entry | done].
Qed.

(** X9. After the constructor and any number of returning calls of
    [set_pair_parameters], the table still has [ntypes] rows of [ntypes]
    entries, its [k] fields still read the same across the diagonal, the
    defaults are those of the constructor, and no [a] field has ever been
    assigned: each holds what the memory held at construction. *)
Theorem requests_never_assign_a ntypes param b r msgs s u msgs' requests s' :
  construct lc unassigned ntypes param b r msgs = Ret (s, u) msgs' ->
  for_each requests (set_pair_parameters lc) s = Ret tt s' ->
  square ntypes (m_pair_params s') /\ mirrored (m_pair_params s') /\
  (forall i j e, pair_entry (m_pair_params s') i j = Some e ->
                 SoftParameters.a e = unassigned (Z.to_nat i) (Z.to_nat j)) /\
  m_k s' = m_k s /\ m_a s' = m_a s.
Proof.
  intros Hnew Hrequests.
  apply (settled_requests lc ntypes unassigned (m_k s) (m_a s) requests s s'); [|done].
  destruct (construct_run lc unassigned ntypes param b r msgs) as (msgs1 & _ & Hrun).
  rewrite Hrun in Hnew.
  destruct (given_or lc 1 (param !! "k")) as [k|]; [|discriminate].
  destruct (given_or lc 2 (param !! "a")) as [a|]; [|discriminate].
  injection Hnew as <- <- <-. simpl.
  split; [apply allocate_square|]. split; [apply allocate_mirrored|].
  split; [|done]. intros i j e He. apply allocate_entry in He. by subst.
Qed.

End ConstructedPotential.

Lemma two_types_mirrored : mirrored (m_pair_params two_types).
Proof. change (m_pair_params two_types) with (allocate sevens 2 1). apply allocate_mirrored. Qed.



(** The request of types 1 and 2 on the two-type potential. *)
Lemma set_pair_parameters_touches_two_entries_witness :
  exists s' type_1 type_2,
    set_pair_parameters decimal request_1_2 two_types = Ret tt s' /\
    requested_types decimal request_1_2 = Some (type_1, type_2) /\
    (forall i j, ¬ targeted type_1 type_2 i j ->
                 pair_entry (m_pair_params s') i j
                 = pair_entry (m_pair_params two_types) i j) /\
    length <$> m_pair_params s' = length <$> m_pair_params two_types /\
    m_k s' = m_k two_types /\ m_a s' = m_a two_types /\ m_has_pair_params s' = true /\
    exists msgs, m_msg s' = m_msg two_types ++ msgs.
Proof.
  assert (H : set_pair_parameters decimal request_1_2 two_types
              = Ret tt (state_of (set_pair_parameters decimal request_1_2 two_types)))
    by (vm_compute; reflexivity).
  destruct (set_pair_parameters_touches_two_entries decimal request_1_2 two_types _ H)
    as (type_1 & type_2 & ?).
  eexists _, type_1, type_2. split; [exact H | assumption].
Defined.

Lemma set_pair_parameters_keeps_table_mirrored_witness :
  exists s', set_pair_parameters decimal request_1_2 two_types = Ret tt s' /\
             mirrored (m_pair_params s').
Proof.
  assert (H : set_pair_parameters decimal request_1_2 two_types
              = Ret tt (state_of (set_pair_parameters decimal request_1_2 two_types)))
    by (vm_compute; reflexivity).
  eexists. split; [exact H|].
  exact (set_pair_parameters_keeps_table_mirrored decimal request_1_2 two_types _
           two_types_mirrored H).
Defined.

(** The requests for range 3 with strength 5 and with strength 9 leave the
    same table. *)
Lemma set_pair_parameters_ignores_strength_witness :
  exists s1 s2,
    set_pair_parameters decimal request_1_2 two_types = Ret tt s1 /\
    set_pair_parameters decimal request_1_2_strength_9 two_types = Ret tt s2 /\
    m_pair_params s2 = m_pair_params s1.
Proof.
  assert (H1 : set_pair_parameters decimal request_1_2 two_types
               = Ret tt (state_of (set_pair_parameters decimal request_1_2 two_types)))
    by (vm_compute; reflexivity).
  assert (H2 : set_pair_parameters decimal request_1_2_strength_9 two_types
               = Ret tt (state_of (set_pair_parameters decimal request_1_2_strength_9
                                     two_types)))
    by (vm_compute; reflexivity).
  eexists _, _. split; [exact H1|]. split; [exact H2|].
  apply (set_pair_parameters_ignores_strength decimal request_1_2 request_1_2_strength_9
           two_types _ _); [reflexivity | reflexivity | reflexivity | exact H1 | exact H2].
Defined.

Lemma set_pair_parameters_twice_witness :
  exists s1 s2,
    set_pair_parameters decimal request_1_2 two_types = Ret tt s1 /\
    set_pair_parameters decimal request_1_2 s1 = Ret tt s2 /\
    m_pair_params s2 = m_pair_params s1.
Proof.
  assert (H : set_pair_parameters decimal request_1_2 two_types
              = Ret tt (state_of (set_pair_parameters decimal request_1_2 two_types)))
    by (vm_compute; reflexivity).
  destruct (set_pair_parameters_twice decimal request_1_2 two_types _ H) as (s2 & ?).
  eexists _, s2. split; [exact H | assumption].
Defined.

(** A potential for two types built with strength 4 and no range. *)
Lemma construct_leaves_uniform_table_witness :
  exists s u msgs',
    construct decimal sevens 2 parameters_strength_4 false false [] = Ret (s, u) msgs' /\
    m_k s = 4%float /\ m_a s = 2%float /\
    square 2 (m_pair_params s) /\
    (forall i j e, pair_entry (m_pair_params s) i j = Some e ->
                   e = SoftParameters.mk (m_k s) (sevens (Z.to_nat i) (Z.to_nat j))) /\
    m_has_pair_params s = false /\ u = true.
Proof.
  assert (H : exists s msgs',
             construct decimal sevens 2 parameters_strength_4 false false []
             = Ret (s, true) msgs' /\ m_k s = 4%float /\ m_a s = 2%float).
  { eexists _, _. split; [vm_compute; reflexivity|]. split; reflexivity. }
  destruct H as (s & msgs' & H & Hk & Ha).
  destruct (construct_leaves_uniform_table decimal sevens 2 parameters_strength_4
              false false [] s true msgs' H) as (_ & _ & Hsq & Hentries & Hflag & _).
  exists s, true, msgs'. repeat split; first [assumption | apply Hsq | reflexivity].
Defined.

(** The same potential after the request for range 3 given twice, with two
    different strengths. *)
Lemma requests_never_assign_a_witness :
  exists s u msgs' s',
    construct decimal sevens 2 parameters_strength_4 false false [] = Ret (s, u) msgs' /\
    for_each [request_1_2; request_1_2_strength_9] (set_pair_parameters decimal) s
    = Ret tt s' /\
    square 2 (m_pair_params s') /\ mirrored (m_pair_params s') /\
    (forall i j e, pair_entry (m_pair_params s') i j = Some e ->
                   SoftParameters.a e = sevens (Z.to_nat i) (Z.to_nat j)) /\
    m_k s' = m_k s /\ m_a s' = m_a s.
Proof.
  assert (H : exists s msgs' s',
             construct decimal sevens 2 parameters_strength_4 false false []
             = Ret (s, true) msgs' /\
             for_each [request_1_2; request_1_2_strength_9] (set_pair_parameters decimal) s
             = Ret tt s').
  { eexists _, _, _. split; vm_compute; reflexivity. }
  destruct H as (s & msgs' & s' & Hnew & Hrun).
  exists s, true, msgs', s'. split; [exact Hnew|]. split; [exact Hrun|].
  exact (requests_never_assign_a decimal sevens 2 parameters_strength_4 false false []
           s true msgs' _ s' Hnew Hrun).
Defined.

(** ** The integrator: actions and what they leave alone *)

Lemma keeps_ret {St A : Type} (R : St -> St -> Prop) `{!Reflexive R} (a : A) :
  keeps R (@ret St A a).
Proof. intros s. simpl. reflexivity. Qed.

Lemma keeps_raise {St A : Type} (R : St -> St -> Prop) `{!Reflexive R} f :
  keeps R (@raise St A f).
Proof. intros s. simpl. reflexivity. Qed.

Lemma keeps_bind_returns {St A B : Type} (R : St -> St -> Prop) `{!Transitive R}
    (m : M St A) (k : A -> M St B) :
  keeps R m -> (forall a, returns m a -> keeps R (k a)) -> keeps R (bind m k).
Proof.
  intros Hm Hk s. specialize (Hm s). unfold bind.
  destruct (m s) as [a s1|f s1] eqn:Hs; [|done].
  simpl in Hm. etrans; [exact Hm|]. apply Hk. by exists s, s1.
Qed.

Lemma keeps_bind {St A B : Type} (R : St -> St -> Prop) `{!Transitive R}
    (m : M St A) (k : A -> M St B) :
  keeps R m -> (forall a, keeps R (k a)) -> keeps R (bind m k).
Proof. intros Hm Hk. apply keeps_bind_returns; auto. Qed.

Lemma keeps_for_each {St A : Type} (R : St -> St -> Prop) `{!PreOrder R}
    (l : list A) (body : A -> M St unit) :
  (forall a, a ∈ l -> keeps R (body a)) -> keeps R (for_each l body).
Proof.
  induction l as [|a l IH]; intros Hbody.
  - apply keeps_ret, _.
  - simpl. apply keeps_bind; [apply _ | apply Hbody; by left |].
    intros _. apply IH. intros a' Hin. apply Hbody. by right.
Qed.

Lemma keeps_reading {St A : Type} (R : St -> St -> Prop) `{!Reflexive R} (m : M St A) :
  reading m -> keeps R m.
Proof. intros Hm s. by rewrite Hm. Qed.

Lemma reading_particle_index {Rng : Type} particles i :
  reading (@particle_index Rng particles i).
Proof. intros w. unfold particle_index. by destruct (lookupZ particles i). Qed.

Lemma reading_get_particle {Rng : Type} pi : reading (@get_particle Rng pi).
Proof. intros w. unfold get_particle. by destruct (lookupZ (sys_particles w) pi). Qed.

Lemma reading_read {Rng A : Type} (f : @World Rng -> A) : reading (read f).
Proof. by intros w. Qed.

Lemma reading_constrainer {Rng : Type} (self : @Integrator Rng) : reading (constrainer self).
Proof. intros w. unfold constrainer. by destruct (m_constrainer self). Qed.

Lemma reading_ret {St A : Type} (a : A) : reading (@ret St A a).
Proof. by intros s. Qed.

Lemma reading_bind {St A B : Type} (m : M St A) (k : A -> M St B) :
  reading m -> (forall a, reading (k a)) -> reading (bind m k).
Proof.
  intros Hm Hk s. specialize (Hm s). unfold bind.
  destruct (m s) as [a s1|f s1]; simpl in Hm; subst; [apply Hk | done].
Qed.

Lemma reading_find_boundary {Rng : Type} particles hit n : forall first b,
  reading (@find_boundary Rng particles hit first n b).
Proof.
  induction n as [|n IH]; intros first b; simpl; [apply reading_ret|].
  apply reading_bind; [apply reading_particle_index|]. intros pi.
  apply reading_bind; [apply reading_get_particle|]. intros p.
  destruct (hit (Particle.y p)); [apply reading_ret | apply IH].
Qed.

Lemma reading_read_pair {Rng : Type} particles ia ib :
  reading (@read_pair Rng particles ia ib).
Proof.
  unfold read_pair.
  repeat first [ apply reading_ret | apply reading_particle_index | apply reading_get_particle
               | apply reading_bind; [|intros ?] ].
Qed.

Lemma returns_particle_index {Rng : Type} particles i pi :
  returns (@particle_index Rng particles i) pi -> pi ∈ particles.
Proof.
  intros (w & w' & H). unfold particle_index in H.
  destruct (lookupZ particles i) as [pi'|] eqn:Hpi; [|discriminate].
  injection H as <- _. by eapply lookupZ_elem_of.
Qed.

Lemma lookupZ_alterZ {A : Type} (f : A -> A) (l : list A) i i' :
  lookupZ (alterZ f i l) i' = if decide (i' = i) then f <$> lookupZ l i' else lookupZ l i'.
Proof.
  unfold alterZ. destruct (Z.ltb_spec i 0) as [Hneg|Hpos]; [|by apply lookupZ_alter].
  destruct (decide (i' = i)) as [->|]; [|done].
  unfold lookupZ. destruct (Z.ltb_spec i 0); [done | lia].
Qed.

Section Relations.

Context {Rng : Type}.
Implicit Types (w : @World Rng) (particles : list Z).

#[global] Instance moved_only_preorder : PreOrder (@moved_only Rng).
Proof.
  split.
  - by intros w.
  - intros w1 w2 w3 (?&?&?&?&H12) (?&?&?&?&H23).
    repeat split; try congruence; intros pi; by rewrite H23, H12.
Qed.

#[global] Instance untouched_outside_preorder particles :
  PreOrder (@untouched_outside Rng particles).
Proof.
  split.
  - by intros w pi.
  - intros w1 w2 w3 H12 H23 pi Hpi. by rewrite H23, H12.
Qed.

#[global] Instance mesh_unaware_preorder : PreOrder (@mesh_unaware Rng).
Proof.
  split.
  - intros w. exists []. split; [by rewrite app_nil_r | apply not_elem_of_nil].
  - intros w1 w2 w3 (cs1 & E1 & H1) (cs2 & E2 & H2). exists (cs1 ++ cs2).
    split; [by rewrite E2, E1, app_assoc|]. rewrite elem_of_app. tauto.
Qed.


Lemma untouched_outside_update_particle particles pi (f : Particle.t -> Particle.t) :
  pi ∈ particles -> keeps (untouched_outside particles) (@update_particle Rng pi f).
Proof.
  intros Hin w pi' Hout. simpl. rewrite lookupZ_alterZ.
  destruct (decide (pi' = pi)) as [->|]; done.
Qed.

Lemma untouched_outside_store_reading {A : Type} particles (m : M (@World Rng) A) :
  store_reading m -> keeps (untouched_outside particles) m.
Proof. intros Hm w pi _. by rewrite Hm. Qed.

Lemma store_reading_call c : store_reading (@call Rng c).
Proof. by intros w. Qed.

Lemma store_reading_drnd self : store_reading (@drnd Rng self).
Proof. by intros w. Qed.

Lemma store_reading_gauss_rng self sigma : store_reading (@gauss_rng Rng self sigma).
Proof. by intros w. Qed.

Lemma store_reading_reading {A : Type} (m : M (@World Rng) A) : reading m -> store_reading m.
Proof. intros Hm w. by rewrite Hm. Qed.

Lemma mesh_unaware_call c : c <> Call_update_mesh -> keeps mesh_unaware (@call Rng c).
Proof.
  intros Hc w. exists [c]. split; [done|]. rewrite list_elem_of_singleton. congruence.
Qed.

Lemma mesh_unaware_store (g : list Particle.t -> list Particle.t) :
  keeps mesh_unaware (modify (fun w : @World Rng => set_particles (g (sys_particles w)) w)).
Proof. intros w. exists []. split; [by rewrite app_nil_r | apply not_elem_of_nil]. Qed.

Lemma mesh_unaware_update_particle pi f : keeps mesh_unaware (@update_particle Rng pi f).
Proof. apply mesh_unaware_store. Qed.

Lemma mesh_unaware_drnd self : keeps mesh_unaware (@drnd Rng self).
Proof.
  intros w. exists [Call_drnd]. split; [done|]. rewrite list_elem_of_singleton. congruence.
Qed.

Lemma mesh_unaware_gauss_rng self sigma : keeps mesh_unaware (@gauss_rng Rng self sigma).
Proof.
  intros w. exists [Call_gauss_rng sigma]. split; [done|].
  rewrite list_elem_of_singleton. congruence.
Qed.

End Relations.

(** Steps through an action built from the parts above. *)
Ltac keeps_step :=
  lazymatch goal with
  | |- keeps _ (ret _) => apply keeps_ret; apply _
  | |- keeps _ (raise _) => apply keeps_raise; apply _
  | |- keeps _ (particle_index _ _) =>
      apply keeps_reading; [apply _ | apply reading_particle_index]
  | |- keeps _ (get_particle _) =>
      apply keeps_reading; [apply _ | apply reading_get_particle]
  | |- keeps _ (find_boundary _ _ _ _ _) =>
      apply keeps_reading; [apply _ | apply reading_find_boundary]
  | |- keeps _ (read_pair _ _ _) =>
      apply keeps_reading; [apply _ | apply reading_read_pair]
  | |- keeps _ (constrainer _) =>
      apply keeps_reading; [apply _ | apply reading_constrainer]
  | |- keeps _ (read _) => apply keeps_reading; [apply _ | apply reading_read]
  | |- keeps _ (for_each _ _) => apply keeps_for_each; [apply _ | intros ? ?]
  | |- keeps _ (bind _ _) => apply keeps_bind; [apply _ | | intros ?]
  | |- keeps _ (if ?b then _ else _) => destruct b
  | |- keeps _ (match ?o with Some _ => _ | None => _ end) => destruct o
  end.


(** The same for the particles outside a group: every write goes to an
    index read from the group. *)
Ltac outside_step :=
  lazymatch goal with
  | |- keeps _ (bind (particle_index _ _) _) =>
      let Hin := fresh "Hin" in
      apply keeps_bind_returns;
      [ apply _
      | apply keeps_reading; [apply _ | apply reading_particle_index]
      | intros ? Hin; apply returns_particle_index in Hin ]
  | |- keeps _ (update_particle _ _) => apply untouched_outside_update_particle; assumption
  | |- keeps _ (call _) => apply untouched_outside_store_reading, store_reading_call
  | |- keeps _ (gauss_rng _ _) => apply untouched_outside_store_reading, store_reading_gauss_rng
  | |- keeps _ (drnd _) => apply untouched_outside_store_reading, store_reading_drnd
  | _ => keeps_step
  end.

(** The same for the notification of the mesh. *)
Ltac unaware_step :=
  lazymatch goal with
  | |- keeps _ (update_particle _ _) => apply mesh_unaware_update_particle
  | |- keeps _ (modify _) => apply mesh_unaware_store
  | |- keeps _ (call _) => apply mesh_unaware_call; discriminate
  | |- keeps _ (gauss_rng _ _) => apply mesh_unaware_gauss_rng
  | |- keeps _ (drnd _) => apply mesh_unaware_drnd
  | _ => keeps_step
  end.

Section PeriodicUpdateFrame.

Context {Rng : Type}.
Implicit Types (w : @World Rng) (particles : list Z).



End PeriodicUpdateFrame.

Section IntegrateFrame.

Context {Rng : Type}.
Variable self : @Integrator Rng.
Implicit Types (w : @World Rng) (particles : list Z).



Lemma untouched_outside_periodic_update particles :
  keeps (untouched_outside particles) (@periodic_update Rng particles).
Proof.
  unfold periodic_update, search_boundary, for_range, copy_shifted. repeat outside_step.
Qed.



End IntegrateFrame.

Section MeshNotification.

Context {Rng : Type}.
Variable self : @Integrator Rng.
Implicit Types (w : @World Rng) (particles : list Z).

Lemma mesh_unaware_integrate_core : keeps mesh_unaware (integrate_core self).
Proof.
  unfold integrate_core, prepare, reset_forces, reset_torques, flip_directors,
    compute_forces, compute_torques, integrate_particles, for_range, attempt_flip,
    integrate_particle, stochastic_kick, orientation_update.
  repeat unaware_step.
Qed.

Lemma mesh_unaware_periodic_update particles :
  keeps mesh_unaware (@periodic_update Rng particles).
Proof.
  unfold periodic_update, search_boundary, for_range, copy_shifted. repeat unaware_step.
Qed.

(** X12. The mesh is notified exactly when the call returns: a returning
    call ends with the one [update_mesh] it makes, and a call that stops on
    the way makes none. *)
Theorem mesh_is_notified_exactly_on_return w :
  match integrate self w with
  | Ret _ w' =>
      exists cs, calls w' = calls w ++ cs ++ [Call_update_mesh] /\ Call_update_mesh ∉ cs
  | Fail _ w' => exists cs, calls w' = calls w ++ cs /\ Call_update_mesh ∉ cs
  end.
Proof.
  unfold integrate, bind at 1, read at 1. unfold bind at 1.
  pose proof (mesh_unaware_integrate_core w) as Hcore.
  destruct (integrate_core self w) as [[] w1|f w1]; simpl in Hcore; [|done].
  unfold bind at 1.
  pose proof (mesh_unaware_periodic_update (sys_group w) w1) as Hpatch.
  destruct (periodic_update (sys_group w) w1) as [[] w2|f w2]; simpl in Hpatch.
  - destruct (transitivity Hcore Hpatch) as (cs & E & Hcs).
    exists cs. simpl. by rewrite E, app_assoc.
  - exact (transitivity Hcore Hpatch).
Qed.

End MeshNotification.

(** ** The periodic update on its own *)

Section PeriodicUpdateAlone.

Context {Rng : Type}.
Implicit Types (w : @World Rng) (particles : list Z).

Lemma bind_ret_tt {St : Type} (m : M St unit) s : (m ;; ret tt) s = m s.
Proof. unfold bind. by destruct (m s) as [[] s'|]. Qed.

Lemma reading_Ret {St A : Type} (m : M St A) s a s' : reading m -> m s = Ret a s' -> s' = s.
Proof. intros Hm H. specialize (Hm s). by rewrite H in Hm. Qed.

Lemma reading_search_boundary particles hit b :
  reading (@search_boundary Rng particles hit b).
Proof. apply reading_find_boundary. Qed.

(** When the update returns, it returns what the two copy loops return. *)
Lemma periodic_update_Ret_copy_images particles w u w' :
  periodic_update particles w = Ret u w' -> copy_images particles w = Ret tt w'.
Proof.
  unfold periodic_update, periodic_update_flag, update_boundary. intros H.
  apply bind_Ret_inv in H as (? & w1 & H1 & H).
  apply reading_Ret in H1 as ->; [|apply reading_search_boundary].
  apply bind_Ret_inv in H as (? & w1 & H1 & H).
  apply reading_Ret in H1 as ->; [|apply reading_search_boundary].
  apply bind_Ret_inv in H as (? & w1 & H1 & H).
  apply reading_Ret in H1 as ->; [|apply reading_read_pair]. cbv zeta in H.
  apply bind_Ret_inv in H as (? & w1 & H1 & H).
  apply reading_Ret in H1 as ->; [|apply reading_search_boundary].
  apply bind_Ret_inv in H as (? & w1 & H1 & H).
  apply reading_Ret in H1 as ->; [|apply reading_search_boundary].
  apply bind_Ret_inv in H as (? & w1 & H1 & H).
  apply reading_Ret in H1 as ->; [|apply reading_read_pair]. cbv zeta in H.
  destruct u. unfold copy_images. rewrite <- H. unfold bind.
  destruct (for_range up_internal_index_start _ _ w) as [[] w1|]; [|done].
  by destruct (for_range down_internal_index_start _ _ w1) as [[] w2|].
Qed.

(** On a group of at least 2904 valid indices the searches run through. *)
Lemma periodic_update_as_copy_images particles w :
  group_valid particles (sys_particles w) -> 2904 <= Z.of_nat (length particles) ->
  periodic_update particles w = copy_images particles w.
Proof.
  intros Hvalid Hlen.
  destruct periodic_constants
    as (Hi0 & Hie & Hus & Hue & Hds & Hde & Hrs & Hre & Hls & Hle).
  unfold periodic_update, periodic_update_flag, update_boundary.
  destruct (search_boundary_Ret particles (fun y => y <=? length_period / 2)%float
              right_boundary_start_init w Hvalid) as (rbs & Hrbs & ?); [lia | lia |].
  rewrite (bind_Ret _ _ _ _ _ Hrbs).
  destruct (search_boundary_Ret particles (fun y => y <=? - length_period / 2)%float
              right_boundary_end_init w Hvalid) as (rbe & Hrbe & ?); [lia | lia |].
  rewrite (bind_Ret _ _ _ _ _ Hrbe).
  destruct (read_pair_Ret particles rbs rbe w Hvalid) as (p12 & Hp12); [lia | lia |].
  rewrite (bind_Ret _ _ _ _ _ Hp12). cbv zeta.
  destruct (search_boundary_Ret particles (fun y => - length_period / 2 <=? y)%float
              left_boundary_start_init w Hvalid) as (lbs & Hlbs & ?); [lia | lia |].
  rewrite (bind_Ret _ _ _ _ _ Hlbs).
  destruct (search_boundary_Ret particles (fun y => length_period / 2 <=? y)%float
              left_boundary_end_init w Hvalid) as (lbe & Hlbe & ?); [lia | lia |].
  rewrite (bind_Ret _ _ _ _ _ Hlbe).
  destruct (read_pair_Ret particles lbs lbe w Hvalid) as (p34 & Hp34); [lia | lia |].
  rewrite (bind_Ret _ _ _ _ _ Hp34). cbv zeta.
  unfold copy_images, bind.
  destruct (for_range up_internal_index_start _ _ w) as [[] w1|]; [|done].
  by destruct (for_range down_internal_index_start _ _ w1) as [[] w2|].
Qed.

(** X13. The four boundary searches and the two tests of lines 144-208 have
    no effect on what the periodic update leaves behind.  When the update
    returns, it returns what the two copy loops of lines 210-234 return on
    their own; and on a group of at least 2904 valid indices the update and
    the two loops have the same outcome. *)
Theorem boundary_searches_change_nothing particles w :
  (forall u w', periodic_update particles w = Ret u w' ->
                copy_images particles w = Ret tt w') /\
  (group_valid particles (sys_particles w) -> 2904 <= Z.of_nat (length particles) ->
   periodic_update particles w = copy_images particles w).
Proof.
  split.
  - intros u w'. apply periodic_update_Ret_copy_images.
  - apply periodic_update_as_copy_images.
Qed.

End PeriodicUpdateAlone.

Section PeriodicUpdateTwice.

Context {Rng : Type}.
Implicit Types (w : @World Rng) (particles : list Z).

Lemma copy_position_twice p0 shift p :
  copy_position p0 shift (copy_position p0 shift p) = copy_position p0 shift p.
Proof. reflexivity. Qed.

Lemma lookupZ_ext {A : Type} (l l' : list A) :
  (forall i, lookupZ l' i = lookupZ l i) -> l' = l.
Proof.
  intros H. apply list_eq. intros n. specialize (H (Z.of_nat n)). unfold lookupZ in H.
  destruct (Z.ltb_spec (Z.of_nat n) 0); [lia|]. by rewrite Nat2Z.id in H.
Qed.

Lemma elem_of_lookupZ {A : Type} (l : list A) v : v ∈ l -> exists i, lookupZ l i = Some v.
Proof.
  intros [n Hn]%list_elem_of_lookup. exists (Z.of_nat n). unfold lookupZ.
  destruct (Z.ltb_spec (Z.of_nat n) 0); [lia|]. by rewrite Nat2Z.id.
Qed.

(** X14. The periodic update is idempotent: on a duplicate-free group of
    valid indices, once it has returned, running it again returns and
    changes nothing at all. *)
Theorem periodic_update_twice particles w w1 :
  NoDup particles -> group_valid particles (sys_particles w) ->
  periodic_update particles w = Ret tt w1 ->
  periodic_update particles w1 = Ret tt w1.
Proof.
  intros Hnd Hvalid H.
  pose proof (periodic_update_Ret_length particles w tt w1 H) as Hlen.
  destruct (periodic_update_Ret particles w Hnd Hvalid Hlen)
    as (ps1 & Hrun1 & Hlen1 & Hcopy1 & Hframe1).
  rewrite Hrun1 in H. injection H as <-.
  assert (Hvalid1 : group_valid particles
                      (sys_particles (evolve w ps1 (rng_state w) []))).
  { simpl. by eapply group_valid_same_length. }
  destruct (periodic_update_Ret particles _ Hnd Hvalid1 Hlen)
    as (ps2 & Hrun2 & Hlen2 & Hcopy2 & Hframe2).
  simpl in Hrun2, Hlen2, Hcopy2, Hframe2.
  rewrite Hrun2, evolve_evolve. assert (ps2 = ps1) as ->; [|done].
  apply lookupZ_ext. intros pi.
  destruct (decide (pi ∈ particles)) as [Hin|Hout].
  - apply elem_of_lookupZ in Hin as [i Hi].
    assert (Hgroup : group_particle ps2 particles i = group_particle ps1 particles i).
    { destruct (decide (968 <= i < 2904)) as [Hi'|Hi']; [|by apply Hframe2].
      destruct (decide (i < 1936)).
      - replace i with (968 + (i - 968)) by lia.
        destruct (Hcopy2 (i - 968)) as [-> _]; [lia|].
        destruct (Hcopy1 (i - 968)) as [-> _]; [lia|].
        rewrite (Hframe1 (i - 968)) by lia.
        destruct (group_particle (sys_particles w) particles (i - 968)) as [p0|]; [|done].
        simpl. by destruct (group_particle (sys_particles w) particles (968 + (i - 968))).
      - replace i with (1936 + (i - 1936)) by lia.
        destruct (Hcopy2 (i - 1936)) as [_ ->]; [lia|].
        destruct (Hcopy1 (i - 1936)) as [_ ->]; [lia|].
        rewrite (Hframe1 (i - 1936)) by lia.
        destruct (group_particle (sys_particles w) particles (i - 1936)) as [p0|]; [|done].
        simpl. by destruct (group_particle (sys_particles w) particles (1936 + (i - 1936))). }
    unfold group_particle in Hgroup. by rewrite Hi in Hgroup.
  - pose proof (untouched_outside_periodic_update particles
                  (evolve w ps1 (rng_state w) []) pi Hout) as Hpi.
    by rewrite Hrun2 in Hpi.
Qed.

End PeriodicUpdateTwice.

Section FlipTwice.

Context {Rng : Type}.
Variable self : @Integrator Rng.

Lemma opp_opp (x : double) : (- - x)%float = x.
Proof.
  apply Prim2SF_inj. rewrite !opp_spec. destruct (Prim2SF x) as [[]|[]| |[]]; reflexivity.
Qed.

(** X15. The flip of the nematic mode is its own inverse: a particle that
    is flipped twice has, bit for bit, the director and the velocity it
    had, and every other field. *)
Theorem flip_twice (p : Particle.t) : flip self (flip self p) = p.
Proof.
  unfold flip. destruct (m_velocity self), p;
    unfold negate_velocity, negate_director; simpl; by rewrite !opp_opp.
Qed.

End FlipTwice.

(** ** The calls of a step *)

Section CallProtocol.

Context {Rng : Type}.
Variable self : @Integrator Rng.
Implicit Types (w : @World Rng) (particles : list Z).

Lemma integrate_particle_calls T B sqrt_dt pi w u w' :
  integrate_particle self T B sqrt_dt pi w = Ret u w' ->
  exists dtheta, advances w w' (iteration_calls (0 <? T)%float (m_velocity self) pi dtheta).
Proof.
  intros H.
  pose proof (integrate_particle_inv self T B sqrt_dt pi w w' u H)
    as (c & p & _ & _ & _ & Hc & Hp & _).
  pose proof (stochastic_kick_run self T B sqrt_dt pi
                (evolve w (<[Z.to_nat pi := drift_update self p]> (sys_particles w))
                   (rng_state w) []) (drift_update self p)) as Hkick.
  simpl in Hkick. specialize (Hkick (lookupZ_insert_eq _ _ _ _ Hp)).
  unfold iteration_calls. destruct (0 <? T)%float.
  - eassert (Hrun : integrate_particle self T B sqrt_dt pi w = Ret tt (evolve w _ _ _)).
    { unfold integrate_particle. run_get. run_update.
      run ltac:(exact Hkick). rewrite ?evolve_evolve, ?list_insert_insert_eq.
      erewrite orientation_update_run by (simpl; eauto using lookupZ_insert_eq).
      rewrite ?evolve_evolve. simpl sys_particles. rewrite ?list_insert_insert_eq.
      reflexivity. }
    rewrite Hrun in H. injection H as _ <-. eexists. eexists _, _. reflexivity.
  - eassert (Hrun : integrate_particle self T B sqrt_dt pi w = Ret tt (evolve w _ _ _)).
    { unfold integrate_particle. run_get. run_update.
      run ltac:(exact Hkick).
      erewrite orientation_update_run by (simpl; eauto using lookupZ_insert_eq).
      rewrite ?evolve_evolve. simpl sys_particles. rewrite ?list_insert_insert_eq.
      reflexivity. }
    rewrite Hrun in H. injection H as _ <-. eexists. eexists _, _. reflexivity.
Qed.

Lemma main_loop_calls T B sqrt_dt (l : list Z) : forall w u w',
  for_each l (integrate_particle self T B sqrt_dt) w = Ret u w' ->
  exists dthetas,
    length dthetas = length l /\
    advances w w'
      (concat (zip_with (iteration_calls (0 <? T)%float (m_velocity self)) l dthetas)).
Proof.
  induction l as [|pi l IH]; intros w u w' H.
  - injection H as _ <-. exists []. split; [done|].
    exists (sys_particles w), (rng_state w). by rewrite evolve_id.
  - simpl in H. apply bind_Ret_inv in H as (u1 & w1 & H1 & H).
    apply integrate_particle_calls in H1 as (dtheta & H1).
    apply IH in H as (dthetas & Hlen & H).
    exists (dtheta :: dthetas). split; [simpl; congruence|].
    simpl. by eapply advances_trans.
Qed.

Lemma compute_forces_calls w u w' :
  compute_forces self w = Ret u w' ->
  advances w w' (if m_potential self is Some _ then [Call_potential_compute (m_dt self)]
                 else []).
Proof.
  unfold compute_forces. destruct (m_potential self) as [compute|].
  - intros [= <-]. by eexists _, _.
  - intros [= <-]. exists (sys_particles w), (rng_state w). by rewrite evolve_id.
Qed.

Lemma compute_torques_calls w u w' :
  compute_torques self w = Ret u w' ->
  advances w w' (if m_align self is Some _ then [Call_align_compute] else []).
Proof.
  unfold compute_torques. destruct (m_align self) as [compute|].
  - intros [= <-]. by eexists _, _.
  - intros [= <-]. exists (sys_particles w), (rng_state w). by rewrite evolve_id.
Qed.

Lemma prepare_calls particles w u w' :
  prepare self (Z.of_nat (length particles)) particles w = Ret u w' ->
  advances w w'
    ([Call_reset_forces; Call_reset_torques]
     ++ (if m_nematic self then replicate (length particles) Call_drnd else [])
     ++ (if m_potential self is Some _ then [Call_potential_compute (m_dt self)] else [])
     ++ (if m_align self is Some _ then [Call_align_compute] else [])).
Proof.
  unfold prepare. intros H.
  rewrite (bind_Ret _ _ _ _ _ (reset_forces_run w)) in H.
  rewrite (bind_Ret _ _ _ _ _ (reset_torques_run _)) in H.
  rewrite evolve_evolve in H.
  apply bind_Ret_inv in H as (u1 & w1 & H1 & H).
  apply flip_directors_inv in H1.
  apply bind_Ret_inv in H as (u2 & w2 & H2 & H).
  apply compute_forces_calls in H2. apply compute_torques_calls in H.
  eapply advances_trans; [by eexists _, _|].
  eapply advances_trans; [exact H1|]. by eapply advances_trans.
Qed.

End CallProtocol.

Section CallProtocolOfIntegrate.

Context {Rng : Type}.
Variable self : @Integrator Rng.
Implicit Types (w : @World Rng) (particles : list Z).

(** X16. The calls that a returning [integrate] makes on its collaborators,
    in order: the two resets; one uniform draw per particle of the group in
    nematic mode; the potential and the alignment, each if set; then for
    each particle of the group, in the group's order, the three Gaussian
    draws of the kick when the temperature is positive, [enforce],
    [project_torque], one Gaussian draw, [rotate_director] and, when the
    velocity is tracked, [rotate_velocity] by the same angle; and the
    notification of the mesh last. *)
Theorem integrate_call_protocol w u w' :
  integrate self w = Ret u w' ->
  exists dthetas,
    length dthetas = length (sys_group w) /\
    calls w' = calls w ++ step_calls self (m_temp self (sys_run_step w)) (sys_group w) dthetas.
Proof.
  intros H.
  destruct (integrate_Ret_core self w u w' H) as [w1 Hcore].
  rewrite (integrate_after_core self w w1 Hcore) in H.
  pose proof (patching_periodic_update (sys_group w) w1) as Hpatch.
  destruct (periodic_update (sys_group w) w1) as [[] w2|]; [|discriminate].
  destruct Hpatch as (_ & _ & _ & Hcalls2 & _). injection H as _ <-.
  rewrite integrate_core_run in Hcore.
  apply bind_Ret_inv in Hcore as (u0 & w0 & Hprep & Hloop).
  apply prepare_calls, advances_calls in Hprep.
  apply main_loop_calls in Hloop as (dthetas & Hlen & Hloop).
  apply advances_calls in Hloop.
  exists dthetas. split; [done|]. unfold step_calls. simpl.
  rewrite Hcalls2, Hloop, Hprep. by rewrite <- !app_assoc.
Qed.

End CallProtocolOfIntegrate.

(** ** Examples for the further properties *)

Lemma row_group_valid : group_valid (sys_group row) (sys_particles row).
Proof. exact (proj1 (Forall_forall _ _) row_valid). Qed.


(** On the row of 2904 the update and the two loops have the same outcome. *)
Lemma boundary_searches_change_nothing_witness :
  periodic_update (sys_group row) row = copy_images (sys_group row) row.
Proof.
  exact (proj2 (boundary_searches_change_nothing (sys_group row) row)
           row_group_valid row_length).
Defined.

(** The periodic update on the row of 2904, twice. *)
Lemma periodic_update_twice_witness :
  exists w1,
    periodic_update (sys_group row) row = Ret tt w1 /\
    periodic_update (sys_group row) w1 = Ret tt w1.
Proof.
  destruct (periodic_update_Ret (sys_group row) row row_NoDup row_group_valid row_length)
    as (ps' & H & _).
  eexists. split; [exact H|].
  exact (periodic_update_twice (sys_group row) row _ row_NoDup row_group_valid H).
Defined.

(** The calls of a plain step on the row of 2904. *)
Lemma integrate_call_protocol_witness :
  exists w' dthetas,
    integrate (brownian 0 false false (Some flat_plane)) row = Ret tt w' /\
    length dthetas = length (sys_group row) /\
    calls w'
    = calls row ++ step_calls (brownian 0 false false (Some flat_plane)) 0 (sys_group row)
                     dthetas.
Proof.
  destruct row_run as (w1 & w' & _ & Hrun).
  destruct (integrate_call_protocol (brownian 0 false false (Some flat_plane)) row tt w' Hrun)
    as (dthetas & Hlen & Hcalls).
  exists w', dthetas. split; [exact Hrun|]. split; [exact Hlen | exact Hcalls].
Defined.

(** ** The flip loop as a whole *)

Section FlipLoop.

Context {Rng : Type}.
Variable self : @Integrator Rng.
Implicit Types (w : @World Rng) (particles : list Z).

Lemma lookupZ_cons_0 {A : Type} (a : A) l : lookupZ (a :: l) 0 = Some a.
Proof. reflexivity. Qed.

Lemma lookupZ_cons_succ {A : Type} (a : A) l i :
  0 <= i -> lookupZ (a :: l) (i + 1) = lookupZ l i.
Proof.
  intros Hi. unfold lookupZ.
  destruct (Z.ltb_spec (i + 1) 0); [lia|]. destruct (Z.ltb_spec i 0); [lia|].
  replace (Z.to_nat (i + 1)) with (S (Z.to_nat i)) by lia. done.
Qed.

Lemma after_draws_succ n g :
  after_draws self n (snd (m_rng_drnd self g)) = after_draws self (S n) g.
Proof. unfold after_draws. by rewrite Nat.iter_succ_r. Qed.

Lemma untouched_outside_attempt_flip particles pi :
  pi ∈ particles -> keeps (untouched_outside particles) (attempt_flip self pi).
Proof. intros Hin. unfold attempt_flip. repeat outside_step. Qed.

Lemma untouched_outside_flip_loop (l : list Z) :
  keeps (untouched_outside l) (for_each l (attempt_flip self)).
Proof.
  apply keeps_for_each; [apply _|]. intros pi Hin. by apply untouched_outside_attempt_flip.
Qed.

(** The flip loop on a duplicate-free list of valid indices. *)
Lemma flip_loop_run (l : list Z) : forall w,
  NoDup l -> group_valid l (sys_particles w) ->
  exists ps',
    for_each l (attempt_flip self) w
    = Ret tt (evolve w ps' (after_draws self (length l) (rng_state w))
                (replicate (length l) Call_drnd)) /\
    length ps' = length (sys_particles w) /\
    (forall pi, pi ∉ l -> lookupZ ps' pi = lookupZ (sys_particles w) pi) /\
    (forall i, 0 <= i < Z.of_nat (length l) ->
       group_particle ps' l i
       = (fun p => if (nth_draw self (Z.to_nat i) (rng_state w) <? m_tau self)%float
                   then flip self p else p)
         <$> group_particle (sys_particles w) l i).
Proof.
  induction l as [|pi l IH]; intros w Hnd Hvalid.
  - exists (sys_particles w). simpl. rewrite evolve_id.
    repeat split; try done. intros i Hi. simpl in Hi. lia.
  - apply NoDup_cons in Hnd as [Hpi Hnd].
    destruct (Hvalid pi) as [p Hp]; [by left|].
    pose proof (attempt_flip_run self pi w) as Hstep. rewrite Hp in Hstep. cbv zeta in Hstep.
    set (u := m_rng_drnd self (rng_state w)) in *.
    set (ps1 := if (fst u <? m_tau self)%float
                then <[Z.to_nat pi := flip self p]> (sys_particles w)
                else sys_particles w) in *.
    assert (Hlen1 : length ps1 = length (sys_particles w)).
    { subst ps1. destruct (fst u <? m_tau self)%float; [apply length_insert | done]. }
    destruct (IH (evolve w ps1 (snd u) [Call_drnd]) Hnd)
      as (ps' & Hrest & Hlen & Hframe & Hflips).
    { simpl. eapply group_valid_same_length; [exact Hlen1|].
      intros pi' Hin. apply Hvalid. by right. }
    simpl in Hrest, Hlen, Hframe, Hflips.
    exists ps'. split; [|split; [congruence|split]].
    + simpl. rewrite (bind_Ret _ _ _ _ _ Hstep), Hrest, evolve_evolve.
      unfold u. by rewrite after_draws_succ.
    + intros pi' Hout. apply not_elem_of_cons in Hout as [Hne Hout].
      rewrite (Hframe pi' Hout). subst ps1.
      destruct (fst u <? m_tau self)%float; [|done].
      apply lookupZ_insert_ne; [by eapply lookupZ_Some_nonneg | done].
    + intros i Hi. simpl length in Hi.
      assert (Hps1 : forall pi', pi' <> pi -> lookupZ ps1 pi' = lookupZ (sys_particles w) pi').
      { intros pi' Hne. subst ps1. destruct (fst u <? m_tau self)%float; [|done].
        apply lookupZ_insert_ne; [by eapply lookupZ_Some_nonneg | done]. }
      destruct (decide (i = 0)) as [->|Hi0].
      * unfold group_particle. rewrite lookupZ_cons_0. simpl.
        rewrite (Hframe pi Hpi), Hp. simpl. unfold nth_draw, after_draws. simpl.
        fold u. subst ps1. destruct (fst u <? m_tau self)%float; [|done].
        by rewrite (lookupZ_insert_eq _ _ _ _ Hp).
      * replace i with ((i - 1) + 1) by lia.
        unfold group_particle. rewrite lookupZ_cons_succ by lia.
        specialize (Hflips (i - 1)). unfold group_particle in Hflips.
        destruct (lookupZ l (i - 1)) as [pi'|] eqn:Hpi'; simpl in *; [|done].
        rewrite Hflips by lia. rewrite Hps1.
        2:{ intros ->. apply Hpi. by eapply lookupZ_elem_of. }
        unfold nth_draw, u. rewrite after_draws_succ.
        by replace (Z.to_nat (i - 1 + 1)) with (S (Z.to_nat (i - 1))) by lia.
Qed.

(** X19. The flip loop of the nematic mode on a duplicate-free group of
    valid indices: it returns after one uniform draw per particle; the
    particle at position [i] of the group is flipped exactly when the
    [i]-th sample of the stream is below [m_tau]; particles outside the
    group are not touched. *)
Theorem flip_directors_follow_the_stream particles w :
  m_nematic self = true -> NoDup particles -> group_valid particles (sys_particles w) ->
  exists ps',
    flip_directors self (Z.of_nat (length particles)) particles w
    = Ret tt (evolve w ps' (after_draws self (length particles) (rng_state w))
                (replicate (length particles) Call_drnd)) /\
    (forall i, 0 <= i < Z.of_nat (length particles) ->
       group_particle ps' particles i
       = (fun p => if (nth_draw self (Z.to_nat i) (rng_state w) <? m_tau self)%float
                   then flip self p else p)
         <$> group_particle (sys_particles w) particles i) /\
    (forall pi, pi ∉ particles -> lookupZ ps' pi = lookupZ (sys_particles w) pi).
Proof.
  intros Hnematic Hnd Hvalid.
  destruct (flip_loop_run particles w Hnd Hvalid) as (ps' & Hrun & _ & Hframe & Hflips).
  exists ps'. split; [|done].
  unfold flip_directors. rewrite Hnematic. by rewrite for_range_particles.
Qed.

End FlipLoop.

(** The flip loop at the first of two particles: the first sample, 0.25, is
    below [m_tau = 0.5]. *)
Lemma flip_directors_follow_the_stream_witness :
  exists ps',
    flip_directors (thermal 1) (Z.of_nat (length (sys_group one_of_two)))
      (sys_group one_of_two) one_of_two
    = Ret tt (evolve one_of_two ps'
                (after_draws (thermal 1) (length (sys_group one_of_two))
                   (rng_state one_of_two))
                (replicate (length (sys_group one_of_two)) Call_drnd)) /\
    (forall i, 0 <= i < Z.of_nat (length (sys_group one_of_two)) ->
       group_particle ps' (sys_group one_of_two) i
       = (fun p => if (nth_draw (thermal 1) (Z.to_nat i) (rng_state one_of_two)
                       <? m_tau (thermal 1))%float
                   then flip (thermal 1) p else p)
         <$> group_particle (sys_particles one_of_two) (sys_group one_of_two) i) /\
    (forall pi, pi ∉ sys_group one_of_two ->
                lookupZ ps' pi = lookupZ (sys_particles one_of_two) pi).
Proof.
  apply (flip_directors_follow_the_stream (thermal 1) (sys_group one_of_two) one_of_two).
  - reflexivity.
  - apply NoDup_singleton.
  - intros pi Hin. apply list_elem_of_singleton in Hin. rewrite Hin. by eexists.
Defined.

(** ** When [integrate] returns *)

Section IntegrateReturns.

Context {Rng : Type}.
Variable self : @Integrator Rng.
Implicit Types (w : @World Rng) (particles : list Z).




End IntegrateReturns.

(** ** The generator after a step *)

Section GeneratorAfterStep.

Context {Rng : Type}.
Variable self : @Integrator Rng.
Implicit Types (w : @World Rng) (particles : list Z).

Lemma after_gauss_add n n' g :
  after_gauss self n' (after_gauss self n g) = after_gauss self (n + n') g.
Proof. unfold after_gauss. by rewrite Nat.add_comm, Nat.iter_add. Qed.

Lemma integrate_particle_generator T B sqrt_dt pi w u w' :
  integrate_particle self T B sqrt_dt pi w = Ret u w' ->
  rng_state w' = after_gauss self (if (0 <? T)%float then 4 else 1) (rng_state w).
Proof.
  intros H.
  pose proof (integrate_particle_inv self T B sqrt_dt pi w w' u H)
    as (c & p & _ & _ & _ & Hc & Hp & _).
  pose proof (stochastic_kick_run self T B sqrt_dt pi
                (evolve w (<[Z.to_nat pi := drift_update self p]> (sys_particles w))
                   (rng_state w) []) (drift_update self p)) as Hkick.
  simpl in Hkick. specialize (Hkick (lookupZ_insert_eq _ _ _ _ Hp)).
  destruct (0 <? T)%float.
  - eassert (Hrun : integrate_particle self T B sqrt_dt pi w = Ret tt (evolve w _ _ _)).
    { unfold integrate_particle. run_get. run_update.
      run ltac:(exact Hkick). rewrite ?evolve_evolve, ?list_insert_insert_eq.
      erewrite orientation_update_run by (simpl; eauto using lookupZ_insert_eq).
      rewrite ?evolve_evolve. simpl sys_particles. rewrite ?list_insert_insert_eq.
      reflexivity. }
    rewrite Hrun in H. injection H as _ <-. reflexivity.
  - eassert (Hrun : integrate_particle self T B sqrt_dt pi w = Ret tt (evolve w _ _ _)).
    { unfold integrate_particle. run_get. run_update.
      run ltac:(exact Hkick).
      erewrite orientation_update_run by (simpl; eauto using lookupZ_insert_eq).
      rewrite ?evolve_evolve. simpl sys_particles. rewrite ?list_insert_insert_eq.
      reflexivity. }
    rewrite Hrun in H. injection H as _ <-. reflexivity.
Qed.

Lemma main_loop_generator T B sqrt_dt (l : list Z) : forall w u w',
  for_each l (integrate_particle self T B sqrt_dt) w = Ret u w' ->
  rng_state w'
  = after_gauss self ((if (0 <? T)%float then 4 else 1) * length l) (rng_state w).
Proof.
  induction l as [|pi l IH]; intros w u w' H.
  - injection H as _ <-. by rewrite Nat.mul_0_r.
  - simpl in H. apply bind_Ret_inv in H as (u1 & w1 & H1 & H).
    apply integrate_particle_generator in H1. apply IH in H.
    rewrite H, H1, after_gauss_add. f_equal. simpl length. lia.
Qed.

Lemma flip_loop_generator (l : list Z) : forall w u w',
  for_each l (attempt_flip self) w = Ret u w' ->
  rng_state w' = after_draws self (length l) (rng_state w).
Proof.
  induction l as [|pi l IH]; intros w u w' H.
  - by injection H as _ <-.
  - simpl in H. apply bind_Ret_inv in H as (u1 & w1 & H1 & H).
    rewrite attempt_flip_run in H1.
    destruct (lookupZ (sys_particles w) pi); [|discriminate].
    injection H1 as _ <-. apply IH in H. rewrite H. simpl rng_state.
    apply after_draws_succ.
Qed.

Lemma prepare_generator particles w u w' :
  prepare self (Z.of_nat (length particles)) particles w = Ret u w' ->
  rng_state w'
  = if m_nematic self then after_draws self (length particles) (rng_state w)
    else rng_state w.
Proof.
  unfold prepare. intros H.
  rewrite (bind_Ret _ _ _ _ _ (reset_forces_run w)) in H.
  rewrite (bind_Ret _ _ _ _ _ (reset_torques_run _)) in H.
  apply bind_Ret_inv in H as (u1 & w1 & H1 & H).
  apply bind_Ret_inv in H as (u2 & w2 & H2 & H).
  assert (rng_state w' = rng_state w1) as ->.
  { unfold compute_forces in H2. unfold compute_torques in H.
    destruct (m_potential self), (m_align self);
      injection H2 as _ <-; by injection H as _ <-. }
  unfold flip_directors in H1. destruct (m_nematic self).
  - rewrite for_range_particles in H1. by apply flip_loop_generator in H1.
  - by injection H1 as _ <-.
Qed.

(** X21. The state in which a returning [integrate] leaves the generator
    depends on the state it found it in, on the size of the group, on the
    nematic flag and on whether the temperature is positive, and on nothing
    else: it is the state after one uniform draw per particle in nematic
    mode, followed by four Gaussian draws per particle when [T > 0] and one
    otherwise. *)
Theorem generator_after_integrate w u w' :
  integrate self w = Ret u w' ->
  let N := length (sys_group w) in
  rng_state w'
  = after_gauss self
      ((if (0 <? m_temp self (sys_run_step w))%float then 4 else 1) * N)
      (if m_nematic self then after_draws self N (rng_state w) else rng_state w).
Proof.
  intros H N.
  destruct (integrate_Ret_core self w u w' H) as [w1 Hcore].
  rewrite (integrate_after_core self w w1 Hcore) in H.
  pose proof (patching_periodic_update (sys_group w) w1) as Hpatch.
  destruct (periodic_update (sys_group w) w1) as [[] w2|]; [|discriminate].
  destruct Hpatch as (_ & _ & Hrng2 & _). injection H as _ <-. simpl. rewrite Hrng2.
  rewrite integrate_core_run in Hcore.
  apply bind_Ret_inv in Hcore as (u0 & w0 & Hprep & Hloop).
  apply prepare_generator in Hprep. apply main_loop_generator in Hloop.
  by rewrite Hloop, Hprep.
Qed.

End GeneratorAfterStep.

(** A plain step on the row of 2904 at zero temperature: the generator is
    left as 2904 Gaussian draws leave it. *)
Lemma generator_after_integrate_witness :
  exists w',
    integrate (brownian 0 false false (Some flat_plane)) row = Ret tt w' /\
    rng_state w'
    = after_gauss (brownian 0 false false (Some flat_plane))
        (1 * length (sys_group row)) (rng_state row).
Proof.
  destruct row_run as (w1 & w' & _ & Hrun). exists w'. split; [exact Hrun|].
  exact (generator_after_integrate (brownian 0 false false (Some flat_plane)) row tt w' Hrun).
Defined.

(** ** The mesh *)

Lemma wrap_int_succ a : wrap_int (wrap_int a + 1) = wrap_int (a + 1).
Proof.
  unfold wrap_int. f_equal.
  replace ((a + 2 ^ 31) `mod` 2 ^ 32 - 2 ^ 31 + 1 + 2 ^ 31)
    with ((a + 2 ^ 31) `mod` 2 ^ 32 + 1) by lia.
  rewrite Zplus_mod_idemp_l. f_equal. lia.
Qed.

Lemma wrap_int_small a : - 2 ^ 31 <= a < 2 ^ 31 -> wrap_int a = a.
Proof. intros Ha. unfold wrap_int. rewrite Z.mod_small; lia. Qed.

Section MeshProperties.

Context {Vertex Edge Face : Type}.
Variable vertex_class : VertexClass Vertex.
Implicit Types (m : @Mesh.t Vertex Edge Face) (p : MeshParticle).

Lemma assign_vertex_run i f m :
  Mesh.assign_vertex i f m
  = if decide (0 <= i < Z.of_nat (length (Mesh.m_vertices m)))
    then Ret tt (Mesh.set_vertices (alterZ f i (Mesh.m_vertices m)) m)
    else Fail IndexOutOfRange m.
Proof.
  unfold Mesh.assign_vertex.
  pose proof (lookupZ_is_Some (Mesh.m_vertices m) i) as Hi.
  destruct (lookupZ (Mesh.m_vertices m) i) as [v|].
  - rewrite decide_True; [done|]. apply Hi. eauto.
  - rewrite decide_False; [done|]. intros Hin. apply Hi in Hin as [? ?]. discriminate.
Qed.

Lemma length_alterZ {A : Type} (f : A -> A) i (l : list A) : length (alterZ f i l) = length l.
Proof. unfold alterZ. destruct (i <? 0); [done | apply length_alter]. Qed.

Lemma update_run p m :
  Mesh.update vertex_class p m
  = if decide (0 <= get_id p < Z.of_nat (length (Mesh.m_vertices m)))
    then Ret tt (Mesh.set_vertices
                   (alterZ (fun v => assign_type vertex_class (get_type p)
                                       (assign_r vertex_class
                                          (Particle.x (at_particle p),
                                           Particle.y (at_particle p),
                                           Particle.z (at_particle p)) v))
                      (get_id p) (Mesh.m_vertices m)) m)
    else Fail IndexOutOfRange m.
Proof.
  unfold Mesh.update, bind. rewrite assign_vertex_run.
  destruct (decide _) as [Hin|Hout]; [|done].
  rewrite assign_vertex_run. simpl. rewrite length_alterZ, decide_True by done.
  f_equal. unfold Mesh.set_vertices. simpl. f_equal.
  unfold alterZ. destruct (get_id p <? 0); [done|]. by rewrite list_alter_alter_eq.
Qed.

Lemma perform_run o m m' u :
  Mesh.perform vertex_class o m = Ret u m' ->
  Mesh.m_size m' = (if Mesh.adds o then wrap_int (Mesh.m_size m + 1) else Mesh.m_size m) /\
  length (Mesh.m_vertices m')
  = (length (Mesh.m_vertices m) + (if Mesh.adds o then 1 else 0))%nat /\
  Mesh.m_nedge m' = Mesh.m_nedge m /\ Mesh.m_nface m' = Mesh.m_nface m /\
  Mesh.m_edges m' = Mesh.m_edges m /\ Mesh.m_faces m' = Mesh.m_faces m.
Proof.
  destruct o as [vid x y z|p|p]; simpl.
  - intros [= _ <-]. simpl. rewrite length_app. by repeat split.
  - intros [= _ <-]. simpl. rewrite length_app. by repeat split.
  - rewrite update_run. destruct (decide _); [|discriminate].
    intros [= _ <-]. simpl. rewrite length_alterZ. repeat split; lia.
Qed.

Lemma operations_run ops : forall m m' k,
  Mesh.m_size m = wrap_int k ->
  for_each ops (Mesh.perform vertex_class) m = Ret tt m' ->
  Mesh.m_size m' = wrap_int (k + Z.of_nat (length (filter Mesh.adds ops))) /\
  length (Mesh.m_vertices m')
  = (length (Mesh.m_vertices m) + length (filter Mesh.adds ops))%nat /\
  Mesh.m_nedge m' = Mesh.m_nedge m /\ Mesh.m_nface m' = Mesh.m_nface m /\
  Mesh.m_edges m' = Mesh.m_edges m /\ Mesh.m_faces m' = Mesh.m_faces m.
Proof.
  induction ops as [|o ops IH]; intros m m' k Hk H.
  - injection H as <-. simpl. rewrite Z.add_0_r, Nat.add_0_r. by repeat split.
  - simpl in H. apply bind_Ret_inv in H as (u & m1 & H1 & H).
    apply perform_run in H1 as (Hsize & Hlen & Hne & Hnf & He & Hf).
    destruct (Mesh.adds o) eqn:Ho.
    + rewrite filter_cons_True by (by apply Is_true_true).
      apply (IH m1 m' (k + 1)) in H as (-> & -> & -> & -> & -> & ->).
      * rewrite Hlen. simpl length. split; [f_equal; lia|]. split; [lia | done].
      * rewrite Hsize, Hk. apply wrap_int_succ.
    + rewrite filter_cons_False by (by apply Is_true_false).
      apply (IH m1 m' k) in H as (-> & -> & -> & -> & -> & ->); [|congruence].
      rewrite Hlen. split; [done|]. split; [lia | done].
Qed.

(** X17. Starting from the empty mesh, after any sequence of returning
    calls of the two [add_vertex] members and of [update], the vertex list
    holds one vertex per [add_vertex] call, [size()] is that number in
    [int] arithmetic (the number itself below [2^31]), and no edge or face
    has appeared. *)
Theorem mesh_size_counts_added_vertices ops m' :
  for_each ops (Mesh.perform vertex_class) Mesh.Mesh = Ret tt m' ->
  let n := length (filter Mesh.adds ops) in
  length (Mesh.m_vertices m') = n /\
  Mesh.size m' = Ret (wrap_int (Z.of_nat n)) m' /\
  (Z.of_nat n < 2 ^ 31 -> Mesh.size m' = Ret (Z.of_nat (length (Mesh.m_vertices m'))) m') /\
  Mesh.nedges m' = Ret 0 m' /\ Mesh.nfaces m' = Ret 0 m' /\
  Mesh.m_edges m' = [] /\ Mesh.m_faces m' = [].
Proof.
  intros H n.
  apply (operations_run ops _ _ 0) in H as (Hsize & Hlen & Hne & Hnf & He & Hf); [|done].
  simpl in *. fold n in Hsize, Hlen. unfold Mesh.size, Mesh.nedges, Mesh.nfaces.
  rewrite Hsize, Hlen, Hne, Hnf. repeat split; try done.
  intros Hn. rewrite wrap_int_small; [done | lia].
Qed.


End MeshProperties.

(** Three operations on the empty mesh. *)
Lemma mesh_size_counts_added_vertices_witness :
  exists m' : @Mesh.t PlainVertex unit unit,
    for_each three_operations (Mesh.perform plain_vertices) Mesh.Mesh = Ret tt m' /\
    length (Mesh.m_vertices m') = 2%nat /\
    Mesh.size m' = Ret 2 m' /\
    Mesh.nedges m' = Ret 0 m' /\ Mesh.nfaces m' = Ret 0 m'.
Proof.
  eassert (H : for_each three_operations (Mesh.perform plain_vertices)
                 (@Mesh.Mesh PlainVertex unit unit) = Ret tt _)
    by (vm_compute; reflexivity).
  destruct (mesh_size_counts_added_vertices plain_vertices three_operations _ H)
    as (Hlen & Hsize & _ & Hne & Hnf & _).
  eexists. split; [exact H|]. split; [exact Hlen|]. split; [exact Hsize|].
  split; [exact Hne | exact Hnf].
Defined.
